(** * Chunk identifiers, Merkle trees and tree diffing of pr_agent.algo.ast

    A shallow embedding of [ast_chunker.py] and [merkle_tree.py]:
    - Python [str] values are sequences of Unicode code points;
    - [bytes] values are sequences of 8-bit numbers;
    - [str.encode()] is strict UTF-8, [hashlib.sha256] is FIPS 180-4;
    - [dict] and [set] values are stdpp's [gmap] and [gset], except for the
      one dictionary whose iteration order reaches a digest, which is an
      association list in insertion order; a [set] is iterated in the order
      of [elements], of which the properties use nothing but that it lists
      every element once;
    - objects that the code mutates ([MerkleTree] instances) live in a store
      and are reached through references. *)

From Stdlib Require Import NArith List Lia String Ascii.
From stdpp Require Import gmap list sets.

Open Scope N_scope.

(** ** Python strings and bytes *)

(** A Python [str]: the sequence of its code points.  Python's characters
    are the code points below [0x110000], lone surrogates included. *)
Abbreviation pystr := (list N).

(** A Python [bytes] value: each element is meant to be below 256. *)
Abbreviation pybytes := (list N).

(** Code points of a literal of the source text. *)
Definition lit (s : string) : pystr :=
  map N_of_ascii (list_ascii_of_string s).

(** Exceptions that the embedded code can raise.  [InvalidReference] is
    of the model only: the use of a reference to no object of the store,
    which no Python program holds. *)
Inductive exn : Type :=
  | UnicodeEncodeError
  | UnicodeDecodeError
  | KeyError
  | InvalidReference.

(** Outcome of a computation that may raise. *)
Inductive result (A : Type) : Type :=
  | Ok (a : A)
  | Raise (e : exn).
Arguments Ok {A} a.
Arguments Raise {A} e.

Definition rbind {A B} (r : result A) (k : A → result B) : result B :=
  match r with
  | Ok a => k a
  | Raise e => Raise e
  end.

Definition rmap {A B} (f : A → B) (r : result A) : result B :=
  rbind r (λ a, Ok (f a)).

#[global] Instance result_ret : MRet result := λ A a, Ok a.
#[global] Instance result_bind : MBind result := λ A B k r, rbind r k.

(** A [for] loop with an accumulator, in code that touches no object. *)
Fixpoint rfor {A B} (body : B → A → result B) (l : list A) (acc : B)
  : result B :=
  match l with
  | [] => Ok acc
  | x :: l' => rbind (body acc x) (rfor body l')
  end.

(** [str.encode()] for one character: strict UTF-8.  Surrogates are
    refused, as CPython does; numbers from [0x110000] on are no characters
    and are refused as well. *)
Definition encode_char (c : N) : result pybytes :=
  if c <? 0x80 then Ok [c]
  else if c <? 0x800 then Ok [0xC0 + c / 64; 0x80 + c mod 64]
  else if c <? 0x10000 then
    if (0xD800 <=? c) && (c <=? 0xDFFF) then Raise UnicodeEncodeError
    else Ok [0xE0 + c / 4096; 0x80 + (c / 64) mod 64; 0x80 + c mod 64]
  else if c <? 0x110000 then
    Ok [0xF0 + c / 262144; 0x80 + (c / 4096) mod 64;
        0x80 + (c / 64) mod 64; 0x80 + c mod 64]
  else Raise UnicodeEncodeError.

Fixpoint encode (s : pystr) : result pybytes :=
  match s with
  | [] => Ok []
  | c :: s' =>
      rbind (encode_char c) (λ b, rbind (encode s') (λ bs, Ok (b ++ bs)))
  end.

(** A continuation byte of UTF-8. *)
Definition is_cont (b : N) : bool := (0x80 <=? b) && (b <? 0xC0).

Definition is_surrogate (c : N) : bool := (0xD800 <=? c) && (c <=? 0xDFFF).

(** [bytes.decode('utf8')]: strict UTF-8, which refuses stray and missing
    continuation bytes, overlong forms, surrogates and values from
    [0x110000] on. *)
Fixpoint decode (bs : pybytes) : result pystr :=
  match bs with
  | [] => Ok []
  | b0 :: bs1 =>
      if b0 <? 0x80 then rmap (cons b0) (decode bs1)
      else if b0 <? 0xC0 then Raise UnicodeDecodeError
      else if b0 <? 0xE0 then
        match bs1 with
        | b1 :: bs2 =>
            let c := (b0 - 0xC0) * 64 + (b1 - 0x80) in
            if is_cont b1 && (0x80 <=? c) then rmap (cons c) (decode bs2)
            else Raise UnicodeDecodeError
        | _ => Raise UnicodeDecodeError
        end
      else if b0 <? 0xF0 then
        match bs1 with
        | b1 :: b2 :: bs3 =>
            let c := ((b0 - 0xE0) * 64 + (b1 - 0x80)) * 64 + (b2 - 0x80) in
            if is_cont b1 && is_cont b2 && (0x800 <=? c)
               && negb (is_surrogate c)
            then rmap (cons c) (decode bs3)
            else Raise UnicodeDecodeError
        | _ => Raise UnicodeDecodeError
        end
      else if b0 <? 0xF8 then
        match bs1 with
        | b1 :: b2 :: b3 :: bs4 =>
            let c := (((b0 - 0xF0) * 64 + (b1 - 0x80)) * 64 + (b2 - 0x80))
                     * 64 + (b3 - 0x80) in
            if is_cont b1 && is_cont b2 && is_cont b3
               && (0x10000 <=? c) && (c <? 0x110000)
            then rmap (cons c) (decode bs4)
            else Raise UnicodeDecodeError
        | _ => Raise UnicodeDecodeError
        end
      else Raise UnicodeDecodeError
  end.

(** [bs[start:stop]] for indices that are not negative. *)
Definition slice (bs : pybytes) (start stop : N) : pybytes :=
  take (N.to_nat stop - N.to_nat start) (drop (N.to_nat start) bs).

(** ** SHA-256 (FIPS 180-4), as [hashlib.sha256] computes it *)

Module SHA256.

Definition w32 (x : N) : N := x mod 2 ^ 32.
Definition add32 (x y : N) : N := w32 (x + y).
Definition not32 (x : N) : N := N.lxor (w32 x) 0xFFFFFFFF.
Definition rotr (n x : N) : N :=
  N.lor (N.shiftr (w32 x) n) (w32 (N.shiftl (w32 x) (32 - n))).
Definition shr (n x : N) : N := N.shiftr (w32 x) n.

Definition Ch (x y z : N) : N :=
  N.lxor (N.land x y) (N.land (not32 x) z).
Definition Maj (x y z : N) : N :=
  N.lxor (N.lxor (N.land x y) (N.land x z)) (N.land y z).
Definition Sigma0 (x : N) : N :=
  N.lxor (N.lxor (rotr 2 x) (rotr 13 x)) (rotr 22 x).
Definition Sigma1 (x : N) : N :=
  N.lxor (N.lxor (rotr 6 x) (rotr 11 x)) (rotr 25 x).
Definition sigma0 (x : N) : N :=
  N.lxor (N.lxor (rotr 7 x) (rotr 18 x)) (shr 3 x).
Definition sigma1 (x : N) : N :=
  N.lxor (N.lxor (rotr 17 x) (rotr 19 x)) (shr 10 x).

(** The largest [r] below [2 ^ bits] with [r ^ k <= n]. *)
Definition iroot (k : N) (bits : nat) (n : N) : N :=
  fold_left (λ r b, let r' := r + 2 ^ N.of_nat b in
                    if r' ^ k <=? n then r' else r)
            (rev (seq 0 bits)) 0.

(** The first 32 bits of the fractional part of the [k]-th root of [p]. *)
Definition root_bits (k p : N) : N :=
  w32 (iroot k 36 (p * 2 ^ (32 * k))).

Definition is_prime (p : N) : bool :=
  (2 <=? p)
  && forallb (λ d, negb (p mod N.of_nat d =? 0)) (seq 2 (N.to_nat p - 2)).

Definition candidates : list N := map N.of_nat (seq 2 310).

Definition primes : list N := Eval vm_compute in
  filter (λ p, is_prime p = true) candidates.

(** The round constants: cube roots of the first 64 primes. *)
Definition K : list N := Eval vm_compute in map (root_bits 3) primes.

(** The eight working words. *)
Record state : Type := State {
  sa : N; sb : N; sc : N; sd : N; se : N; sf : N; sg : N; sh : N
}.

(** The initial hash value: square roots of the first 8 primes. *)
Definition H0 : state := Eval vm_compute in
    match map (root_bits 2) (firstn 8 primes) with
    | [a; b; c; d; e; f; g; h] => State a b c d e f g h
    | _ => State 0 0 0 0 0 0 0 0
    end.

(** Padding: a [0x80] byte, zero bytes up to 56 modulo 64, and the bit
    length as a 64-bit big-endian number. *)
Definition be_bytes (n : nat) (x : N) : pybytes :=
  map (λ i, (x / 2 ^ (8 * N.of_nat i)) mod 256) (rev (seq 0 n)).

Definition pad (msg : pybytes) : pybytes :=
  let len := length msg in
  msg ++ [0x80] ++ repeat 0 ((119 - len mod 64) mod 64)%nat
      ++ be_bytes 8 ((8 * N.of_nat len) mod 2 ^ 64).

(** Big-endian 32-bit words of a block. *)
Fixpoint words (n : nat) (bs : pybytes) : list N :=
  match n with
  | O => []
  | S n' =>
      match bs with
      | b0 :: b1 :: b2 :: b3 :: bs' =>
          w32 (((b0 * 256 + b1) * 256 + b2) * 256 + b3) :: words n' bs'
      | _ => []
      end
  end.

(** Message schedule, built newest word first. *)
Fixpoint extend (n : nat) (rw : list N) : list N :=
  match n with
  | O => rw
  | S n' =>
      let w := add32 (add32 (sigma1 (nth 1 rw 0)) (nth 6 rw 0))
                     (add32 (sigma0 (nth 14 rw 0)) (nth 15 rw 0)) in
      extend n' (w :: rw)
  end.

Definition schedule (block : list N) : list N :=
  rev (extend 48 (rev block)).

Definition round (s : state) (kw : N * N) : state :=
  let t1 := add32 (add32 (add32 (sh s) (Sigma1 (se s)))
                         (add32 (Ch (se s) (sf s) (sg s)) (fst kw)))
                  (snd kw) in
  let t2 := add32 (Sigma0 (sa s)) (Maj (sa s) (sb s) (sc s)) in
  State (add32 t1 t2) (sa s) (sb s) (sc s)
        (add32 (sd s) t1) (se s) (sf s) (sg s).

Definition compress (s : state) (block : pybytes) : state :=
  let r := fold_left round (combine K (schedule (words 16 block))) s in
  State (add32 (sa s) (sa r)) (add32 (sb s) (sb r))
        (add32 (sc s) (sc r)) (add32 (sd s) (sd r))
        (add32 (se s) (se r)) (add32 (sf s) (sf r))
        (add32 (sg s) (sg r)) (add32 (sh s) (sh r)).

Fixpoint blocks (n : nat) (bs : pybytes) (s : state) : state :=
  match n with
  | O => s
  | S n' => blocks n' (skipn 64 bs) (compress s (firstn 64 bs))
  end.

Definition digest_words (msg : pybytes) : list N :=
  let p := pad msg in
  let s := blocks (length p / 64) p H0 in
  [sa s; sb s; sc s; sd s; se s; sf s; sg s; sh s].

(** [digest()]: 32 bytes. *)
Definition digest (msg : pybytes) : pybytes :=
  concat (map (be_bytes 4) (digest_words msg)).

(** One lowercase hexadecimal digit, as a character. *)
Definition hex_digit (d : N) : N :=
  if d <? 10 then 48 + d else 87 + d.

Definition hex_byte (b : N) : pystr :=
  [hex_digit (b / 16 mod 16); hex_digit (b mod 16)].

(** [hexdigest()]: two lowercase hexadecimal digits for each byte. *)
Definition hexdigest (msg : pybytes) : pystr :=
  concat (map hex_byte (digest msg)).

End SHA256.

(** ** [str] methods used by the chunker *)

(** [str.isspace()] of one character, CPython's [_PyUnicode_IsWhitespace]. *)
Definition isspace (c : N) : bool :=
  ((0x09 <=? c) && (c <=? 0x0D)) || ((0x1C <=? c) && (c <=? 0x20))
  || (c =? 0x85) || (c =? 0xA0) || (c =? 0x1680)
  || ((0x2000 <=? c) && (c <=? 0x200A))
  || (c =? 0x2028) || (c =? 0x2029) || (c =? 0x202F)
  || (c =? 0x205F) || (c =? 0x3000).

Fixpoint lstrip (s : pystr) : pystr :=
  match s with
  | [] => []
  | c :: s' => if isspace c then lstrip s' else s
  end.

Definition rstrip (s : pystr) : pystr := rev (lstrip (rev s)).

(** [s.strip()] *)
Definition strip (s : pystr) : pystr := rstrip (lstrip s).

(** [s.split(sep)] for a separator of one character. *)
Fixpoint split (sep : N) (s : pystr) : list pystr :=
  match s with
  | [] => [[]]
  | c :: s' =>
      if c =? sep then [] :: split sep s'
      else match split sep s' with
           | piece :: pieces => (c :: piece) :: pieces
           | [] => [[c]]
           end
  end.

(** [sep.join(pieces)] *)
Fixpoint join (sep : pystr) (pieces : list pystr) : pystr :=
  match pieces with
  | [] => []
  | [piece] => piece
  | piece :: pieces' => piece ++ sep ++ join sep pieces'
  end.

(** Truth value of a [str]: non-empty. *)
Definition truthy (s : pystr) : bool :=
  match s with [] => false | _ => true end.

(** The newline character. *)
Definition NL : N := 10.

(** ** ast_chunker.py: [CodeChunk] *)

Record CodeChunk : Type := mkCodeChunk {
  code_string : pystr;
  type : pystr;
  start_line : N;
  end_line : N;
  path : pystr
}.

(** [CodeChunk.normalize_code] *)
Definition normalize_code (code : pystr) : pystr :=
  let lines := map strip (split NL code) in
  join [NL] (filter (λ line, truthy line = true) lines).

(** [hashlib.sha256(s.encode()).hexdigest()] *)
Definition sha256_hex (s : pystr) : result pystr :=
  rmap SHA256.hexdigest (encode s).

(** [CodeChunk.doc_id] *)
Definition doc_id (self : CodeChunk) : result pystr :=
  let normalized := normalize_code (code_string self) in
  rbind (sha256_hex normalized) (λ h, Ok (path self ++ lit "__" ++ h)).

(** ** merkle_tree.py: [MerkleNode] *)

#[warnings="-register-all"]
Inductive MerkleNode : Type :=
  mkMerkleNode { hash_value : pystr; children : list MerkleNode }.

(** [MerkleNode.is_leaf] *)
Definition is_leaf (self : MerkleNode) : bool :=
  match children self with [] => true | _ => false end.

(** ** The store of [MerkleTree] objects *)

(** The two attributes of a [MerkleTree] instance.  [chunk_nodes] is only
    ever read through its key set, so a [gmap] stands for the [dict]. *)
Record MerkleTree : Type := mkMerkleTree {
  root : option MerkleNode;
  chunk_nodes : gmap pystr MerkleNode
}.

(** A reference to a [MerkleTree] object, and the objects allocated so far. *)
Abbreviation ref := nat.
Abbreviation store := (list MerkleTree).

(** A method: it may read and write the store, and return or raise.  When
    it raises, the writes made before stay, as in Python. *)
Definition M (A : Type) : Type := store → store * result A.

#[global] Instance M_ret : MRet M := λ A a σ, (σ, Ok a).
#[global] Instance M_bind : MBind M := λ A B k m σ,
  match m σ with
  | (σ', Ok a) => k a σ'
  | (σ', Raise e) => (σ', Raise e)
  end.

(** A computation that touches no object. *)
Definition lift {A} (r : result A) : M A := λ σ, (σ, r).

(** [self.root] *)
Definition get_root (self : ref) : M (option MerkleNode) := λ σ,
  match σ !! self with
  | Some t => (σ, Ok (root t))
  | None => (σ, Raise InvalidReference)
  end.

(** [self.chunk_nodes] *)
Definition get_chunk_nodes (self : ref) : M (gmap pystr MerkleNode) := λ σ,
  match σ !! self with
  | Some t => (σ, Ok (chunk_nodes t))
  | None => (σ, Raise InvalidReference)
  end.

(** [self.root = node] *)
Definition set_root (self : ref) (node : MerkleNode) : M unit := λ σ,
  match σ !! self with
  | Some t => (<[self := mkMerkleTree (Some node) (chunk_nodes t)]> σ, Ok tt)
  | None => (σ, Raise InvalidReference)
  end.

(** [self.chunk_nodes[key] = node] *)
Definition set_chunk_node (self : ref) (key : pystr) (node : MerkleNode)
  : M unit := λ σ,
  match σ !! self with
  | Some t =>
      (<[self := mkMerkleTree (root t) (<[key := node]> (chunk_nodes t))]> σ,
       Ok tt)
  | None => (σ, Raise InvalidReference)
  end.

(** A [for] loop with an accumulator. *)
Fixpoint for_each {A B} (body : B → A → M B) (l : list A) (acc : B) : M B :=
  match l with
  | [] => mret acc
  | x :: l' => acc' ← body acc x; for_each body l' acc'
  end.

(** [MerkleTree.__init__], with the allocation of the object. *)
Definition MerkleTree_new : M ref := λ σ,
  (σ ++ [mkMerkleTree None ∅], Ok (length σ)).

(** [MerkleTree.hash_content] *)
Definition hash_content (content : pystr) : result pystr :=
  sha256_hex content.

(** [MerkleTree.hash_children] *)
Definition hash_children (children : list MerkleNode) : result pystr :=
  match children with
  | [] => Ok []
  | _ => hash_content (concat (map hash_value children))
  end.

(** ** An insertion-ordered [dict], for [path_to_chunks] *)

Module Dict.
Section Dict.
Context {V : Type}.

Abbreviation t := (list (pystr * V)).

(** [key in d] *)
Fixpoint mem (key : pystr) (d : t) : bool :=
  match d with
  | [] => false
  | (k, _) :: d' => if decide (k = key) then true else mem key d'
  end.

(** [d[key]], for a key that is present. *)
Fixpoint get (key : pystr) (d : t) : option V :=
  match d with
  | [] => None
  | (k, v) :: d' => if decide (k = key) then Some v else get key d'
  end.

(** [d[key] = v]: a new key goes last, an old key keeps its place. *)
Fixpoint set (key : pystr) (v : V) (d : t) : t :=
  match d with
  | [] => [(key, v)]
  | (k, w) :: d' =>
      if decide (k = key) then (k, v) :: d' else (k, w) :: set key v d'
  end.
End Dict.
End Dict.

(** ** [MerkleTree.build_from_chunks] *)

(** One turn of the grouping loop: [path_to_chunks[path].append(chunk)],
    after creating the entry when it is missing. *)
Definition group_chunk (path_to_chunks : list (pystr * list CodeChunk))
    (chunk : CodeChunk) : list (pystr * list CodeChunk) :=
  let path := path chunk in
  let d := if Dict.mem path path_to_chunks then path_to_chunks
           else Dict.set path [] path_to_chunks in
  match Dict.get path d with
  | Some file_chunks => Dict.set path (file_chunks ++ [chunk]) d
  | None => d
  end.

Definition group_by_path (chunks : list CodeChunk)
  : list (pystr * list CodeChunk) :=
  fold_left group_chunk chunks [].

(** Body of the inner loop: one leaf for one chunk.  The [doc_id] property
    is evaluated twice, as in the source. *)
Definition add_leaf (self : ref) (chunk_nodes : list MerkleNode)
    (chunk : CodeChunk) : M (list MerkleNode) :=
  id ← lift (doc_id chunk);
  let leaf := mkMerkleNode id [] in
  key ← lift (doc_id chunk);
  _ ← set_chunk_node self key leaf;
  mret (chunk_nodes ++ [leaf]).

(** Body of the outer loop: one file node for one path. *)
Definition add_file (self : ref) (file_nodes : list MerkleNode)
    (item : pystr * list CodeChunk) : M (list MerkleNode) :=
  chunk_nodes ← for_each (add_leaf self) (snd item) [];
  file_hash ← lift (hash_children chunk_nodes);
  mret (file_nodes ++ [mkMerkleNode file_hash chunk_nodes]).

Definition build_from_chunks (self : ref) (chunks : list CodeChunk) : M ref :=
  let path_to_chunks := group_by_path chunks in
  file_nodes ← for_each (add_file self) path_to_chunks [];
  root_hash ← lift (hash_children file_nodes);
  _ ← set_root self (mkMerkleNode root_hash file_nodes);
  mret self.

(** ** [MerkleTree.compare] *)

(** [{child.hash_value: child for child in nodes}]: a later node replaces an
    earlier one with the same digest. *)
Definition by_hash (nodes : list MerkleNode) : gmap pystr MerkleNode :=
  fold_left (λ d child, <[hash_value child := child]> d) nodes ∅.

(** [a ^ b] on sets. *)
Definition sym_diff (a b : gset pystr) : gset pystr := (a ∖ b) ∪ (b ∖ a).

(** Body of the first loop of [compare]. *)
Definition add_changed_file (self_file_nodes other_file_nodes :
    gmap pystr MerkleNode) (changed_chunks : list pystr) (file_hash : pystr)
  : list pystr :=
  match self_file_nodes !! file_hash with
  | Some file_node => changed_chunks ++ map hash_value (children file_node)
  | None =>
      match other_file_nodes !! file_hash with
      | Some file_node => changed_chunks ++ map hash_value (children file_node)
      | None => changed_chunks
      end
  end.

(** Body of the second loop of [compare]; a missing key would raise. *)
Definition add_common_file (self_file_nodes other_file_nodes :
    gmap pystr MerkleNode) (changed_chunks : result (list pystr))
    (file_hash : pystr) : result (list pystr) :=
  rbind changed_chunks (λ changed_chunks,
  match self_file_nodes !! file_hash, other_file_nodes !! file_hash with
  | Some self_file, Some other_file =>
      if decide (hash_value self_file ≠ hash_value other_file) then
        let self_chunks := by_hash (children self_file) in
        let other_chunks := by_hash (children other_file) in
        let changed_chunk_hashes :=
          sym_diff (dom self_chunks) (dom other_chunks) in
        Ok (changed_chunks ++ elements changed_chunk_hashes)
      else Ok changed_chunks
  | _, _ => Raise KeyError
  end).

(** [compare] from line 138 on, where both roots are present.  A [set] is
    iterated in the order of [elements]; Python fixes no order. *)
Definition compare_roots (self_root other_root : MerkleNode)
  : result (list pystr) :=
  if decide (hash_value self_root = hash_value other_root) then Ok []
  else
    let self_file_nodes := by_hash (children self_root) in
    let other_file_nodes := by_hash (children other_root) in
    let changed_file_hashes :=
      sym_diff (dom self_file_nodes) (dom other_file_nodes) in
    let changed_chunks :=
      fold_left (add_changed_file self_file_nodes other_file_nodes)
                (elements changed_file_hashes) [] in
    let common_file_hashes :=
      dom self_file_nodes ∩ dom other_file_nodes in
    fold_left (add_common_file self_file_nodes other_file_nodes)
              (elements common_file_hashes) (Ok changed_chunks).

(** Lines 135 and 136: the union of the two key sets, as a list. *)
Definition all_chunk_ids (self other : ref) : M (list pystr) :=
  self_chunk_nodes ← get_chunk_nodes self;
  other_chunk_nodes ← get_chunk_nodes other;
  mret (elements (dom self_chunk_nodes ∪ dom other_chunk_nodes)).

(** [not self.root] holds of [None] only: a [MerkleNode] has neither
    [__bool__] nor [__len__], so every node is true. *)
Definition compare (self other : ref) : M (list pystr) :=
  self_root ← get_root self;
  match self_root with
  | None => all_chunk_ids self other
  | Some self_root =>
      other_root ← get_root other;
      match other_root with
      | None => all_chunk_ids self other
      | Some other_root => lift (compare_roots self_root other_root)
      end
  end.

(** ** ast_chunker.py: the chunk extractor *)

(** What the code reads of a tree-sitter node: its kind, its children, its
    byte span and the (row, column) points of its two ends. *)
Module TS.
#[warnings="-register-all"]
Inductive Node : Type := mkNode {
  type : pystr;
  children : list Node;
  start_byte : N;
  end_byte : N;
  start_point : N * N;
  end_point : N * N
}.
End TS.

(** An [ASTChunker] holds a parser: from the bytes of a file to the root
    node of its syntax tree. *)
Record ASTChunker : Type := mkASTChunker {
  parser : pybytes → TS.Node
}.

(** [ASTChunker._extract_chunk] *)
Definition _extract_chunk (node : TS.Node) (code : pystr)
    (chunk_type : pystr) (file_path : pystr) : result CodeChunk :=
  let start_byte := TS.start_byte node in
  let end_byte := TS.end_byte node in
  code_bytes ← encode code;
  let chunk_bytes := slice code_bytes start_byte end_byte in
  chunk_str ← decode chunk_bytes;
  let start_line := fst (TS.start_point node) + 1 in
  let end_line := fst (TS.end_point node) + 1 in
  Ok (mkCodeChunk chunk_str chunk_type start_line end_line file_path).

(** The search for the class body: the first child that is a [block]. *)
Fixpoint find_block (children : list TS.Node) : option TS.Node :=
  match children with
  | [] => None
  | child :: rest =>
      if decide (TS.type child = lit "block") then Some child
      else find_block rest
  end.

(** Body of the loop over the class body. *)
Definition add_method (code file_path : pystr) (chunks : list CodeChunk)
    (child : TS.Node) : result (list CodeChunk) :=
  if decide (TS.type child = lit "function_definition") then
    chunk ← _extract_chunk child code (lit "method") file_path;
    Ok (chunks ++ [chunk])
  else Ok chunks.

(** [ASTChunker._process_class] *)
Definition _process_class (node : TS.Node) (code file_path : pystr)
  : result (list CodeChunk) :=
  chunk ← _extract_chunk node code (lit "class") file_path;
  let chunks := [chunk] in
  let body_node := find_block (TS.children node) in
  match body_node with
  | Some body_node => rfor (add_method code file_path)
                           (TS.children body_node) chunks
  | None => Ok chunks
  end.

(** Body of the loop over the top-level nodes. *)
Definition add_top_level (code file_path : pystr) (chunks : list CodeChunk)
    (child : TS.Node) : result (list CodeChunk) :=
  if decide (TS.type child = lit "class_definition") then
    class_chunks ← _process_class child code file_path;
    Ok (chunks ++ class_chunks)
  else if decide (TS.type child = lit "function_definition") then
    chunk ← _extract_chunk child code (lit "function") file_path;
    Ok (chunks ++ [chunk])
  else Ok chunks.

(** [ASTChunker.chunk_code] *)
Definition chunk_code (self : ASTChunker) (code file_path : pystr)
  : result (list CodeChunk) :=
  source ← encode code;
  let root_node := parser self source in
  rfor (add_top_level code file_path) (TS.children root_node) [].

(** ** Notions of the specification *)

(** A string of whitespace characters only. *)
Definition whitespace (s : pystr) : Prop := Forall (λ c, isspace c = true) s.

(** [ls] are the lines of [text]: the pieces between its newlines. *)
Definition lines_of (text : pystr) (ls : list pystr) : Prop :=
  ls ≠ [] ∧ Forall (λ l, NL ∉ l) ls ∧ join [NL] ls = text.

(** [s] is [line] without its leading and trailing whitespace. *)
Definition stripped_of (line s : pystr) : Prop :=
  ∃ pre post, line = pre ++ s ++ post ∧ whitespace pre ∧ whitespace post
    ∧ (∀ c, head s = Some c → isspace c = false)
    ∧ (∀ c, last s = Some c → isspace c = false).

(** The normalization of the specification, section 4.3: the lines of the
    text, each one stripped, those that became empty dropped, and the rest
    joined by single newlines. *)
Definition normalized_of (text n : pystr) : Prop :=
  ∃ ls ss, lines_of text ls ∧ Forall2 stripped_of ls ss
    ∧ n = join [NL] (filter (λ s, s ≠ []) ss).

(** A lowercase hexadecimal digit, and the number it stands for. *)
Definition lower_hex (c : N) : Prop := 48 ≤ c ≤ 57 ∨ 97 ≤ c ≤ 102.

Definition hex_value (c : N) : N := if c <=? 57 then c - 48 else c - 87.

(** [h] is the lowercase hexadecimal encoding of [bs]: two digits for each
    byte, the high half first. *)
Definition hex_of (bs : pybytes) (h : pystr) : Prop :=
  Forall lower_hex h
  ∧ map hex_value h = concat (map (λ b, [b / 16; b mod 16]) bs).

(** A string that [str.encode()] accepts: no surrogate in it. *)
Definition scalar (c : N) : bool :=
  (c <? 0xD800) || ((0xDFFF <? c) && (c <? 0x110000)).

Definition encodable (s : pystr) : bool := forallb scalar s.

(** ** The tree that a chunk list determines *)

(** [map] with a function that may raise; the first failure wins. *)
Fixpoint rmapM {A B} (f : A → result B) (l : list A) : result (list B) :=
  match l with
  | [] => Ok []
  | x :: l' => rbind (f x) (λ y, rbind (rmapM f l') (λ ys, Ok (y :: ys)))
  end.

(** The leaf of a chunk, the file node of the chunks of one path, and the
    root over the file nodes, in the order of the grouping. *)
Definition leaf_of (chunk : CodeChunk) : result MerkleNode :=
  rmap (λ id, mkMerkleNode id []) (doc_id chunk).

Definition file_node_of (file_chunks : list CodeChunk) : result MerkleNode :=
  rbind (rmapM leaf_of file_chunks) (λ leaves,
  rbind (hash_children leaves) (λ file_hash,
  Ok (mkMerkleNode file_hash leaves))).

Definition built_root (chunks : list CodeChunk) : result MerkleNode :=
  rbind (rmapM file_node_of (map snd (group_by_path chunks))) (λ file_nodes,
  rbind (hash_children file_nodes) (λ root_hash,
  Ok (mkMerkleNode root_hash file_nodes))).

(** The leaf index after the leaves were entered, one after the other. *)
Definition add_leaves (leaves : list MerkleNode)
    (index : gmap pystr MerkleNode) : gmap pystr MerkleNode :=
  fold_left (λ d leaf, <[hash_value leaf := leaf]> d) leaves index.

(** The leaf digests under a node, in order. *)
Definition leaf_ids (node : MerkleNode) : list pystr :=
  map hash_value (children node).

(** The identifiers of the chunks of a list, in order; a chunk without an
    identifier contributes none. *)
Definition doc_ids (chunks : list CodeChunk) : list pystr :=
  omap (λ chunk, match doc_id chunk with
                 | Ok id => Some id
                 | Raise _ => None
                 end) chunks.

(** A chunk list on which [build_from_chunks] does not raise: every path
    and every normalized text can be encoded. *)
Definition buildable (chunks : list CodeChunk) : bool :=
  forallb (λ chunk, encodable (path chunk)
                    && encodable (normalize_code (code_string chunk))) chunks.

(** What a method may do to the object [self] and to no other: keep its
    root and keep every key of its leaf index. *)
Definition grown (self : ref) (σ σ' : store) : Prop :=
  length σ' = length σ
  ∧ (∀ r, r ≠ self → σ' !! r = σ !! r)
  ∧ ∀ t, σ !! self = Some t →
      ∃ t', σ' !! self = Some t' ∧ root t' = root t
            ∧ dom (chunk_nodes t) ⊆ dom (chunk_nodes t').

(** The grouping step, in one pass over the dictionary. *)
Fixpoint append_to (chunk : CodeChunk) (d : list (pystr * list CodeChunk))
  : list (pystr * list CodeChunk) :=
  match d with
  | [] => [(path chunk, [chunk])]
  | (k, v) :: d' =>
      if decide (k = path chunk) then (k, v ++ [chunk]) :: d'
      else (k, v) :: append_to chunk d'
  end.

(** Every group is named by the path of its chunks, and has one at least. *)
Definition group_ok (item : pystr * list CodeChunk) : Prop :=
  snd item ≠ [] ∧ Forall (λ chunk, path chunk = fst item) (snd item).


(** ** The file nodes that a diff reports *)

(** The nodes that a dictionary by digest holds: of the nodes with one
    digest, the last. *)
Fixpoint last_by_hash (nodes : list MerkleNode) : list MerkleNode :=
  match nodes with
  | [] => []
  | node :: rest =>
      if decide (hash_value node ∈ map hash_value rest)
      then last_by_hash rest
      else node :: last_by_hash rest
  end.

(** Of these, the ones whose digest no node of [others] has. *)
Definition only_in (nodes others : list MerkleNode) : list MerkleNode :=
  filter (λ node, hash_value node ∉ map hash_value others)
         (last_by_hash nodes).

Definition changed_file_nodes (self_root other_root : MerkleNode)
  : list MerkleNode :=
  only_in (children self_root) (children other_root)
  ++ only_in (children other_root) (children self_root).

(** What the first loop of [compare] appends for one file digest. *)
Definition leaves_for (self_file_nodes other_file_nodes :
    gmap pystr MerkleNode) (file_hash : pystr) : list pystr :=
  match self_file_nodes !! file_hash with
  | Some file_node => leaf_ids file_node
  | None =>
      match other_file_nodes !! file_hash with
      | Some file_node => leaf_ids file_node
      | None => []
      end
  end.

(** ** The claims about [compare], as the specification words them *)

(** A file node whose digest occurs among the children of one root only. *)
Definition in_one_tree_only (r1 r2 : MerkleNode) (node : MerkleNode) : Prop :=
  (node ∈ children r1 ∧ hash_value node ∉ map hash_value (children r2))
  ∨ (node ∈ children r2 ∧ hash_value node ∉ map hash_value (children r1)).

(** Section 4.5, steps 4 and 5, for two trees with roots: the result holds
    the leaf digests of these file nodes and nothing else. *)
Definition reports_files_in_one_tree_only (t1 t2 : MerkleTree)
    (l : list pystr) : Prop :=
  ∀ r1 r2, root t1 = Some r1 → root t2 = Some r2 →
    ∀ id, id ∈ l ↔ ∃ node, in_one_tree_only r1 r2 node ∧ id ∈ leaf_ids node.

(** The last node of [nodes] with its digest. *)
Definition last_with_digest (nodes : list MerkleNode) (node : MerkleNode)
  : Prop :=
  ∃ pre post, nodes = pre ++ node :: post
              ∧ hash_value node ∉ map hash_value post.

(** The file nodes that [compare] reports: for a digest that occurs under
    one root only, the last node with it. *)
Definition reported (r1 r2 : MerkleNode) (node : MerkleNode) : Prop :=
  (last_with_digest (children r1) node
   ∧ hash_value node ∉ map hash_value (children r2))
  ∨ (last_with_digest (children r2) node
     ∧ hash_value node ∉ map hash_value (children r1)).

(** The identifiers that the claim as worded expects, as a list. *)
Definition claimed_ids (r1 r2 : MerkleNode) : list pystr :=
  concat (map leaf_ids
    (filter (λ node, hash_value node ∉ map hash_value (children r2))
            (children r1)
     ++ filter (λ node, hash_value node ∉ map hash_value (children r1))
               (children r2))).

(** A test: on the first two trees of the store, both with a root,
    [compare] returns a list without the identifier [id], which the claim
    as worded expects. *)
Definition misses_claimed_id (σ : store) (id : pystr) : bool :=
  match σ !! 0%nat, σ !! 1%nat with
  | Some t1, Some t2 =>
      match root t1, root t2, snd (compare 0 1 σ) with
      | Some r1, Some r2, Ok l =>
          bool_decide (id ∈ claimed_ids r1 r2) && negb (bool_decide (id ∈ l))
      | _, _, _ => false
      end
  | _, _ => false
  end.

(** ** Renaming a file *)

(** The chunk, in a file of another name. *)
Definition with_path (p : pystr) (chunk : CodeChunk) : CodeChunk :=
  mkCodeChunk (code_string chunk) (type chunk) (start_line chunk)
              (end_line chunk) p.

(** The chunks of one file content, under the path [p]. *)
Definition under (p : pystr) (chunks : list CodeChunk) : list CodeChunk :=
  map (with_path p) chunks.

(** Both chunk lists determine a root, and the two root digests differ.
    For two lists that give different file digests this fails only where
    SHA-256 collides. *)
Definition roots_differ (chunks1 chunks2 : list CodeChunk) : bool :=
  match built_root chunks1, built_root chunks2 with
  | Ok r1, Ok r2 => bool_decide (hash_value r1 ≠ hash_value r2)
  | _, _ => false
  end.

(** ** The syntax tree of a file *)

(** The node spans the characters [text] of [code]: it starts after the
    bytes of what precedes [text], and ends after the bytes of [text]. *)
Definition spans (code : pystr) (node : TS.Node) (text : pystr) : Prop :=
  ∃ pre post, code = pre ++ text ++ post
    ∧ rmap length (encode pre) = Ok (N.to_nat (TS.start_byte node))
    ∧ rmap length (encode (pre ++ text)) = Ok (N.to_nat (TS.end_byte node)).

(** [body] is the first child of [node] that is a [block]. *)
Definition body_of (node body : TS.Node) : Prop :=
  ∃ pre post, TS.children node = pre ++ body :: post
    ∧ TS.type body = lit "block"
    ∧ Forall (λ child, TS.type child ≠ lit "block") pre.

(** The kinds of node that give chunks. *)
Definition is_class (node : TS.Node) : Prop :=
  TS.type node = lit "class_definition".

Definition is_function (node : TS.Node) : Prop :=
  TS.type node = lit "function_definition".

(** The chunk of a node, as [_extract_chunk] makes it. *)
Definition chunk_of (node : TS.Node) (text kind file_path : pystr)
  : CodeChunk :=
  mkCodeChunk text kind (fst (TS.start_point node) + 1)
              (fst (TS.end_point node) + 1) file_path.

(** The chunks of one top-level node. *)
Definition top_level_chunks (code file_path : pystr) (node : TS.Node)
  : result (list CodeChunk) :=
  if decide (is_class node) then _process_class node code file_path
  else rmap (λ chunk, [chunk])
            (_extract_chunk node code (lit "function") file_path).

(** ** Programs and inputs of the examples *)

(** [MerkleTree().build_from_chunks(chunks)] *)
Definition build_tree (chunks : list CodeChunk) : M ref :=
  tree ← MerkleTree_new;
  build_from_chunks tree chunks.

(** The diff of two chunk lists, as [demo] computes it: two fresh trees,
    then [tree_before.compare(tree_after)]. *)
Definition diff_chunks (before after : list CodeChunk) : M (list pystr) :=
  tree_before ← build_tree before;
  tree_after ← build_tree after;
  compare tree_before tree_after.

(** The scenario of section 8: [a] and [b] in one file, then [b] edited. *)
Definition chunk_a : CodeChunk :=
  mkCodeChunk (lit "def a():" ++ [NL] ++ lit " return 1")
              (lit "function") 1 2 (lit "m.py").

Definition chunk_b : CodeChunk :=
  mkCodeChunk (lit "def b():" ++ [NL] ++ lit " return 2")
              (lit "function") 4 5 (lit "m.py").

Definition chunk_b_edited : CodeChunk :=
  mkCodeChunk (lit "def b():" ++ [NL] ++ lit " return 3")
              (lit "function") 4 5 (lit "m.py").

(** Two trees made by hand. *)
Definition leaf (id : string) : MerkleNode := mkMerkleNode (lit id) [].

Definition small_store : store :=
  [ mkMerkleTree
      (Some (mkMerkleNode (lit "r1")
               [mkMerkleNode (lit "f1") [leaf "a"; leaf "b"];
                mkMerkleNode (lit "f0") [leaf "c"]]))
      ∅;
    mkMerkleTree
      (Some (mkMerkleNode (lit "r2")
               [mkMerkleNode (lit "f0") [leaf "c"];
                mkMerkleNode (lit "f2") [leaf "a"; leaf "d"]]))
      ∅ ].

(** Two trees with one root digest and different files. *)
Definition same_root_store : store :=
  [ mkMerkleTree
      (Some (mkMerkleNode (lit "r") [mkMerkleNode (lit "f") [leaf "a"]])) ∅;
    mkMerkleTree (Some (mkMerkleNode (lit "r") [])) ∅ ].

(** Two files of one tree with one digest: the identifiers of the two
    chunks of [a.py], one after the other, read as the identifier of one
    chunk of a file with a longer name. *)
Definition chunk_x : CodeChunk :=
  mkCodeChunk (lit "x = 1") (lit "function") 1 1 (lit "a.py").

Definition chunk_y : CodeChunk :=
  mkCodeChunk (lit "y = 2") (lit "function") 2 2 (lit "a.py").

Definition id_or_empty (chunk : CodeChunk) : pystr :=
  match doc_id chunk with
  | Ok id => id
  | Raise _ => []
  end.

Definition chunk_y_long_path : CodeChunk :=
  mkCodeChunk (lit "y = 2") (lit "function") 1 1
              (id_or_empty chunk_x ++ lit "a.py").

(** The store after a program that starts in the empty store. *)
Definition store_after {A} (m : M A) : store := fst (m []).

Definition twin_store : store :=
  store_after
    (_ ← build_tree [chunk_x; chunk_y; chunk_y_long_path]; build_tree []).

(** The text of [chunk_a] with trailing blanks, blank lines and another
    indentation. *)
Definition chunk_a_reformatted : CodeChunk :=
  mkCodeChunk (lit "def a():  " ++ [NL; NL; 9; NL] ++ lit "    return 1"
               ++ [NL])
              (lit "function") 1 5 (lit "m.py").

(** A class with two methods, and its syntax tree as tree-sitter gives it
    (the nodes of the tokens inside the methods are left out). *)
Definition class_source : pystr :=
  lit "class A:" ++ [NL]
  ++ lit "    def f(self):" ++ [NL]
  ++ lit "        return 1" ++ [NL]
  ++ lit "    def g(self):" ++ [NL]
  ++ lit "        return 2" ++ [NL].

Definition token (kind : string) (first last : N) (from to : N * N)
  : TS.Node :=
  TS.mkNode (lit kind) [] first last from to.

Definition method_f : TS.Node :=
  TS.mkNode (lit "function_definition") [] 13 42 (1, 4) (2, 16).

Definition method_g : TS.Node :=
  TS.mkNode (lit "function_definition") [] 47 76 (3, 4) (4, 16).

Definition class_body : TS.Node :=
  TS.mkNode (lit "block") [method_f; method_g] 13 76 (1, 4) (4, 16).

Definition class_A : TS.Node :=
  TS.mkNode (lit "class_definition")
    [token "class" 0 5 (0, 0) (0, 5);
     token "identifier" 6 7 (0, 6) (0, 7);
     token ":" 7 8 (0, 7) (0, 8);
     class_body]
    0 76 (0, 0) (4, 16).

Definition class_module : TS.Node :=
  TS.mkNode (lit "module") [class_A] 0 77 (0, 0) (5, 0).

(** A chunker whose parser gives this tree. *)
Definition class_chunker : ASTChunker := mkASTChunker (λ _, class_module).

(** A chunk of another file. *)
Definition chunk_other : CodeChunk :=
  mkCodeChunk (lit "def c():" ++ [NL] ++ lit " return 0")
              (lit "function") 1 2 (lit "other.py").

(** A tree that was never built beside a tree with a root; each has one
    key in its leaf index. *)
Definition unbuilt_store : store :=
  [ mkMerkleTree None {[lit "a" := leaf "a"]};
    mkMerkleTree (Some (leaf "r")) {[lit "b" := leaf "b"]} ].

(** ** Tactics *)

(** Quotients and remainders by a literal, named and bounded for [lia]. *)
Ltac name_divmod a b :=
  let q := fresh "q" in
  let r := fresh "r" in
  pose proof (N.div_mod a b ltac:(lia));
  pose proof (N.mod_lt a b ltac:(lia));
  set (q := a / b) in *; set (r := a mod b) in *; clearbody q r.

Ltac euclid :=
  repeat match goal with
         | |- context [?a mod ?b] => name_divmod a b
         | |- context [?a / ?b] => name_divmod a b
         | H : context [?a mod ?b] |- _ => name_divmod a b
         | H : context [?a / ?b] |- _ => name_divmod a b
         end;
  lia.

Ltac cases_N :=
  repeat match goal with
         | |- context [?a <? ?b] => destruct (N.ltb_spec a b)
         | |- context [?a <=? ?b] => destruct (N.leb_spec a b)
         | |- context [?a =? ?b] => destruct (N.eqb_spec a b)
         | H : context [?a <? ?b] |- _ => destruct (N.ltb_spec a b)
         | H : context [?a <=? ?b] |- _ => destruct (N.leb_spec a b)
         | H : context [?a =? ?b] |- _ => destruct (N.eqb_spec a b)
         end.

(** Settle the comparisons of the goal, one at a time. *)
Ltac settle_tests :=
  repeat match goal with
         | |- context [?a <? ?b] =>
             first [ rewrite (proj2 (N.ltb_lt a b)) by euclid
                   | rewrite (proj2 (N.ltb_ge a b)) by euclid ]
         | |- context [?a <=? ?b] =>
             first [ rewrite (proj2 (N.leb_le a b)) by euclid
                   | rewrite (proj2 (N.leb_gt a b)) by euclid ]
         end.


(** ** Notions of the further properties *)

(** The elements of a list in the order of their first occurrence. *)
Fixpoint first_occurrences (l : list pystr) : list pystr :=
  match l with
  | [] => []
  | x :: l' => x :: filter (λ y, y ≠ x) (first_occurrences l')
  end.

(** The chunks of one path, in their order. *)
Definition chunks_of_path (p : pystr) (chunks : list CodeChunk)
  : list CodeChunk :=
  filter (λ chunk, path chunk = p) chunks.

(** A digest as [hash_content] makes it: 64 lowercase hexadecimal digits. *)
Definition is_digest (h : pystr) : Prop :=
  length h = 64%nat ∧ Forall lower_hex h.

(** The shape and the digests of a tree of depth two: the digest of the
    root is that of its file nodes, and every file node is no leaf, has
    the digest of its children, and has only leaves for children. *)
Definition well_formed (r : MerkleNode) : Prop :=
  hash_children (children r) = Ok (hash_value r)
  ∧ Forall (λ file, is_leaf file = false
                    ∧ hash_children (children file) = Ok (hash_value file)
                    ∧ is_digest (hash_value file)
                    ∧ Forall (λ leaf, is_leaf leaf = true) (children file))
           (children r).

(** A leaf index in which every key leads to the leaf of that digest. *)
Definition index_ok (index : gmap pystr MerkleNode) : Prop :=
  ∀ key node, index !! key = Some node → node = mkMerkleNode key [].

(** Two chunks with one path and one normalized text: they differ in
    layout, in their line numbers or in their kind at most. *)
Definition same_content (c1 c2 : CodeChunk) : Prop :=
  path c1 = path c2
  ∧ normalize_code (code_string c1) = normalize_code (code_string c2).

(** merkle_tree.py, [demo], lines 218 to 221: the chunks of the new list
    that are listed under "Details of changed chunks". *)
Definition add_detail (changed_chunk_ids : list pystr)
    (details : list CodeChunk) (chunk : CodeChunk)
  : result (list CodeChunk) :=
  rbind (doc_id chunk) (λ id,
  if decide (id ∈ changed_chunk_ids) then Ok (details ++ [chunk])
  else Ok details).

Definition changed_details (chunks_after : list CodeChunk)
    (changed_chunk_ids : list pystr) : result (list CodeChunk) :=
  rfor (add_detail changed_chunk_ids) chunks_after [].

(** [text] is a piece of [code]. *)
Definition substring (text code : pystr) : Prop :=
  ∃ pre post, code = pre ++ text ++ post.

(** The kinds of the chunks that a top-level node gives, in order: a class
    and the function definitions directly in its first block, or a
    function; a node of another kind gives nothing. *)
Definition chunk_kinds (node : TS.Node) : list pystr :=
  if decide (is_class node) then
    lit "class" ::
    match find_block (TS.children node) with
    | Some body =>
        map (λ _, lit "method") (filter is_function (TS.children body))
    | None => []
    end
  else if decide (is_function node) then [lit "function"]
  else [].

(** A line as the normalization leaves it: not empty, without a newline,
    and without whitespace at either end. *)
Definition clean_line (line : pystr) : Prop :=
  line ≠ [] ∧ NL ∉ line ∧ strip line = line.

(** No two of the nodes have one digest and different child digests: on
    these nodes SHA-256 does not collide, and no two lists of child
    digests join to one string. *)
Definition collision_free (nodes : list MerkleNode) : bool :=
  forallb (λ n1,
    forallb (λ n2,
      negb (bool_decide (hash_value n1 = hash_value n2))
      || bool_decide (leaf_ids n1 = leaf_ids n2)) nodes) nodes.

(** The root and the file nodes of the tree of a chunk list. *)
Definition tree_nodes (chunks : list CodeChunk) : list MerkleNode :=
  match built_root chunks with
  | Ok r => r :: children r
  | Raise _ => []
  end.

(** ** The files: [chunk_file] and [build_from_directory] *)

(** What the two functions ask of their surroundings: the paths that
    [Path(directory).glob(file_pattern)] yields, the bytes of a file
    ([None] if it cannot be opened), [os.path.abspath], and the chunker
    that [ASTChunker()] makes ([None] if tree-sitter cannot be set up). *)
Record Env : Type := mkEnv {
  glob : pystr → pystr → list pystr;
  file_bytes : pystr → option pybytes;
  abspath : pystr → pystr;
  new_chunker : option ASTChunker
}.

(** The exceptions of code that reads files. *)
Inductive file_exn : Type :=
  | SetupError
  | OSError
  | TextError (e : exn).

Inductive outcome (A : Type) : Type :=
  | Returned (a : A)
  | Threw (e : file_exn).
Arguments Returned {A} a.
Arguments Threw {A} e.

(** The carriage return. *)
Definition CR : N := 13.

(** Reading in text mode: [\r\n] and [\r] become [\n]. *)
Fixpoint translate_newlines (text : pystr) : pystr :=
  match text with
  | [] => []
  | c :: rest =>
      if c =? CR then
        match rest with
        | c' :: rest' =>
            if c' =? NL then NL :: translate_newlines rest'
            else NL :: translate_newlines rest
        | [] => [NL]
        end
      else c :: translate_newlines rest
  end.

(** [open(file_path, 'r', encoding='utf-8')] and [f.read()] *)
Definition read_text (env : Env) (file_path : pystr) : outcome pystr :=
  match file_bytes env file_path with
  | None => Threw OSError
  | Some bs =>
      match decode bs with
      | Ok text => Returned (translate_newlines text)
      | Raise e => Threw (TextError e)
      end
  end.

(** ast_chunker.py, lines 213 to 228: [chunk_file] *)
Definition chunk_file (env : Env) (file_path : pystr)
  : outcome (list CodeChunk) :=
  match new_chunker env with
  | None => Threw SetupError
  | Some chunker =>
      match read_text env file_path with
      | Threw e => Threw e
      | Returned code =>
          match chunk_code chunker code (abspath env file_path) with
          | Ok chunks => Returned chunks
          | Raise e => Threw (TextError e)
          end
      end
  end.

(** Body of the loop of [build_from_directory]: a file that cannot be
    chunked is reported on the terminal and left out. *)
Definition add_file_chunks (env : Env) (chunks : list CodeChunk)
    (file_path : pystr) : list CodeChunk :=
  match chunk_file env file_path with
  | Returned file_chunks => chunks ++ file_chunks
  | Threw _ => chunks
  end.

(** merkle_tree.py, lines 102 to 123: [MerkleTree.build_from_directory] *)
Definition build_from_directory (env : Env) (self : ref)
    (directory file_pattern : pystr) : M ref :=
  let chunks :=
    fold_left (add_file_chunks env) (glob env directory file_pattern) [] in
  build_from_chunks self chunks.

(** The chunks of the files of a directory that can be chunked. *)
Definition directory_chunks (env : Env) (directory file_pattern : pystr)
  : list CodeChunk :=
  concat (map (λ file_path, match chunk_file env file_path with
                            | Returned file_chunks => file_chunks
                            | Threw _ => []
                            end)
              (glob env directory file_pattern)).

(** ** pr_rag_engine.py: the index of a pull request *)

Module Rag.

(** The exceptions of the engine: its own [ValueError], the [TypeError] of
    a subscript on [None], and whatever a call of the client or of the git
    provider raises. *)
Inductive exn : Type := ValueError | TypeError | CallError.

Inductive result (A : Type) : Type :=
  | Fine (a : A)
  | Fails (e : exn).
Arguments Fine {A} a.
Arguments Fails {A} e.

(** What the engine reads of a git provider. *)
Record GitProvider : Type := mkGitProvider {
  repo : pystr;
  get_pr_branch : pystr;
  default_branch : pystr
}.

Definition SLASH : N := 47.
Definition UNDERSCORE : N := 95.

(** [s.replace(old, new)] for two strings of one character. *)
Definition replace (old new : N) (s : pystr) : pystr :=
  map (λ c, if c =? old then new else c) s.

(** [PRRagEngine._get_index_name] *)
Definition _get_index_name (git_provider : option GitProvider)
  : result pystr :=
  match git_provider with
  | None => Fails ValueError
  | Some git_provider =>
      let repo_name := replace SLASH UNDERSCORE (repo git_provider) in
      let branch_name :=
        replace SLASH UNDERSCORE (get_pr_branch git_provider) in
      Fine (repo_name ++ [UNDERSCORE] ++ branch_name)
  end.

(** [PRRagEngine._get_default_branch_index_name] *)
Definition _get_default_branch_index_name
    (git_provider : option GitProvider) : result pystr :=
  match git_provider with
  | None => Fails ValueError
  | Some git_provider =>
      let repo_name := replace SLASH UNDERSCORE (repo git_provider) in
      let branch_name :=
        replace SLASH UNDERSCORE (default_branch git_provider) in
      Fine (repo_name ++ [UNDERSCORE] ++ branch_name)
  end.

(** An entry of the git tree of the default branch, and a document as it
    is sent to the index. *)
Record TreeEntry : Type := mkTreeEntry {
  type : pystr;
  path : pystr;
  sha : pystr
}.

Record Document : Type := mkDocument {
  text : pystr;
  file_name : pystr;
  language : option pystr;
  split_type : option pystr
}.

(** What [create_base_branch_index] meets outside: the git provider of the
    pull request, the answer of [list_indexes] ([None] if the call
    raises), whether the default branch is found, the entries of its
    tree, the decoded text of a blob ([None] if fetching or decoding it
    raises), and which calls of [index_documents] raise, by their number
    in the order of the calls. *)
Record World : Type := mkWorld {
  git_provider : option GitProvider;
  list_indexes : option (list pystr);
  default_branch_found : bool;
  tree : list TreeEntry;
  blob_text : pystr → option pystr;
  index_documents_raises : nat → bool
}.

(** [PRRagEngine._does_index_exist] *)
Definition _does_index_exist (w : World) (index_name : pystr) : result bool :=
  match list_indexes w with
  | None => Fails CallError
  | Some resp => Fine (bool_decide (index_name ∈ resp))
  end.

(** The loop of [create_base_branch_index], lines 83 to 102, with the
    batches that were passed to [index_documents] so far.  A call that
    raises inside the loop is logged and the loop goes on. *)
Fixpoint index_loop (w : World) (entries : list TreeEntry)
    (batch_docs : list Document) (calls : list (list Document))
  : list (list Document) * result (list Document) :=
  match entries with
  | [] => (calls, Fine batch_docs)
  | file_info :: rest =>
      let appended :=
        if decide (type file_info = lit "blob") then
          match blob_text w (sha file_info) with
          | Some text =>
              Fine (batch_docs
                    ++ [mkDocument text (path file_info) None None])
          | None => Fails CallError
          end
        else Fine batch_docs in
      match appended with
      | Fails e => (calls, Fails e)
      | Fine batch_docs =>
          if (10 <=? length batch_docs)%nat
          then index_loop w rest [] (calls ++ [batch_docs])
          else index_loop w rest batch_docs calls
      end
  end.

(** [PRRagEngine.create_base_branch_index]: the batches passed to
    [index_documents], in order, and how the method ends. *)
Definition create_base_branch_index (w : World)
  : list (list Document) * result unit :=
  match git_provider w with
  | None => ([], Fails ValueError)
  | Some _ =>
      match _get_default_branch_index_name (git_provider w) with
      | Fails e => ([], Fails e)
      | Fine index_name =>
          match _does_index_exist w index_name with
          | Fails e => ([], Fails e)
          | Fine true => ([], Fine tt)
          | Fine false =>
              if default_branch_found w then
                match index_loop w (tree w) [] [] with
                | (calls, Fails e) => (calls, Fails e)
                | (calls, Fine []) => (calls, Fine tt)
                | (calls, Fine batch_docs) =>
                    (calls ++ [batch_docs],
                     if index_documents_raises w (length calls)
                     then Fails CallError else Fine tt)
                end
              else ([], Fails ValueError)
          end
      end
  end.

(** The documents of the blobs of a tree, when every blob can be read. *)
Definition blob_documents (w : World) (entries : list TreeEntry)
  : list Document :=
  omap (λ file_info,
          if decide (type file_info = lit "blob") then
            match blob_text w (sha file_info) with
            | Some text => Some (mkDocument text (path file_info) None None)
            | None => None
            end
          else None) entries.

(** Every blob of the tree can be read. *)
Definition readable (w : World) (entries : list TreeEntry) : bool :=
  forallb (λ file_info,
             if decide (type file_info = lit "blob") then
               match blob_text w (sha file_info) with
               | Some _ => true
               | None => false
               end
             else true) entries.

(** *** [update_index] *)

(** [self.valid_languages], line 14 *)
Definition valid_languages : list pystr :=
  map lit
    ["bash"; "c"; "c_sharp"; "commonlisp"; "cpp"; "css"; "dockerfile";
     "dot"; "elisp"; "elixir"; "elm"; "embedded_template"; "erlang";
     "fixed_form_fortran"; "fortran"; "go"; "gomod"; "hack"; "haskell";
     "hcl"; "html"; "java"; "javascript"; "jsdoc"; "json"; "julia";
     "kotlin"; "lua"; "make"; "markdown"; "objc"; "ocaml"; "perl"; "php";
     "python"; "ql"; "r"; "regex"; "rst"; "ruby"; "rust"; "scala"; "sql";
     "sqlite"; "toml"; "tsq"; "typescript"; "yaml"]%string.

Inductive EDIT_TYPE : Type := ADDED | DELETED | MODIFIED | RENAMED | UNKNOWN.

(** A file of the diff of the pull request. *)
Module FilePatchInfo.
Record t : Type := mk {
  filename : pystr;
  head_file : pystr;
  language : option pystr;
  edit_type : EDIT_TYPE
}.
End FilePatchInfo.

(** A document as the index lists it: its [doc_id] and the [file_name] of
    its metadata. *)
Record IndexedDoc : Type := mkIndexedDoc {
  doc_id : pystr;
  metadata_file_name : pystr
}.

(** What [update_index] meets outside, in a run in which the calls of the
    git provider and of the client return: the provider, the files of the
    diff, the documents that [list_documents] gives for an index and a
    file name (none if the answer is empty), and the content of a file on
    a branch. *)
Record Update : Type := mkUpdate {
  provider : option GitProvider;
  get_diff_files : list FilePatchInfo.t;
  list_documents : pystr → pystr → list IndexedDoc;
  get_pr_file_content : pystr → pystr → pystr
}.

(** The calls that change an index. *)
Inductive Call : Type :=
  | delete_documents (index_name : pystr) (doc_ids : list pystr)
  | update_documents (index_name : pystr) (docs : list Document)
  | index_documents (index_name : pystr) (docs : list Document).

(** Lines 164 to 167 and 192 to 195: the language is recorded if it is
    one of the valid languages. *)
Definition with_language (file_info : FilePatchInfo.t) (doc : Document)
  : Document :=
  match FilePatchInfo.language file_info with
  | Some l =>
      if truthy l && bool_decide (l ∈ valid_languages)
      then mkDocument (text doc) (file_name doc) (Some l) (Some (lit "code"))
      else doc
  | None => doc
  end.

(** Body of the second loop, lines 156 to 201. *)
Definition classify (w : Update) (branch : pystr)
    (existing_docs : list IndexedDoc)
    (lists : list (option IndexedDoc) * list Document * list Document)
    (file_info : FilePatchInfo.t)
  : list (option IndexedDoc) * list Document * list Document :=
  let '(deleted_docs, update_docs, create_docs) := lists in
  let doc :=
    with_language file_info
      (mkDocument (FilePatchInfo.head_file file_info)
                  (FilePatchInfo.filename file_info) None None) in
  let curr_doc :=
    find (λ existing_doc,
            bool_decide (FilePatchInfo.filename file_info
                         = metadata_file_name existing_doc))
         existing_docs in
  match FilePatchInfo.edit_type file_info with
  | DELETED => (deleted_docs ++ [curr_doc], update_docs, create_docs)
  | MODIFIED | RENAMED =>
      let doc :=
        mkDocument
          (get_pr_file_content w (FilePatchInfo.filename file_info) branch)
          (FilePatchInfo.filename file_info)
          (language doc) (split_type doc) in
      (deleted_docs, update_docs ++ [doc], create_docs)
  | ADDED =>
      let doc :=
        with_language file_info
          (mkDocument
             (get_pr_file_content w (FilePatchInfo.filename file_info)
                                  branch)
             (FilePatchInfo.filename file_info) None None) in
      (deleted_docs, update_docs, create_docs ++ [doc])
  | UNKNOWN => lists
  end.

(** [[doc["doc_id"] for doc in deleted_docs]]: a subscript on [None]
    raises [TypeError]. *)
Fixpoint doc_ids_of (deleted_docs : list (option IndexedDoc))
  : result (list pystr) :=
  match deleted_docs with
  | [] => Fine []
  | Some doc :: rest =>
      match doc_ids_of rest with
      | Fine ids => Fine (doc_id doc :: ids)
      | Fails e => Fails e
      end
  | None :: rest => Fails TypeError
  end.

(** Lines 210 to 221, and lines 224 to 235 with the other index. *)
Definition send (index_name : pystr)
    (deleted_docs : list (option IndexedDoc))
    (update_docs create_docs : list Document) : list Call * result unit :=
  let updates :=
    match update_docs with
    | [] => []
    | _ => [update_documents index_name update_docs]
    end in
  let creates :=
    match create_docs with
    | [] => []
    | _ => [index_documents index_name create_docs]
    end in
  match deleted_docs with
  | [] => (updates ++ creates, Fine tt)
  | _ =>
      match doc_ids_of deleted_docs with
      | Fails e => ([], Fails e)
      | Fine ids =>
          (delete_documents index_name ids :: updates ++ creates, Fine tt)
      end
  end.

(** [PRRagEngine.update_index]: the calls that change an index, in
    order, and how the method ends. *)
Definition update_index (w : Update) (for_base_branch : bool)
  : list Call * result unit :=
  match provider w with
  | None => ([], Fails ValueError)
  | Some git_provider =>
      match _get_index_name (Some git_provider),
            _get_default_branch_index_name (Some git_provider) with
      | Fine index_name, Fine base_index_name =>
          let diff_files := get_diff_files w in
          let existing_docs :=
            concat (map (λ file_info,
                           list_documents w index_name
                             (FilePatchInfo.filename file_info))
                        diff_files) in
          let '(deleted_docs, update_docs, create_docs) :=
            fold_left (classify w (get_pr_branch git_provider) existing_docs)
                      diff_files ([], [], []) in
          match deleted_docs, update_docs, create_docs with
          | [], [], [] => ([], Fine tt)
          | _, _, _ =>
              if for_base_branch
              then send base_index_name deleted_docs update_docs create_docs
              else send index_name deleted_docs update_docs create_docs
          end
      | Fails e, _ => ([], Fails e)
      | _, Fails e => ([], Fails e)
      end
  end.

(** The documents that an index lists for the files of the diff. *)
Definition listed (w : Update) (index_name : pystr) : list IndexedDoc :=
  concat (map (λ file_info,
                 list_documents w index_name
                   (FilePatchInfo.filename file_info))
              (get_diff_files w)).

(** The first of the documents that has the name of the file. *)
Definition first_doc (existing_docs : list IndexedDoc)
    (file_info : FilePatchInfo.t) : option IndexedDoc :=
  find (λ existing_doc,
          bool_decide (FilePatchInfo.filename file_info
                       = metadata_file_name existing_doc))
       existing_docs.

(** The file was deleted, and no document is listed for it. *)
Definition deleted_unlisted (existing_docs : list IndexedDoc)
    (file_info : FilePatchInfo.t) : bool :=
  match FilePatchInfo.edit_type file_info, first_doc existing_docs file_info
  with
  | DELETED, None => true
  | _, _ => false
  end.

(** For every deleted file, in order, the identifier of the first
    document that is listed for it. *)
Definition deleted_ids (existing_docs : list IndexedDoc)
    (diff_files : list FilePatchInfo.t) : list pystr :=
  omap (λ file_info,
          match FilePatchInfo.edit_type file_info with
          | DELETED => option_map doc_id (first_doc existing_docs file_info)
          | _ => None
          end) diff_files.

(** The document of a file with its content on the branch. *)
Definition document_of (w : Update) (branch : pystr)
    (file_info : FilePatchInfo.t) : Document :=
  with_language file_info
    (mkDocument
       (get_pr_file_content w (FilePatchInfo.filename file_info) branch)
       (FilePatchInfo.filename file_info) None None).

(** The documents of the files of the given kinds, in order. *)
Definition documents_of (w : Update) (branch : pystr)
    (kind : EDIT_TYPE → bool) (diff_files : list FilePatchInfo.t)
  : list Document :=
  map (document_of w branch)
      (filter (λ file_info, kind (FilePatchInfo.edit_type file_info) = true)
              diff_files).

Definition changed (edit_type : EDIT_TYPE) : bool :=
  match edit_type with
  | MODIFIED | RENAMED => true
  | _ => false
  end.

Definition added (edit_type : EDIT_TYPE) : bool :=
  match edit_type with
  | ADDED => true
  | _ => false
  end.

Definition removed (edit_type : EDIT_TYPE) : bool :=
  match edit_type with
  | DELETED => true
  | _ => false
  end.

(** One call with the list, or no call if the list is empty. *)
Definition call_if {A} (call : list A → Call) (l : list A) : list Call :=
  match l with
  | [] => []
  | _ => [call l]
  end.

End Rag.

(** ** Further examples *)

(** A directory with the file of the class [A] and a file that cannot be
    opened. *)
Definition class_env : Env :=
  mkEnv (λ _ _, [lit "a.py"; lit "b.py"])
        (λ file_path,
           if decide (file_path = lit "a.py") then Some class_source
           else None)
        (λ file_path, lit "/repo/" ++ file_path)
        (Some class_chunker).

(** A repository whose default branch has eleven blobs and a directory;
    the index does not exist yet, and the first call of [index_documents]
    raises. *)
Definition eleven_blobs : Rag.World :=
  Rag.mkWorld
    (Some (Rag.mkGitProvider (lit "org/repo") (lit "feat/x") (lit "main")))
    (Some [lit "other_index"])
    true
    (Rag.mkTreeEntry (lit "tree") (lit "src") (lit "t0")
     :: map (λ i, Rag.mkTreeEntry (lit "blob") [N.of_nat i] [N.of_nat i])
            (seq 65 11))
    (λ sha, Some sha)
    (λ n, Nat.eqb n 0).

(** A pull request that edits one file, adds one and deletes two; the
    index lists a document for one of the deleted files only. *)
Definition four_files : Rag.Update :=
  Rag.mkUpdate
    (Some (Rag.mkGitProvider (lit "org/repo") (lit "feat/x") (lit "main")))
    [ Rag.FilePatchInfo.mk (lit "a.py") (lit "a = 1") (Some (lit "python"))
        Rag.MODIFIED;
      Rag.FilePatchInfo.mk (lit "b.txt") (lit "b") None Rag.ADDED;
      Rag.FilePatchInfo.mk (lit "c.py") [] (Some (lit "python")) Rag.DELETED;
      Rag.FilePatchInfo.mk (lit "d.py") [] (Some (lit "python")) Rag.DELETED ]
    (λ index_name file_name,
       if decide (file_name = lit "c.py")
       then [Rag.mkIndexedDoc (lit "doc-c") (lit "c.py")]
       else [])
    (λ file_name branch, lit "new " ++ file_name).

(** The same pull request without the deleted file that is not listed. *)
Definition three_files : Rag.Update :=
  Rag.mkUpdate (Rag.provider four_files)
               (take 3 (Rag.get_diff_files four_files))
               (Rag.list_documents four_files)
               (Rag.get_pr_file_content four_files).

(** * Properties *)

(** ** SHA-256 test vectors (FIPS 180-4, appendix) *)

Example sha256_constants :
  length SHA256.K = 64%nat
  ∧ head SHA256.K = Some 0x428a2f98 ∧ last SHA256.K = Some 0xc67178f2
  ∧ SHA256.sa SHA256.H0 = 0x6a09e667 ∧ SHA256.sh SHA256.H0 = 0x5be0cd19.
Proof. repeat split; reflexivity. Qed.

Example sha256_empty :
  sha256_hex [] =
  Ok (lit "e3b0c44298fc1c149afbf4c8996fb92427ae41e4649b934ca495991b7852b855").
Proof. vm_compute. reflexivity. Qed.

Example sha256_abc :
  sha256_hex (lit "abc") =
  Ok (lit "ba7816bf8f01cfea414140de5dae2223b00361a396177a9cb410ff61f20015ad").
Proof. vm_compute. reflexivity. Qed.

Example sha256_two_blocks :
  sha256_hex
    (lit "abcdbcdecdefdefgefghfghighijhijkijkljklmklmnlmnomnopnopq") =
  Ok (lit "248d6a61d20638b8e5c026930c3e6039a33ce45964ff2167f6ecedd419db06c1").
Proof. vm_compute. reflexivity. Qed.

(** ** [split] and [join] *)

Section Split.
Variable sep : N.

Lemma split_not_nil s : split sep s ≠ [].
Proof.
  destruct s as [|c s]; simpl; [done|].
  destruct (c =? sep); [done|]. by destruct (split sep s).
Qed.

Lemma join_cons_cons (x y : pystr) l :
  join [sep] (x :: y :: l) = x ++ sep :: join [sep] (y :: l).
Proof. done. Qed.

Lemma join_split s : join [sep] (split sep s) = s.
Proof.
  induction s as [|c s IH]; [done|]. simpl split.
  pose proof (split_not_nil s) as Hnil.
  destruct (N.eqb_spec c sep) as [->|Hne];
    destruct (split sep s) as [|y l]; try done.
  - by rewrite join_cons_cons, IH.
  - destruct l as [|z l]; [simpl in *; by rewrite IH|].
    rewrite join_cons_cons in *. by rewrite <- IH.
Qed.

Lemma split_no_sep s : Forall (λ piece, sep ∉ piece) (split sep s).
Proof.
  induction s as [|c s IH]; simpl.
  - repeat constructor. by intros ?%elem_of_nil.
  - destruct (N.eqb_spec c sep) as [->|Hne].
    + constructor; [by intros ?%elem_of_nil | done].
    + destruct (split sep s) as [|y l]; inversion IH; subst.
      * repeat constructor. by intros [->|?%elem_of_nil]%elem_of_cons.
      * constructor; [|done]. by intros [->|?]%elem_of_cons.
Qed.

Lemma split_piece piece :
  sep ∉ piece → split sep piece = [piece].
Proof.
  induction piece as [|c piece IH]; intros Hin; [done|]. simpl.
  destruct (N.eqb_spec c sep) as [->|Hne].
  - exfalso. apply Hin. by left.
  - rewrite IH; [done|]. intros ?. apply Hin. by right.
Qed.

Lemma split_piece_sep piece rest :
  sep ∉ piece →
  split sep (piece ++ sep :: rest) = piece :: split sep rest.
Proof.
  induction piece as [|c piece IH]; intros Hin; simpl.
  - by rewrite N.eqb_refl.
  - destruct (N.eqb_spec c sep) as [->|Hne].
    + exfalso. apply Hin. by left.
    + rewrite IH; [done|]. intros ?. apply Hin. by right.
Qed.

(** The pieces are determined by the string. *)
Lemma split_join pieces :
  pieces ≠ [] → Forall (λ piece, sep ∉ piece) pieces →
  split sep (join [sep] pieces) = pieces.
Proof.
  induction pieces as [|x l IH]; intros Hnil Hall; [done|].
  inversion Hall as [|? ? Hx Hl]; subst.
  destruct l as [|y l].
  - simpl. by apply split_piece.
  - rewrite join_cons_cons, split_piece_sep by done.
    f_equal. by apply IH.
Qed.
End Split.

Lemma lines_of_split text : lines_of text (split NL text).
Proof.
  split; [apply split_not_nil|]. split; [apply split_no_sep|apply join_split].
Qed.

Lemma lines_of_unique text ls : lines_of text ls → ls = split NL text.
Proof. intros (Hnil & Hall & <-). symmetry. by apply split_join. Qed.

(** ** [strip] *)

Lemma lstrip_whitespace pre s : whitespace pre → lstrip (pre ++ s) = lstrip s.
Proof.
  induction 1 as [|c pre Hc _ IH]; [done|]. simpl. by rewrite Hc.
Qed.

Lemma lstrip_head s c : head s = Some c → isspace c = false → lstrip s = s.
Proof. destruct s; simpl; [done|]. by intros [= ->] ->. Qed.

Lemma lstrip_split s :
  ∃ pre, s = pre ++ lstrip s ∧ whitespace pre
         ∧ ∀ c, head (lstrip s) = Some c → isspace c = false.
Proof.
  induction s as [|c s (pre & Heq & Hpre & Hhd)]; simpl.
  - exists []. repeat split; [constructor | done].
  - destruct (isspace c) eqn:Hc.
    + exists (c :: pre). repeat split; [by rewrite Heq at 1 | by constructor | done].
    + exists []. repeat split; [constructor|]. by intros ? [= <-].
Qed.

Lemma head_rev {A} (l : list A) : head (rev l) = last l.
Proof.
  induction l as [|x l IH] using rev_ind; [done|].
  by rewrite rev_app_distr, last_snoc.
Qed.

Lemma last_rev {A} (l : list A) : last (rev l) = head l.
Proof. by rewrite <- head_rev, rev_involutive. Qed.

Lemma whitespace_rev s : whitespace s → whitespace (rev s).
Proof.
  unfold whitespace. rewrite !Forall_forall. intros H c Hc.
  apply H. by apply list_elem_of_In, in_rev, list_elem_of_In.
Qed.

Lemma head_lstrip_rstrip s c :
  head (rstrip (lstrip s)) = Some c → isspace c = false.
Proof.
  destruct (lstrip_split s) as (pre & _ & _ & Hhd).
  unfold rstrip. intros Hc.
  destruct (lstrip_split (rev (lstrip s))) as (post & Heq & _ & _).
  apply (f_equal (@rev N)) in Heq. rewrite rev_involutive, rev_app_distr in Heq.
  destruct (rev (lstrip (rev (lstrip s)))) as [|x l]; [done|].
  simpl in Hc. injection Hc as ->. apply Hhd. by rewrite Heq.
Qed.

Lemma strip_stripped line : stripped_of line (strip line).
Proof.
  unfold strip. destruct (lstrip_split line) as (pre & Heq & Hpre & Hhd).
  destruct (lstrip_split (rev (lstrip line))) as (post & Heq' & Hpost & Hhd').
  exists pre, (rev post). repeat split.
  - rewrite Heq at 1. f_equal. unfold rstrip.
    rewrite <- rev_app_distr, <- Heq'. by rewrite rev_involutive.
  - done.
  - by apply whitespace_rev.
  - apply head_lstrip_rstrip.
  - unfold rstrip. intros c. rewrite last_rev. apply Hhd'.
Qed.

Lemma stripped_unique line s : stripped_of line s → s = strip line.
Proof.
  intros (pre & post & -> & Hpre & Hpost & Hhd & Hlast).
  unfold strip. rewrite lstrip_whitespace by done.
  destruct s as [|c s].
  - simpl. replace (lstrip post) with (@nil N).
    + done.
    + symmetry. rewrite <- (app_nil_r post). by rewrite lstrip_whitespace.
  - rewrite (lstrip_head _ c) by (simpl; auto).
    unfold rstrip. rewrite rev_app_distr.
    rewrite lstrip_whitespace by by apply whitespace_rev.
    destruct (last (c :: s)) as [d|] eqn:Hd.
    + rewrite (lstrip_head _ d); [by rewrite rev_involutive | by rewrite head_rev | auto].
    + by apply last_None in Hd.
Qed.

(** ** [normalize_code] *)

Lemma filter_truthy (ss : list pystr) :
  filter (λ line, truthy line = true) ss = filter (λ s, s ≠ []) ss.
Proof. apply list_filter_iff. intros [|c s]; simpl; split; done. Qed.

Lemma Forall2_stripped_unique ls ss :
  Forall2 stripped_of ls ss → ss = map strip ls.
Proof.
  induction 1 as [|l s ls ss Hs _ IH]; [done|].
  simpl. f_equal; [by apply stripped_unique | done].
Qed.

Lemma normalize_code_normalized text : normalized_of text (normalize_code text).
Proof.
  exists (split NL text), (map strip (split NL text)).
  split; [apply lines_of_split|]. split.
  - apply Forall2_fmap_r, Forall_Forall2_diag, Forall_forall.
    intros l _. apply strip_stripped.
  - unfold normalize_code. by rewrite filter_truthy.
Qed.

Lemma normalized_unique text n : normalized_of text n → n = normalize_code text.
Proof.
  intros (ls & ss & Hls & Hss & ->).
  apply lines_of_unique in Hls as ->.
  apply Forall2_stripped_unique in Hss as ->.
  unfold normalize_code. by rewrite filter_truthy.
Qed.

(** ** [encode] and [decode] *)

Lemma rbind_Ok {A B} (r : result A) (k : A → result B) b :
  rbind r k = Ok b ↔ ∃ a, r = Ok a ∧ k a = Ok b.
Proof.
  destruct r; simpl; split; try done.
  - eauto.
  - by intros (? & [= <-] & ?).
  - by intros (? & ? & ?).
Qed.

Lemma encode_char_scalar c :
  scalar c = true → ∃ bs, encode_char c = Ok bs ∧ Forall (λ b, b < 256) bs.
Proof.
  unfold scalar, encode_char. intros Hc.
  cases_N; simpl in *; try done; try lia;
    (eexists; split; [done|]; repeat constructor; euclid).
Qed.

Lemma encode_char_not_scalar c :
  scalar c = false → encode_char c = Raise UnicodeEncodeError.
Proof.
  unfold scalar, encode_char. intros Hc.
  cases_N; simpl in *; try done; lia.
Qed.

Lemma encode_encodable s :
  encodable s = true → ∃ bs, encode s = Ok bs.
Proof.
  induction s as [|c s IH]; simpl; [by eexists|].
  intros [Hc Hs]%andb_prop.
  destruct (encode_char_scalar c Hc) as (b & -> & _).
  destruct (IH Hs) as (bs & ->). by eexists.
Qed.

Lemma encode_not_encodable s :
  encodable s = false → encode s = Raise UnicodeEncodeError.
Proof.
  induction s as [|c s IH]; simpl; [done|].
  destruct (scalar c) eqn:Hc; simpl.
  - intros Hs. destruct (encode_char_scalar c Hc) as (b & -> & _).
    simpl. by rewrite IH.
  - intros _. by rewrite encode_char_not_scalar.
Qed.

Lemma encode_Ok_encodable s bs : encode s = Ok bs → encodable s = true.
Proof.
  intros H. destruct (encodable s) eqn:Hs; [done|].
  by rewrite encode_not_encodable in H.
Qed.

Lemma encodable_app s1 s2 :
  encodable (s1 ++ s2) = encodable s1 && encodable s2.
Proof. apply forallb_app. Qed.

Lemma encodable_concat ss :
  Forall (λ s, encodable s = true) ss → encodable (concat ss) = true.
Proof.
  induction 1 as [|s ss Hs _ IH]; [done|].
  simpl. by rewrite encodable_app, Hs, IH.
Qed.

(** Every failure of [sha256_hex] is a failure of [encode]. *)
Lemma sha256_hex_encodable s :
  encodable s = true → ∃ bs, encode s = Ok bs ∧ sha256_hex s = Ok (SHA256.hexdigest bs).
Proof.
  intros (bs & Hbs)%encode_encodable. exists bs. split; [done|].
  unfold sha256_hex. by rewrite Hbs.
Qed.

Lemma sha256_hex_not_encodable s :
  encodable s = false → sha256_hex s = Raise UnicodeEncodeError.
Proof. intros H. unfold sha256_hex. by rewrite encode_not_encodable. Qed.

(** ** [hexdigest] *)

Lemma hex_digit_lower d : d < 16 → lower_hex (SHA256.hex_digit d).
Proof. unfold lower_hex, SHA256.hex_digit. intros. cases_N; lia. Qed.

Lemma hex_value_digit d : d < 16 → hex_value (SHA256.hex_digit d) = d.
Proof. unfold hex_value, SHA256.hex_digit. intros. cases_N; lia. Qed.

Lemma hex_of_bytes bs :
  Forall (λ b, b < 256) bs → hex_of bs (concat (map SHA256.hex_byte bs)).
Proof.
  induction 1 as [|b bs Hb _ [IH1 IH2]]; [by split|].
  assert (b / 16 mod 16 = b / 16) as Hhi by (apply N.mod_small; euclid).
  split; simpl.
  - apply Forall_cons_2; [apply hex_digit_lower; euclid|].
    apply Forall_cons_2; [apply hex_digit_lower; euclid|done].
  - rewrite IH2, !hex_value_digit, Hhi by euclid. done.
Qed.

Lemma digest_bytes msg : Forall (λ b, b < 256) (SHA256.digest msg).
Proof.
  unfold SHA256.digest. apply Forall_concat, Forall_fmap, Forall_forall.
  intros w _. unfold SHA256.be_bytes. apply Forall_fmap, Forall_forall.
  intros i _. simpl. apply N.mod_lt. lia.
Qed.

Lemma digest_length msg : length (SHA256.digest msg) = 32%nat.
Proof. reflexivity. Qed.

Lemma hexdigest_hex_of msg : hex_of (SHA256.digest msg) (SHA256.hexdigest msg).
Proof. apply hex_of_bytes, digest_bytes. Qed.

Lemma hexdigest_length msg : length (SHA256.hexdigest msg) = 64%nat.
Proof. reflexivity. Qed.

Lemma lower_hex_scalar c : lower_hex c → scalar c = true.
Proof. unfold lower_hex, scalar. intros. cases_N; simpl; try done; lia. Qed.

Lemma hexdigest_encodable msg : encodable (SHA256.hexdigest msg) = true.
Proof.
  apply forallb_forall. intros c Hc%list_elem_of_In.
  apply lower_hex_scalar.
  destruct (hexdigest_hex_of msg) as [Hall _].
  by eapply Forall_forall in Hall.
Qed.

Lemma encode_app s1 s2 :
  encode (s1 ++ s2) =
  rbind (encode s1) (λ b1, rbind (encode s2) (λ b2, Ok (b1 ++ b2))).
Proof.
  induction s1 as [|c s1 IH]; simpl.
  - by destruct (encode s2).
  - destruct (encode_char c) as [b|]; simpl; [|done].
    rewrite IH. destruct (encode s1) as [b1|]; simpl; [|done].
    destruct (encode s2) as [b2|]; simpl; [|done].
    by rewrite app_assoc.
Qed.

Lemma decode_cons b0 bs1 :
  decode (b0 :: bs1) =
  if b0 <? 0x80 then rmap (cons b0) (decode bs1)
  else if b0 <? 0xC0 then Raise UnicodeDecodeError
  else if b0 <? 0xE0 then
    match bs1 with
    | b1 :: bs2 =>
        let c := (b0 - 0xC0) * 64 + (b1 - 0x80) in
        if is_cont b1 && (0x80 <=? c) then rmap (cons c) (decode bs2)
        else Raise UnicodeDecodeError
    | _ => Raise UnicodeDecodeError
    end
  else if b0 <? 0xF0 then
    match bs1 with
    | b1 :: b2 :: bs3 =>
        let c := ((b0 - 0xE0) * 64 + (b1 - 0x80)) * 64 + (b2 - 0x80) in
        if is_cont b1 && is_cont b2 && (0x800 <=? c) && negb (is_surrogate c)
        then rmap (cons c) (decode bs3)
        else Raise UnicodeDecodeError
    | _ => Raise UnicodeDecodeError
    end
  else if b0 <? 0xF8 then
    match bs1 with
    | b1 :: b2 :: b3 :: bs4 =>
        let c := (((b0 - 0xF0) * 64 + (b1 - 0x80)) * 64 + (b2 - 0x80))
                 * 64 + (b3 - 0x80) in
        if is_cont b1 && is_cont b2 && is_cont b3
           && (0x10000 <=? c) && (c <? 0x110000)
        then rmap (cons c) (decode bs4)
        else Raise UnicodeDecodeError
    | _ => Raise UnicodeDecodeError
    end
  else Raise UnicodeDecodeError.
Proof. reflexivity. Qed.

Lemma utf8_value_2 c :
  (192 + c / 64 - 192) * 64 + (128 + c mod 64 - 128) = c.
Proof. euclid. Qed.

Lemma utf8_value_3 c :
  ((224 + c / 4096 - 224) * 64 + (128 + (c / 64) mod 64 - 128)) * 64
  + (128 + c mod 64 - 128) = c.
Proof.
  pose proof (N.Div0.div_div c 64 64) as Hdd.
  change (64 * 64) with 4096 in Hdd. rewrite <- Hdd. euclid.
Qed.

Lemma utf8_value_4 c :
  (((240 + c / 262144 - 240) * 64 + (128 + (c / 4096) mod 64 - 128)) * 64
   + (128 + (c / 64) mod 64 - 128)) * 64 + (128 + c mod 64 - 128) = c.
Proof.
  pose proof (N.Div0.div_div c 64 64) as Hdd.
  change (64 * 64) with 4096 in Hdd.
  pose proof (N.Div0.div_div c 4096 64) as Hdd'.
  change (4096 * 64) with 262144 in Hdd'.
  rewrite <- Hdd', <- Hdd. euclid.
Qed.

(** Decoding consumes exactly the bytes that encoding one character wrote. *)
Lemma decode_encode_char c bs rest :
  encode_char c = Ok bs →
  decode (bs ++ rest) = rmap (cons c) (decode rest).
Proof.
  unfold encode_char.
  destruct (N.ltb_spec c 0x80); [|destruct (N.ltb_spec c 0x800);
    [|destruct (N.ltb_spec c 0x10000);
      [destruct (N.leb_spec 0xD800 c); destruct (N.leb_spec c 0xDFFF)
      |destruct (N.ltb_spec c 0x110000)]]];
    simpl; try done; intros [= <-]; simpl app; rewrite decode_cons;
    unfold is_cont, is_surrogate; cbv beta iota zeta;
    rewrite ?utf8_value_2, ?utf8_value_3, ?utf8_value_4;
    try (exfalso; lia); settle_tests; done.
Qed.

Lemma decode_encode s bs : encode s = Ok bs → decode bs = Ok s.
Proof.
  revert bs. induction s as [|c s IH]; simpl; intros bs.
  - by intros [= <-].
  - intros (b & Hb & (bs' & Hbs' & [= <-])%rbind_Ok)%rbind_Ok.
    rewrite (decode_encode_char c b bs' Hb). by rewrite (IH bs' Hbs').
Qed.

(** ** [doc_id] *)

Lemma doc_id_unfold c :
  doc_id c =
  rbind (encode (normalize_code (code_string c)))
        (λ bs, Ok (path c ++ lit "__" ++ SHA256.hexdigest bs)).
Proof.
  unfold doc_id, sha256_hex, rmap.
  by destruct (encode (normalize_code (code_string c))).
Qed.

Lemma doc_id_Ok c id :
  doc_id c = Ok id →
  ∃ bs, encode (normalize_code (code_string c)) = Ok bs
        ∧ id = path c ++ lit "__" ++ SHA256.hexdigest bs.
Proof.
  rewrite doc_id_unfold. intros (bs & Hbs & [= <-])%rbind_Ok. eauto.
Qed.

Lemma doc_id_encodable c :
  encodable (normalize_code (code_string c)) = true →
  ∃ bs, doc_id c = Ok (path c ++ lit "__" ++ SHA256.hexdigest bs).
Proof.
  intros (bs & Hbs)%encode_encodable. exists bs.
  by rewrite doc_id_unfold, Hbs.
Qed.

Lemma doc_id_not_encodable c :
  encodable (normalize_code (code_string c)) = false →
  doc_id c = Raise UnicodeEncodeError.
Proof. intros H. by rewrite doc_id_unfold, encode_not_encodable. Qed.

Lemma doc_id_Raise c e : doc_id c = Raise e → e = UnicodeEncodeError.
Proof.
  destruct (encodable (normalize_code (code_string c))) eqn:H.
  - destruct (doc_id_encodable c H) as (bs & ->). done.
  - rewrite doc_id_not_encodable by done. by intros [= <-].
Qed.

(** The identifier determines the path: the digest part has a fixed width. *)
Lemma doc_id_path c1 c2 id :
  doc_id c1 = Ok id → doc_id c2 = Ok id → path c1 = path c2.
Proof.
  intros (b1 & _ & ->)%doc_id_Ok (b2 & _ & Heq)%doc_id_Ok.
  by apply app_inj_2 in Heq as [? _].
Qed.

(** ** The grouping by path *)

Lemma group_chunk_append_to d chunk : group_chunk d chunk = append_to chunk d.
Proof.
  unfold group_chunk. induction d as [|[k v] d IH]; simpl.
  - by rewrite !decide_True.
  - destruct (decide (k = path chunk)) as [->|Hne]; simpl.
    + by rewrite !decide_True.
    + rewrite <- IH. clear IH.
      destruct (Dict.mem (path chunk) d); simpl;
        rewrite ?decide_False by done;
        destruct (Dict.get (path chunk) _); simpl;
        by rewrite ?decide_False by done.
Qed.

Lemma group_by_path_snoc chunks chunk :
  group_by_path (chunks ++ [chunk]) = append_to chunk (group_by_path chunks).
Proof.
  unfold group_by_path. by rewrite fold_left_app, <- group_chunk_append_to.
Qed.

Lemma append_to_perm chunk d :
  concat (map snd (append_to chunk d)) ≡ₚ concat (map snd d) ++ [chunk].
Proof.
  induction d as [|[k v] d IH]; simpl; [done|].
  destruct (decide (k = path chunk)); simpl.
  - rewrite <- !app_assoc. apply Permutation_app_head, Permutation_app_comm.
  - by rewrite IH, app_assoc.
Qed.

(** The groups hold the chunks, each one once. *)
Lemma group_by_path_perm chunks :
  concat (map snd (group_by_path chunks)) ≡ₚ chunks.
Proof.
  induction chunks as [|chunk chunks IH] using rev_ind; [done|].
  by rewrite group_by_path_snoc, append_to_perm, IH.
Qed.

Lemma append_to_ok chunk d :
  Forall group_ok d → Forall group_ok (append_to chunk d).
Proof.
  induction 1 as [|[k v] d [Hv Hk] Hd IH]; simpl.
  - apply Forall_singleton. split; simpl; [done|]. by apply Forall_singleton.
  - destruct (decide (k = path chunk)) as [->|Hne].
    + apply Forall_cons_2; [|done]. split; simpl in *; [by destruct v|].
      apply Forall_app; split; [done|]. by apply Forall_singleton.
    + apply Forall_cons_2; [by split | done].
Qed.

Lemma group_by_path_ok chunks : Forall group_ok (group_by_path chunks).
Proof.
  induction chunks as [|chunk chunks IH] using rev_ind; [constructor|].
  rewrite group_by_path_snoc. by apply append_to_ok.
Qed.

Lemma append_to_keys chunk d :
  map fst (append_to chunk d) =
  if decide (path chunk ∈ map fst d) then map fst d
  else map fst d ++ [path chunk].
Proof.
  induction d as [|[k v] d IH].
  - simpl map. case_decide as Hin; [by apply elem_of_nil in Hin | done].
  - simpl append_to. simpl map.
    destruct (decide (k = path chunk)) as [->|Hne]; simpl map.
    + clear IH. case_decide as Hn; [done|]. exfalso. apply Hn. by left.
    + rewrite IH. clear IH.
      destruct (decide (path chunk ∈ map fst d)) as [Hin|Hin];
        destruct (decide (path chunk ∈ k :: map fst d)) as [Hin'|Hin'];
        try done.
      * exfalso. apply Hin'. by right.
      * by apply elem_of_cons in Hin' as [?|?].
Qed.

(** The paths of the groups are pairwise distinct. *)
Lemma group_by_path_NoDup chunks : NoDup (map fst (group_by_path chunks)).
Proof.
  induction chunks as [|chunk chunks IH] using rev_ind; [constructor|].
  rewrite group_by_path_snoc, append_to_keys.
  destruct (decide _); [done|].
  apply NoDup_app. split; [done|]. split; [|apply NoDup_singleton].
  by intros x Hx ->%list_elem_of_singleton.
Qed.

(** Chunks of one path form one group, in their order. *)
Lemma group_by_path_one_path p chunks :
  chunks ≠ [] → Forall (λ chunk, path chunk = p) chunks →
  group_by_path chunks = [(p, chunks)].
Proof.
  induction chunks as [|chunk chunks IH] using rev_ind; [done|].
  intros _ [Hall Hc]%Forall_app.
  apply (proj1 (Forall_singleton _ _)) in Hc. simpl in Hc.
  rewrite group_by_path_snoc. destruct chunks as [|c0 chunks].
  - simpl. by rewrite Hc.
  - rewrite IH by done. simpl. by rewrite decide_True.
Qed.

(** ** The store *)

Lemma M_bind_unfold {A B} (m : M A) (k : A → M B) σ :
  (m ≫= k) σ =
  match m σ with
  | (σ', Ok a) => k a σ'
  | (σ', Raise e) => (σ', Raise e)
  end.
Proof. reflexivity. Qed.

Lemma tree_eta t : mkMerkleTree (root t) (chunk_nodes t) = t.
Proof. by destruct t. Qed.

Lemma grown_refl self σ : grown self σ σ.
Proof.
  split; [done|]. split; [done|]. intros t Ht. exists t. by repeat split.
Qed.

Lemma grown_trans self σ1 σ2 σ3 :
  grown self σ1 σ2 → grown self σ2 σ3 → grown self σ1 σ3.
Proof.
  intros (Hlen & Hother & Hself) (Hlen' & Hother' & Hself').
  split; [congruence|]. split.
  - intros r Hr. by rewrite Hother', Hother.
  - intros t (t' & Ht' & Hroot & Hdom)%Hself.
    destruct (Hself' t' Ht') as (t'' & Ht'' & Hroot' & Hdom').
    exists t''. split; [done|]. split; [congruence|set_solver].
Qed.

Lemma grown_insert (self : ref) (σ : store) t t' :
  σ !! self = Some t → root t' = root t →
  dom (chunk_nodes t) ⊆ dom (chunk_nodes t') →
  grown self σ (<[self := t']> σ).
Proof.
  intros Ht Hroot Hdom. split; [apply length_insert|]. split.
  - intros r Hr. by apply list_lookup_insert_ne.
  - intros t0 Ht0. exists t'. rewrite Ht in Ht0. injection Ht0 as <-.
    split; [|done]. apply list_lookup_insert_eq. by eapply lookup_lt_Some.
Qed.

Lemma insert_self (σ : store) t t' (self : ref) :
  σ !! self = Some t → <[self := t']> σ !! self = Some t'.
Proof. intros Ht. apply list_lookup_insert_eq. by eapply lookup_lt_Some. Qed.

Lemma for_each_cons {A B} (body : B → A → M B) x l acc σ :
  for_each body (x :: l) acc σ =
  match body acc x σ with
  | (σ', Ok acc') => for_each body l acc' σ'
  | (σ', Raise e) => (σ', Raise e)
  end.
Proof. reflexivity. Qed.

(** ** The two loops of [build_from_chunks] *)

Section Build.
Variable self : ref.

Lemma add_leaf_Ok (σ : store) t acc chunk id :
  σ !! self = Some t → doc_id chunk = Ok id →
  add_leaf self acc chunk σ =
  (<[self := mkMerkleTree (root t)
               (<[id := mkMerkleNode id []]> (chunk_nodes t))]> σ,
   Ok (acc ++ [mkMerkleNode id []])).
Proof.
  intros Ht Hid.
  unfold add_leaf, mbind, M_bind, lift, set_chunk_node, mret, M_ret.
  by rewrite Hid, Ht.
Qed.

Lemma add_leaf_Raise (σ : store) acc chunk e :
  doc_id chunk = Raise e → add_leaf self acc chunk σ = (σ, Raise e).
Proof. intros Hid. unfold add_leaf, mbind, M_bind, lift. by rewrite Hid. Qed.

Lemma leaves_loop_Ok chunks : ∀ leaves acc (σ : store) t,
  σ !! self = Some t → rmapM leaf_of chunks = Ok leaves →
  for_each (add_leaf self) chunks acc σ =
  (<[self := mkMerkleTree (root t)
               (add_leaves leaves (chunk_nodes t))]> σ,
   Ok (acc ++ leaves)).
Proof.
  induction chunks as [|chunk chunks IH]; intros leaves acc σ t Ht.
  - intros [= <-]. simpl. unfold add_leaves. simpl.
    by rewrite tree_eta, app_nil_r, list_insert_id.
  - simpl rmapM. unfold leaf_of at 1, rmap.
    intros (leaf & (id & Hid & [= <-])%rbind_Ok
                 & (ls & Hls & [= <-])%rbind_Ok)%rbind_Ok.
    rewrite for_each_cons, (add_leaf_Ok σ t acc chunk id Ht Hid).
    erewrite IH; [|by eapply insert_self|done].
    by rewrite list_insert_insert_eq, <- app_assoc.
Qed.

Lemma leaves_loop_Raise chunks : ∀ e acc (σ : store) t,
  σ !! self = Some t → rmapM leaf_of chunks = Raise e →
  ∃ σ', for_each (add_leaf self) chunks acc σ = (σ', Raise e)
        ∧ grown self σ σ'.
Proof.
  induction chunks as [|chunk chunks IH]; intros e acc σ t Ht; [done|].
  simpl rmapM. unfold leaf_of at 1, rmap. rewrite for_each_cons.
  destruct (doc_id chunk) as [id|e'] eqn:Hid; simpl.
  - rewrite (add_leaf_Ok σ t acc chunk id Ht Hid).
    destruct (rmapM leaf_of chunks) as [ls|e'] eqn:Hls; [done|].
    intros [= ->].
    edestruct IH as (σ' & -> & Hg); [by eapply insert_self|done|].
    exists σ'. split; [done|]. eapply grown_trans; [|done].
    eapply grown_insert; [done..|]. simpl. rewrite dom_insert_L. set_solver.
  - intros [= ->]. rewrite (add_leaf_Raise σ acc chunk e Hid).
    exists σ. split; [done|apply grown_refl].
Qed.

Lemma add_leaves_app l1 l2 index :
  add_leaves (l1 ++ l2) index = add_leaves l2 (add_leaves l1 index).
Proof. apply fold_left_app. Qed.

Lemma dom_add_leaves leaves index :
  dom (add_leaves leaves index) =
  dom index ∪ list_to_set (map hash_value leaves).
Proof.
  revert index. induction leaves as [|leaf leaves IH]; intros index; simpl.
  - set_solver.
  - unfold add_leaves in *. simpl. rewrite IH, dom_insert_L. set_solver.
Qed.

Lemma add_file_Ok (σ : store) t acc item node :
  σ !! self = Some t → file_node_of (snd item) = Ok node →
  add_file self acc item σ =
  (<[self := mkMerkleTree (root t)
               (add_leaves (children node) (chunk_nodes t))]> σ,
   Ok (acc ++ [node])).
Proof.
  intros Ht. unfold file_node_of.
  intros (leaves & Hleaves & (h & Hh & [= <-])%rbind_Ok)%rbind_Ok.
  unfold add_file. rewrite M_bind_unfold.
  rewrite (leaves_loop_Ok _ leaves [] σ t Ht Hleaves).
  rewrite M_bind_unfold. unfold lift. simpl. by rewrite Hh.
Qed.

Lemma add_file_Raise (σ : store) t acc item e :
  σ !! self = Some t → file_node_of (snd item) = Raise e →
  ∃ σ', add_file self acc item σ = (σ', Raise e) ∧ grown self σ σ'.
Proof.
  intros Ht. unfold file_node_of, add_file. rewrite M_bind_unfold.
  destruct (rmapM leaf_of (snd item)) as [leaves|e'] eqn:Hleaves; simpl.
  - rewrite (leaves_loop_Ok _ leaves [] σ t Ht Hleaves).
    rewrite M_bind_unfold. unfold lift. simpl.
    destruct (hash_children leaves) as [h|e']; [done|]. intros [= ->].
    eexists. split; [done|]. eapply grown_insert; [done..|]. simpl.
    rewrite dom_add_leaves. set_solver.
  - intros [= ->].
    destruct (leaves_loop_Raise _ e [] σ t Ht Hleaves) as (σ' & -> & Hg).
    by exists σ'.
Qed.

Lemma files_loop_Ok groups : ∀ file_nodes acc (σ : store) t,
  σ !! self = Some t →
  rmapM file_node_of (map snd groups) = Ok file_nodes →
  for_each (add_file self) groups acc σ =
  (<[self := mkMerkleTree (root t)
               (add_leaves (concat (map children file_nodes))
                           (chunk_nodes t))]> σ,
   Ok (acc ++ file_nodes)).
Proof.
  induction groups as [|item groups IH]; intros file_nodes acc σ t Ht.
  - intros [= <-]. simpl. unfold add_leaves. simpl.
    by rewrite tree_eta, app_nil_r, list_insert_id.
  - simpl rmapM.
    intros (node & Hnode & (fns & Hfns & [= <-])%rbind_Ok)%rbind_Ok.
    rewrite for_each_cons, (add_file_Ok σ t acc item node Ht Hnode).
    erewrite IH; [|by eapply insert_self|done].
    rewrite list_insert_insert_eq, <- app_assoc. simpl.
    by rewrite add_leaves_app.
Qed.

Lemma files_loop_Raise groups : ∀ e acc (σ : store) t,
  σ !! self = Some t →
  rmapM file_node_of (map snd groups) = Raise e →
  ∃ σ', for_each (add_file self) groups acc σ = (σ', Raise e)
        ∧ grown self σ σ'.
Proof.
  induction groups as [|item groups IH]; intros e acc σ t Ht; [done|].
  simpl rmapM. rewrite for_each_cons.
  destruct (file_node_of (snd item)) as [node|e'] eqn:Hnode; simpl.
  - rewrite (add_file_Ok σ t acc item node Ht Hnode).
    destruct (rmapM file_node_of (map snd groups)) as [ls|e'] eqn:Hls;
      [done|].
    intros [= ->].
    edestruct IH as (σ' & -> & Hg); [by eapply insert_self|done|].
    exists σ'. split; [done|]. eapply grown_trans; [|done].
    eapply grown_insert; [done..|]. simpl. rewrite dom_add_leaves.
    set_solver.
  - intros [= ->].
    destruct (add_file_Raise σ t acc item e Ht Hnode) as (σ' & -> & Hg).
    by exists σ'.
Qed.

(** [build_from_chunks] on an object of the store.  When the chunk list
    determines a root, the call returns [self], sets that root and enters
    the leaves into the index. *)
Lemma build_from_chunks_Ok chunks (σ : store) t r :
  σ !! self = Some t → built_root chunks = Ok r →
  build_from_chunks self chunks σ =
  (<[self := mkMerkleTree (Some r)
               (add_leaves (concat (map children (children r)))
                           (chunk_nodes t))]> σ,
   Ok self).
Proof.
  intros Ht. unfold built_root.
  intros (fns & Hfns & (h & Hh & [= <-])%rbind_Ok)%rbind_Ok.
  unfold build_from_chunks. rewrite M_bind_unfold.
  rewrite (files_loop_Ok _ fns [] σ t Ht Hfns).
  rewrite M_bind_unfold. unfold lift. simpl. rewrite Hh.
  rewrite M_bind_unfold. unfold set_root.
  rewrite (insert_self σ t _ self Ht). by rewrite list_insert_insert_eq.
Qed.

(** Otherwise it raises, and the object kept its root and the keys of its
    index; no other object changed. *)
Lemma build_from_chunks_Raise chunks (σ : store) t e :
  σ !! self = Some t → built_root chunks = Raise e →
  ∃ σ', build_from_chunks self chunks σ = (σ', Raise e)
        ∧ grown self σ σ'.
Proof.
  intros Ht. unfold built_root, build_from_chunks. rewrite M_bind_unfold.
  destruct (rmapM file_node_of _) as [fns|e'] eqn:Hfns; simpl.
  - rewrite (files_loop_Ok _ fns [] σ t Ht Hfns).
    rewrite M_bind_unfold. unfold lift. simpl.
    destruct (hash_children fns) as [h|e']; [done|]. intros [= ->].
    eexists. split; [done|]. eapply grown_insert; [done..|]. simpl.
    rewrite dom_add_leaves. set_solver.
  - intros [= ->].
    destruct (files_loop_Raise _ e [] σ t Ht Hfns) as (σ' & -> & Hg).
    by exists σ'.
Qed.
End Build.

(** ** The tree that a chunk list determines *)

Lemma rmapM_Forall2 {A B} (f : A → result B) l ys :
  rmapM f l = Ok ys ↔ Forall2 (λ x y, f x = Ok y) l ys.
Proof.
  revert ys. induction l as [|x l IH]; intros ys; simpl.
  - split; [intros [= <-]; constructor | by inversion 1].
  - rewrite rbind_Ok. split.
    + intros (y & Hy & (ys' & Hys' & [= <-])%rbind_Ok).
      constructor; [done|]. by apply IH.
    + inversion 1 as [|? y ? ys' Hy Hys']; subst.
      exists y. split; [done|]. apply rbind_Ok. exists ys'.
      split; [by apply IH | done].
Qed.

Lemma rmapM_total {A B} (f : A → result B) l :
  Forall (λ x, ∃ y, f x = Ok y) l → ∃ ys, rmapM f l = Ok ys.
Proof.
  induction 1 as [|x l [y Hy] _ [ys Hys]]; simpl; [by eexists|].
  rewrite Hy, Hys. by eexists.
Qed.

Lemma rmapM_Raise {A B} (f : A → result B) l e :
  rmapM f l = Raise e → ∃ x, x ∈ l ∧ f x = Raise e.
Proof.
  induction l as [|x l IH]; simpl; [done|].
  destruct (f x) as [y|e'] eqn:Hx; simpl.
  - destruct (rmapM f l) as [ys|e']; simpl; [done|]. intros [= ->].
    destruct IH as (x' & Hin & Hx'); [done|]. exists x'. split; [by right|done].
  - intros [= ->]. exists x. split; [by left|done].
Qed.

Lemma leaf_of_Ok chunk leaf :
  leaf_of chunk = Ok leaf ↔
  doc_id chunk = Ok (hash_value leaf) ∧ children leaf = [].
Proof.
  unfold leaf_of, rmap. rewrite rbind_Ok. split.
  - by intros (id & Hid & [= <-]).
  - intros [Hid Hch]. exists (hash_value leaf). split; [done|].
    destruct leaf; simpl in *. by subst.
Qed.

Lemma file_node_of_Ok file_chunks node :
  file_node_of file_chunks = Ok node ↔
  Forall2 (λ chunk leaf, leaf_of chunk = Ok leaf) file_chunks (children node)
  ∧ hash_children (children node) = Ok (hash_value node).
Proof.
  unfold file_node_of. rewrite rbind_Ok. split.
  - intros (leaves & Hleaves%rmapM_Forall2 & (h & Hh & [= <-])%rbind_Ok).
    done.
  - intros [Hleaves%rmapM_Forall2 Hh]. exists (children node).
    split; [done|]. rewrite Hh. simpl. by destruct node.
Qed.

Lemma built_root_Ok chunks r :
  built_root chunks = Ok r ↔
  Forall2 (λ item node, file_node_of (snd item) = Ok node)
          (group_by_path chunks) (children r)
  ∧ hash_children (children r) = Ok (hash_value r).
Proof.
  unfold built_root. rewrite rbind_Ok. split.
  - intros (fns & Hfns%rmapM_Forall2 & (h & Hh & [= <-])%rbind_Ok).
    split; [|done]. by apply Forall2_fmap_l in Hfns.
  - intros [Hfns Hh]. exists (children r). split.
    + by apply rmapM_Forall2, Forall2_fmap_l.
    + rewrite Hh. simpl. by destruct r.
Qed.

(** The leaf digests of a file node are the identifiers of its chunks. *)
Lemma file_node_leaf_ids file_chunks node :
  file_node_of file_chunks = Ok node →
  leaf_ids node = doc_ids file_chunks
  ∧ length (leaf_ids node) = length file_chunks.
Proof.
  intros [Hleaves _]%file_node_of_Ok. unfold leaf_ids, doc_ids.
  induction Hleaves as [|chunk leaf cs ls [Hid _]%leaf_of_Ok _ [IH1 IH2]];
    [done|].
  split; simpl; [rewrite Hid; simpl; by f_equal | by f_equal].
Qed.

Lemma doc_ids_app l1 l2 : doc_ids (l1 ++ l2) = doc_ids l1 ++ doc_ids l2.
Proof. apply omap_app. Qed.

Lemma doc_ids_perm l1 l2 : l1 ≡ₚ l2 → doc_ids l1 ≡ₚ doc_ids l2.
Proof. intros H. unfold doc_ids. by rewrite H. Qed.

(** The leaves of the tree, file by file, are the identifiers of the chunks
    in the order of the grouping: each chunk gives one leaf. *)
Lemma built_root_leaf_ids chunks r :
  built_root chunks = Ok r →
  concat (map leaf_ids (children r)) =
  doc_ids (concat (map snd (group_by_path chunks))).
Proof.
  intros [Hfns _]%built_root_Ok.
  induction Hfns as [|item node items nodes Hnode _ IH]; [done|].
  simpl. rewrite doc_ids_app, IH.
  by destruct (file_node_leaf_ids _ _ Hnode) as [-> _].
Qed.

Lemma built_root_leaf_ids_perm chunks r :
  built_root chunks = Ok r →
  concat (map leaf_ids (children r)) ≡ₚ doc_ids chunks.
Proof.
  intros ->%built_root_leaf_ids. apply doc_ids_perm, group_by_path_perm.
Qed.

Lemma leaf_ids_concat nodes :
  map hash_value (concat (map children nodes)) = concat (map leaf_ids nodes).
Proof.
  induction nodes as [|node nodes IH]; [done|].
  simpl. by rewrite map_app, IH.
Qed.

(** *** When the chunk list determines a tree *)

Lemma lit_sep_encodable : encodable (lit "__") = true.
Proof. reflexivity. Qed.

Lemma doc_id_Ok_encodable chunk id :
  encodable (path chunk) = true → doc_id chunk = Ok id →
  encodable id = true.
Proof.
  intros Hp (bs & _ & ->)%doc_id_Ok.
  by rewrite !encodable_app, Hp, lit_sep_encodable, hexdigest_encodable.
Qed.

Lemma hash_content_encodable s :
  encodable s = true →
  ∃ bs, hash_content s = Ok (SHA256.hexdigest bs).
Proof.
  intros (bs & _ & H)%sha256_hex_encodable. by exists bs.
Qed.

Lemma hash_children_Ok_encodable nodes h :
  hash_children nodes = Ok h → encodable h = true.
Proof.
  destruct nodes as [|n nodes]; simpl; [by intros [= <-]|].
  unfold hash_content, sha256_hex, rmap.
  intros (bs & _ & [= <-])%rbind_Ok. apply hexdigest_encodable.
Qed.

Lemma hash_children_encodable nodes :
  Forall (λ node, encodable (hash_value node) = true) nodes →
  ∃ h, hash_children nodes = Ok h.
Proof.
  intros Hall. destruct nodes as [|n nodes]; [by eexists|].
  unfold hash_children.
  destruct (hash_content_encodable (concat (map hash_value (n :: nodes))))
    as (bs & ->); [|by eexists].
  apply encodable_concat, Forall_fmap. by eapply Forall_impl.
Qed.

Lemma file_node_of_buildable file_chunks :
  buildable file_chunks = true → ∃ node, file_node_of file_chunks = Ok node.
Proof.
  intros Hb.
  assert (Forall (λ chunk, ∃ leaf, leaf_of chunk = Ok leaf
                          ∧ encodable (hash_value leaf) = true) file_chunks)
    as Hall.
  { apply Forall_forall. intros chunk Hin%list_elem_of_In.
    eapply forallb_forall in Hb; [|done].
    apply andb_prop in Hb as [Hp Ht].
    destruct (doc_id_encodable chunk Ht) as (bs & Hid).
    eexists (mkMerkleNode _ []). split.
    - apply leaf_of_Ok. simpl. by split.
    - simpl. by eapply doc_id_Ok_encodable. }
  destruct (rmapM_total leaf_of file_chunks) as (leaves & Hleaves).
  { eapply Forall_impl; [done|]. by intros ? (? & ? & _); eexists. }
  destruct (hash_children_encodable leaves) as (h & Hh).
  { apply rmapM_Forall2 in Hleaves. clear Hb.
    induction Hleaves as [|c l cs ls Hcl _ IH]; [constructor|].
    apply Forall_cons in Hall as [(l' & Hl' & Henc) Hall].
    constructor; [congruence | by apply IH]. }
  exists (mkMerkleNode h leaves). unfold file_node_of.
  by rewrite Hleaves; simpl; rewrite Hh.
Qed.

Lemma buildable_perm l1 l2 : l1 ≡ₚ l2 → buildable l1 = buildable l2.
Proof.
  intros H. apply eq_true_iff_eq. unfold buildable.
  rewrite !forallb_forall. by setoid_rewrite <- list_elem_of_In; setoid_rewrite H.
Qed.

Lemma buildable_app l1 l2 : buildable (l1 ++ l2) = buildable l1 && buildable l2.
Proof. apply forallb_app. Qed.

(** A buildable chunk list determines a root. *)
Lemma built_root_buildable chunks :
  buildable chunks = true → ∃ r, built_root chunks = Ok r.
Proof.
  intros Hb. rewrite <- (buildable_perm _ _ (group_by_path_perm chunks)) in Hb.
  destruct (rmapM_total file_node_of (map snd (group_by_path chunks)))
    as (fns & Hfns).
  { generalize dependent (group_by_path chunks). intros groups.
    induction groups as [|[p cs] groups IH]; simpl; [constructor|].
    rewrite buildable_app. intros [Hcs Hrest]%andb_prop.
    constructor; [by apply file_node_of_buildable | by apply IH]. }
  destruct (hash_children_encodable fns) as (h & Hh).
  { apply rmapM_Forall2 in Hfns. clear Hb.
    induction Hfns as [|cs node css nodes Hnode _ IH]; [constructor|].
    constructor; [|done].
    apply file_node_of_Ok in Hnode as [_ Hh].
    by eapply hash_children_Ok_encodable. }
  exists (mkMerkleNode h fns). unfold built_root.
  by rewrite Hfns; simpl; rewrite Hh.
Qed.

Lemma encodable_concat_inv ss :
  encodable (concat ss) = true → Forall (λ s, encodable s = true) ss.
Proof.
  induction ss as [|s ss IH]; simpl; [constructor|].
  rewrite encodable_app. intros [? ?]%andb_prop. constructor; auto.
Qed.

Lemma hash_content_Ok_encodable s h :
  hash_content s = Ok h → encodable s = true.
Proof.
  unfold hash_content, sha256_hex, rmap.
  intros (bs & Hbs & _)%rbind_Ok. by eapply encode_Ok_encodable.
Qed.

Lemma file_node_of_Ok_buildable p file_chunks node :
  group_ok (p, file_chunks) → file_node_of file_chunks = Ok node →
  buildable file_chunks = true.
Proof.
  intros [Hne Hp] [Hleaves Hh]%file_node_of_Ok. simpl in *.
  assert (encodable p = true) as Hpenc.
  { destruct Hleaves as [|chunk leaf cs ls [Hid _]%leaf_of_Ok _]; [done|].
    simpl in Hh. apply hash_content_Ok_encodable in Hh.
    simpl in Hh. rewrite encodable_app in Hh.
    apply andb_prop in Hh as [Hh _].
    apply doc_id_Ok in Hid as (bs & _ & Hid). rewrite Hid in Hh.
    rewrite encodable_app in Hh. apply andb_prop in Hh as [Hh _].
    apply Forall_cons in Hp as [<- _]. done. }
  clear Hh Hne. unfold buildable.
  induction Hleaves as [|chunk leaf cs ls [Hid _]%leaf_of_Ok _ IH]; [done|].
  apply Forall_cons in Hp as [Hc Hp]. simpl.
  rewrite Hc, Hpenc, (IH Hp), andb_true_r. simpl.
  apply doc_id_Ok in Hid as (bs & Hbs & _). by eapply encode_Ok_encodable.
Qed.

(** A chunk list determines a root only if it is buildable. *)
Lemma built_root_Ok_buildable chunks r :
  built_root chunks = Ok r → buildable chunks = true.
Proof.
  intros [Hfns _]%built_root_Ok.
  rewrite <- (buildable_perm _ _ (group_by_path_perm chunks)).
  pose proof (group_by_path_ok chunks) as Hok.
  induction Hfns as [|[p cs] node items nodes Hnode _ IH]; [done|].
  apply Forall_cons in Hok as [Hcs Hok]. simpl.
  rewrite buildable_app, (IH Hok), andb_true_r.
  by eapply file_node_of_Ok_buildable.
Qed.

Lemma hash_content_Raise s e : hash_content s = Raise e → e = UnicodeEncodeError.
Proof.
  unfold hash_content. destruct (encodable s) eqn:Hs.
  - by destruct (sha256_hex_encodable s Hs) as (bs & _ & ->).
  - rewrite sha256_hex_not_encodable by done. by intros [= <-].
Qed.

Lemma hash_children_Raise nodes e :
  hash_children nodes = Raise e → e = UnicodeEncodeError.
Proof. destruct nodes; [done|]. apply hash_content_Raise. Qed.

Lemma file_node_of_Raise file_chunks e :
  file_node_of file_chunks = Raise e → e = UnicodeEncodeError.
Proof.
  unfold file_node_of.
  destruct (rmapM leaf_of file_chunks) as [leaves|e'] eqn:Hleaves; simpl.
  - destruct (hash_children leaves) as [h|e'] eqn:Hh; [done|].
    intros [= ->]. by eapply hash_children_Raise.
  - intros [= ->]. apply rmapM_Raise in Hleaves as (chunk & _ & Hleaf).
    unfold leaf_of, rmap in Hleaf.
    destruct (doc_id chunk) as [id|e'] eqn:Hid; [done|].
    injection Hleaf as ->. by eapply doc_id_Raise.
Qed.

(** The only exception of a build is that of [str.encode()]. *)
Lemma built_root_Raise chunks e :
  built_root chunks = Raise e → e = UnicodeEncodeError.
Proof.
  unfold built_root.
  destruct (rmapM file_node_of _) as [fns|e'] eqn:Hfns; simpl.
  - destruct (hash_children fns) as [h|e'] eqn:Hh; [done|].
    intros [= ->]. by eapply hash_children_Raise.
  - intros [= ->]. apply rmapM_Raise in Hfns as (cs & _ & Hnode).
    by eapply file_node_of_Raise.
Qed.

Lemma built_root_not_buildable chunks :
  buildable chunks = false → built_root chunks = Raise UnicodeEncodeError.
Proof.
  intros Hb. destruct (built_root chunks) as [r|e] eqn:Hr.
  - apply built_root_Ok_buildable in Hr. congruence.
  - by apply built_root_Raise in Hr as ->.
Qed.

(** ** The dictionary by digest *)

Lemma by_hash_fold (nodes : list MerkleNode) (d : gmap pystr MerkleNode) :
  fold_left (λ d child, <[hash_value child := child]> d) nodes d =
  by_hash nodes ∪ d.
Proof.
  unfold by_hash. revert d.
  induction nodes as [|node nodes IH]; intros d; simpl.
  - by rewrite map_empty_union.
  - rewrite IH, (IH (<[_ := _]> ∅)).
    rewrite <- (assoc_L (∪)). f_equal.
    by rewrite insert_empty, <- insert_union_singleton_l.
Qed.

Lemma by_hash_cons node nodes :
  by_hash (node :: nodes) = by_hash nodes ∪ {[hash_value node := node]}.
Proof.
  unfold by_hash at 1. simpl. by rewrite by_hash_fold, insert_empty.
Qed.

Lemma dom_by_hash nodes :
  dom (by_hash nodes) = list_to_set (map hash_value nodes).
Proof.
  induction nodes as [|node nodes IH]; [done|].
  rewrite by_hash_cons, dom_union_L, dom_singleton_L, IH. set_solver.
Qed.

Lemma by_hash_lookup_hash nodes h node :
  by_hash nodes !! h = Some node → hash_value node = h.
Proof.
  induction nodes as [|n nodes IH]; [done|].
  rewrite by_hash_cons.
  intros [?|[_ [<- <-]%lookup_singleton_Some]]%lookup_union_Some_raw; auto.
Qed.

Lemma by_hash_lookup_None nodes h :
  h ∉ map hash_value nodes → by_hash nodes !! h = None.
Proof.
  intros Hh. apply not_elem_of_dom. rewrite dom_by_hash. set_solver.
Qed.

Lemma last_by_hash_lookup nodes node :
  node ∈ last_by_hash nodes →
  by_hash nodes !! hash_value node = Some node.
Proof.
  induction nodes as [|n nodes IH]; simpl; [by intros ?%elem_of_nil|].
  rewrite by_hash_cons. destruct (decide _) as [Hin|Hin].
  - intros Hn. apply lookup_union_Some_raw. left. by apply IH.
  - intros [->|Hn]%elem_of_cons; apply lookup_union_Some_raw.
    + right. split; [by apply by_hash_lookup_None|].
      by apply lookup_singleton_eq.
    + left. by apply IH.
Qed.

Lemma last_by_hash_hashes nodes h :
  h ∈ map hash_value (last_by_hash nodes) ↔ h ∈ map hash_value nodes.
Proof.
  induction nodes as [|n nodes IH]; simpl; [done|].
  destruct (decide _) as [Hin|Hin]; simpl; rewrite !elem_of_cons, ?IH.
  - split; [by right|]. by intros [->|?].
  - done.
Qed.

Lemma last_by_hash_NoDup nodes : NoDup (map hash_value (last_by_hash nodes)).
Proof.
  induction nodes as [|n nodes IH]; simpl; [constructor|].
  destruct (decide _) as [Hin|Hin]; [done|]. simpl.
  constructor; [|done]. by rewrite last_by_hash_hashes.
Qed.

Lemma only_in_hashes nodes others h :
  h ∈ map hash_value (only_in nodes others) ↔
  h ∈ map hash_value nodes ∧ h ∉ map hash_value others.
Proof.
  unfold only_in. rewrite <- (last_by_hash_hashes nodes h). split.
  - intros (node & -> & [Hnot Hin]%list_elem_of_filter)%list_elem_of_fmap.
    split; [|done]. apply list_elem_of_fmap. eauto.
  - intros [(node & -> & Hin)%list_elem_of_fmap Hnot].
    apply list_elem_of_fmap. exists node. split; [done|].
    by apply list_elem_of_filter.
Qed.

Lemma only_in_NoDup nodes others :
  NoDup (map hash_value (only_in nodes others)).
Proof.
  apply (sublist_NoDup _ (hash_value <$> last_by_hash nodes)).
  - apply last_by_hash_NoDup.
  - apply fmap_sublist, sublist_filter.
Qed.

Lemma changed_file_nodes_NoDup r1 r2 :
  NoDup (map hash_value (changed_file_nodes r1 r2)).
Proof.
  unfold changed_file_nodes. rewrite map_app. apply NoDup_app.
  split; [apply only_in_NoDup|]. split; [|apply only_in_NoDup].
  intros h [_ Hnot]%only_in_hashes [Hin _]%only_in_hashes. done.
Qed.

Lemma elem_of_sym_diff (a b : gset pystr) x :
  x ∈ sym_diff a b ↔ (x ∈ a ∧ x ∉ b) ∨ (x ∈ b ∧ x ∉ a).
Proof. unfold sym_diff. set_solver. Qed.

(** The digests that the first loop visits are those of the reported file
    nodes. *)
Lemma changed_file_hashes_perm r1 r2 :
  elements (sym_diff (dom (by_hash (children r1)))
                     (dom (by_hash (children r2))))
  ≡ₚ map hash_value (changed_file_nodes r1 r2).
Proof.
  apply NoDup_Permutation;
    [apply NoDup_elements | apply changed_file_nodes_NoDup |].
  intros h. rewrite elem_of_elements, elem_of_sym_diff, !dom_by_hash.
  rewrite !elem_of_list_to_set. unfold changed_file_nodes.
  rewrite map_app, elem_of_app, !only_in_hashes. done.
Qed.

Lemma leaves_for_changed r1 r2 node :
  node ∈ changed_file_nodes r1 r2 →
  leaves_for (by_hash (children r1)) (by_hash (children r2))
             (hash_value node) = leaf_ids node.
Proof.
  unfold changed_file_nodes, only_in, leaves_for.
  intros [[Hnot Hin]%list_elem_of_filter|[Hnot Hin]%list_elem_of_filter]%elem_of_app.
  - by rewrite (last_by_hash_lookup _ _ Hin).
  - rewrite (by_hash_lookup_None _ _ Hnot).
    by rewrite (last_by_hash_lookup _ _ Hin).
Qed.

(** ** The two loops of [compare] *)

Lemma changed_loop s o hashes acc :
  fold_left (add_changed_file s o) hashes acc =
  acc ++ concat (map (leaves_for s o) hashes).
Proof.
  revert acc. induction hashes as [|h hashes IH]; intros acc; simpl.
  - by rewrite app_nil_r.
  - rewrite IH, app_assoc. f_equal. unfold add_changed_file, leaves_for.
    destruct (s !! h); [done|]. destruct (o !! h); [done|].
    by rewrite app_nil_r.
Qed.

(** The second loop never finds a file to compare chunk by chunk: a key of
    both dictionaries maps to two nodes of that same digest. *)
Lemma common_loop nodes1 nodes2 hashes acc :
  Forall (λ h, h ∈ dom (by_hash nodes1) ∩ dom (by_hash nodes2)) hashes →
  fold_left (add_common_file (by_hash nodes1) (by_hash nodes2)) hashes
            (Ok acc) = Ok acc.
Proof.
  induction 1 as [|h hashes [[f1 H1]%elem_of_dom [f2 H2]%elem_of_dom]%elem_of_intersection _ IH];
    [done|].
  simpl. rewrite H1, H2.
  apply by_hash_lookup_hash in H1, H2.
  rewrite decide_False by congruence. done.
Qed.

Lemma concat_map_perm {A B} (g : A → list B) l1 l2 :
  l1 ≡ₚ l2 → concat (map g l1) ≡ₚ concat (map g l2).
Proof.
  induction 1 as [|x l1 l2 _ IH|x y l|l1 l2 l3 _ IH1 _ IH2]; simpl.
  - done.
  - by rewrite IH.
  - rewrite !app_assoc. by rewrite (Permutation_app_comm (g y)).
  - by rewrite IH1.
Qed.

(** [compare] on two roots of different digests: it returns, and what it
    returns lists the leaves of the reported file nodes, each leaf once
    for each time it is a child. *)
Lemma compare_roots_changed r1 r2 :
  hash_value r1 ≠ hash_value r2 →
  ∃ l, compare_roots r1 r2 = Ok l
       ∧ l ≡ₚ concat (map leaf_ids (changed_file_nodes r1 r2)).
Proof.
  intros Hne. unfold compare_roots. rewrite decide_False by done.
  rewrite changed_loop, common_loop.
  - eexists. split; [done|]. simpl.
    rewrite (concat_map_perm _ _ _ (changed_file_hashes_perm r1 r2)).
    rewrite map_map. apply reflexive_eq. f_equal.
    apply map_ext_in. intros node Hin%list_elem_of_In.
    by apply leaves_for_changed.
  - apply Forall_forall. intros h. by rewrite elem_of_elements.
Qed.

Lemma compare_roots_same r1 r2 :
  hash_value r1 = hash_value r2 → compare_roots r1 r2 = Ok [].
Proof. intros Heq. unfold compare_roots. by rewrite decide_True. Qed.

(** ** [compare] on the store *)

Lemma all_chunk_ids_store self other (σ : store) :
  fst (all_chunk_ids self other σ) = σ.
Proof.
  unfold all_chunk_ids. rewrite M_bind_unfold. unfold get_chunk_nodes at 1.
  destruct (σ !! self) as [t1|]; [|done].
  rewrite M_bind_unfold. unfold get_chunk_nodes.
  by destruct (σ !! other) as [t2|].
Qed.

(** [compare] writes nothing. *)
Lemma compare_store self other (σ : store) :
  fst (compare self other σ) = σ.
Proof.
  unfold compare. rewrite M_bind_unfold. unfold get_root at 1.
  destruct (σ !! self) as [t1|]; [|done].
  destruct (root t1); [|apply all_chunk_ids_store].
  rewrite M_bind_unfold. unfold get_root.
  destruct (σ !! other) as [t2|]; [|done].
  destruct (root t2); [done|apply all_chunk_ids_store].
Qed.

Lemma all_chunk_ids_run self other (σ : store) t1 t2 :
  σ !! self = Some t1 → σ !! other = Some t2 →
  all_chunk_ids self other σ =
  (σ, Ok (elements (dom (chunk_nodes t1) ∪ dom (chunk_nodes t2)))).
Proof.
  intros H1 H2. unfold all_chunk_ids.
  rewrite M_bind_unfold. unfold get_chunk_nodes at 1. rewrite H1.
  rewrite M_bind_unfold. unfold get_chunk_nodes. by rewrite H2.
Qed.

Lemma compare_no_root self other (σ : store) t1 t2 :
  σ !! self = Some t1 → σ !! other = Some t2 →
  root t1 = None ∨ root t2 = None →
  compare self other σ =
  (σ, Ok (elements (dom (chunk_nodes t1) ∪ dom (chunk_nodes t2)))).
Proof.
  intros H1 H2 Hroot.
  unfold compare. rewrite M_bind_unfold. unfold get_root at 1. rewrite H1.
  destruct (root t1); [|by apply all_chunk_ids_run].
  rewrite M_bind_unfold. unfold get_root. rewrite H2.
  destruct Hroot as [Hn | ->]; [done|]. by apply all_chunk_ids_run.
Qed.

Lemma compare_both_roots self other (σ : store) t1 t2 r1 r2 :
  σ !! self = Some t1 → σ !! other = Some t2 →
  root t1 = Some r1 → root t2 = Some r2 →
  compare self other σ = (σ, compare_roots r1 r2).
Proof.
  intros H1 H2 Hr1 Hr2.
  unfold compare. rewrite M_bind_unfold. unfold get_root at 1.
  rewrite H1, Hr1. rewrite M_bind_unfold. unfold get_root.
  by rewrite H2, Hr2.
Qed.

(** What [compare] returns on two trees of the store. *)
Lemma compare_outcome self other (σ : store) t1 t2 :
  σ !! self = Some t1 → σ !! other = Some t2 →
  ∃ l, compare self other σ = (σ, Ok l)
    ∧ match root t1, root t2 with
      | Some r1, Some r2 =>
          if decide (hash_value r1 = hash_value r2) then l = []
          else l ≡ₚ concat (map leaf_ids (changed_file_nodes r1 r2))
      | _, _ => l = elements (dom (chunk_nodes t1) ∪ dom (chunk_nodes t2))
      end.
Proof.
  intros H1 H2.
  destruct (root t1) as [r1|] eqn:Hr1; [destruct (root t2) as [r2|] eqn:Hr2|].
  - rewrite (compare_both_roots _ _ _ _ _ r1 r2 H1 H2 Hr1 Hr2).
    destruct (decide (hash_value r1 = hash_value r2)) as [Heq|Hne].
    + rewrite (compare_roots_same _ _ Heq). by exists [].
    + destruct (compare_roots_changed _ _ Hne) as (l & -> & Hl). by exists l.
  - rewrite (compare_no_root _ _ _ _ _ H1 H2) by (by right). by eexists.
  - rewrite (compare_no_root _ _ _ _ _ H1 H2) by (by left). by eexists.
Qed.

(** * The claims *)

Lemma last_by_hash_last nodes node :
  node ∈ last_by_hash nodes ↔ last_with_digest nodes node.
Proof.
  unfold last_with_digest. induction nodes as [|n nodes IH]; simpl.
  - split; [by intros ?%elem_of_nil|]. intros ([|??] & ? & ? & _); done.
  - destruct (decide _) as [Hin|Hin].
    + rewrite IH. split.
      * intros (pre & post & -> & Hnot). by exists (n :: pre), post.
      * intros ([|n' pre] & post & Heq & Hnot); simplify_eq/=; [done|].
        by exists pre, post.
    + rewrite elem_of_cons, IH. split.
      * intros [->|(pre & post & -> & Hnot)].
        -- by exists [], nodes.
        -- by exists (n :: pre), post.
      * intros ([|n' pre] & post & Heq & Hnot); simplify_eq/=; [by left|].
        right. by exists pre, post.
Qed.

Lemma changed_file_nodes_reported r1 r2 node :
  node ∈ changed_file_nodes r1 r2 ↔ reported r1 r2 node.
Proof.
  unfold changed_file_nodes, only_in, reported.
  rewrite elem_of_app, !list_elem_of_filter, !last_by_hash_last. tauto.
Qed.

(** C1, with the amendment.  [compare] returns a list.  On two trees of
    the store it returns without a write.  The list has no duplicate when a
    root is missing, and is empty when the two root digests are equal.
    Otherwise it holds the leaf digests of the reported file nodes, each
    one once for every leaf that carries it, and so it is free of
    duplicates exactly when no leaf digest occurs twice under these
    nodes. *)
Theorem compare_duplicates self other (σ : store) t1 t2 :
  σ !! self = Some t1 → σ !! other = Some t2 →
  ∃ l, compare self other σ = (σ, Ok l)
    ∧ (root t1 = None ∨ root t2 = None → NoDup l)
    ∧ (∀ r1 r2, root t1 = Some r1 → root t2 = Some r2 →
         hash_value r1 = hash_value r2 → l = [])
    ∧ (∀ r1 r2, root t1 = Some r1 → root t2 = Some r2 →
         hash_value r1 ≠ hash_value r2 →
         l ≡ₚ concat (map leaf_ids (changed_file_nodes r1 r2))
         ∧ (NoDup l ↔
            NoDup (concat (map leaf_ids (changed_file_nodes r1 r2))))).
Proof.
  intros H1 H2.
  destruct (compare_outcome self other σ t1 t2 H1 H2) as (l & Hrun & Hl).
  exists l. split; [done|]. split; [|split].
  - intros Hroot.
    assert (l = elements (dom (chunk_nodes t1) ∪ dom (chunk_nodes t2)))
      as -> by (destruct Hroot as [Hr|Hr]; rewrite Hr in Hl;
                [done | by destruct (root t1)]).
    apply NoDup_elements.
  - intros r1 r2 Hr1 Hr2 Heq. rewrite Hr1, Hr2 in Hl.
    by rewrite decide_True in Hl.
  - intros r1 r2 Hr1 Hr2 Hne. rewrite Hr1, Hr2 in Hl.
    rewrite decide_False in Hl by done. split; [done|]. by rewrite Hl.
Qed.

Lemma compare_duplicates_witness :
  ∃ l, compare 0 1 small_store = (small_store, Ok l)
       ∧ l ≡ₚ [lit "a"; lit "b"; lit "a"; lit "d"] ∧ ¬ NoDup l.
Proof.
  destruct (compare_duplicates 0 1 small_store _ _ eq_refl eq_refl)
    as (l & Hrun & _ & _ & Hl).
  exists l. split; [done|].
  destruct (Hl _ _ eq_refl eq_refl) as [Hperm Hdup]; [by vm_compute|].
  split; [exact Hperm|]. rewrite Hdup.
  intros Hnd. apply (bool_decide_pack _) in Hnd. exact Hnd.
Defined.

(** C1 as stated fails in the scenario of section 8: after the edit of
    [b], the identifier of the untouched [a] is returned twice. *)
Lemma compare_duplicates_counterexample :
  ∃ l, snd (diff_chunks [chunk_a; chunk_b] [chunk_a; chunk_b_edited] [])
       = Ok l
       ∧ ¬ NoDup l.
Proof.
  assert (match snd (diff_chunks [chunk_a; chunk_b]
                                 [chunk_a; chunk_b_edited] []) with
          | Ok l => bool_decide (NoDup l)
          | Raise _ => true
          end = false) as Hdup by (vm_compute; reflexivity).
  destruct (snd _) as [l|]; [|done]. exists l. split; [done|].
  intros Hnd. apply (bool_decide_pack _) in Hnd. by rewrite Hdup in Hnd.
Qed.

(** A file that is new, with one chunk twice: both leaves are returned. *)
Example compare_new_file_twice :
  snd (diff_chunks [] [chunk_a; chunk_a] []) =
  Ok [id_or_empty chunk_a; id_or_empty chunk_a].
Proof. vm_compute. reflexivity. Qed.

Lemma claimed_ids_spec r1 r2 id :
  id ∈ claimed_ids r1 r2 ↔
  ∃ node, in_one_tree_only r1 r2 node ∧ id ∈ leaf_ids node.
Proof.
  unfold claimed_ids, in_one_tree_only.
  rewrite list_elem_of_In, in_concat. split.
  - intros (ids & (node & <- & Hnode%list_elem_of_In)%in_map_iff
                & Hid%list_elem_of_In).
    exists node. split; [|done].
    apply elem_of_app in Hnode as [[??]%list_elem_of_filter|[??]%list_elem_of_filter];
      auto.
  - intros (node & Hnode & Hid). exists (leaf_ids node).
    split; [|by apply list_elem_of_In].
    apply in_map, list_elem_of_In, elem_of_app.
    destruct Hnode as [[??]|[??]]; [left|right]; by apply list_elem_of_filter.
Qed.

Lemma misses_claimed_id_refutes (σ : store) id :
  misses_claimed_id σ id = true →
  ∃ t1 t2 l, σ !! 0%nat = Some t1 ∧ σ !! 1%nat = Some t2
    ∧ is_Some (root t1) ∧ is_Some (root t2)
    ∧ compare 0 1 σ = (σ, Ok l)
    ∧ ¬ reports_files_in_one_tree_only t1 t2 l.
Proof.
  unfold misses_claimed_id. pose proof (compare_store 0 1 σ) as Hσ.
  destruct (σ !! 0%nat) as [t1|]; [|done].
  destruct (σ !! 1%nat) as [t2|]; [|done].
  destruct (root t1) as [r1|] eqn:Hr1; [|done].
  destruct (root t2) as [r2|] eqn:Hr2; [|done].
  destruct (compare 0 1 σ) as [σ' [l|]]; [|done]. simpl in *. subst σ'.
  intros [Hin Hnot%negb_true_iff]%andb_prop.
  apply bool_decide_eq_true in Hin. apply bool_decide_eq_false in Hnot.
  exists t1, t2, l. repeat (split; [by eauto|]).
  intros Hclaim. apply Hnot, (Hclaim r1 r2 Hr1 Hr2), claimed_ids_spec, Hin.
Qed.

Lemma last_with_digest_NoDup nodes node :
  NoDup (map hash_value nodes) →
  last_with_digest nodes node ↔ node ∈ nodes.
Proof.
  intros Hnd. unfold last_with_digest. split.
  - intros (pre & post & -> & _). apply elem_of_app. right. by left.
  - intros (pre & post & ->)%list_elem_of_split. exists pre, post.
    split; [done|]. rewrite map_app in Hnd. simpl in Hnd.
    apply NoDup_app in Hnd as (_ & _ & Hnd).
    by apply NoDup_cons in Hnd as [? _].
Qed.

(** C2, with the amendment.  On two trees with roots, [compare] returns
    without a write.  When the two root digests are equal the list is
    empty.  When they differ, the identifiers in the list are exactly the
    leaf digests of the reported file nodes: for each file digest found
    under one root only, the last file node with that digest; a digest
    found under both roots contributes nothing.  Where no two file nodes
    of a tree share a digest, these are all the file nodes whose digest is
    found under one root only. *)
Theorem compare_reported_files self other (σ : store) t1 t2 r1 r2 :
  σ !! self = Some t1 → σ !! other = Some t2 →
  root t1 = Some r1 → root t2 = Some r2 →
  ∃ l, compare self other σ = (σ, Ok l)
    ∧ (hash_value r1 = hash_value r2 → l = [])
    ∧ (hash_value r1 ≠ hash_value r2 →
       ∀ id, id ∈ l ↔ ∃ node, reported r1 r2 node ∧ id ∈ leaf_ids node)
    ∧ (hash_value r1 ≠ hash_value r2 →
       NoDup (map hash_value (children r1)) →
       NoDup (map hash_value (children r2)) →
       ∀ id, id ∈ l ↔
             ∃ node, in_one_tree_only r1 r2 node ∧ id ∈ leaf_ids node).
Proof.
  intros H1 H2 Hr1 Hr2.
  destruct (compare_outcome self other σ t1 t2 H1 H2) as (l & Hrun & Hl).
  rewrite Hr1, Hr2 in Hl.
  exists l. split; [done|].
  split; [by intros Heq; rewrite decide_True in Hl|].
  assert (hash_value r1 ≠ hash_value r2 →
          ∀ id, id ∈ l ↔ ∃ node, reported r1 r2 node ∧ id ∈ leaf_ids node)
    as Hrep.
  { intros Hne id. rewrite decide_False in Hl by done. rewrite Hl.
    rewrite list_elem_of_In, in_concat. split.
    - intros (ids & (node & <- & Hnode%list_elem_of_In)%in_map_iff
                  & Hid%list_elem_of_In).
      exists node. by rewrite <- changed_file_nodes_reported.
    - intros (node & Hnode%changed_file_nodes_reported & Hid).
      exists (leaf_ids node). split; [|by apply list_elem_of_In].
      by apply in_map, list_elem_of_In. }
  split; [done|]. intros Hne Hnd1 Hnd2 id. rewrite (Hrep Hne id).
  unfold reported, in_one_tree_only.
  by setoid_rewrite (last_with_digest_NoDup _ _ Hnd1);
     setoid_rewrite (last_with_digest_NoDup _ _ Hnd2).
Qed.

Lemma compare_reported_files_witness :
  ∃ l, compare 0 1 small_store = (small_store, Ok l)
       ∧ ∀ id, id ∈ l ↔ id ∈ [lit "a"; lit "b"; lit "a"; lit "d"].
Proof.
  destruct (compare_reported_files 0 1 small_store _ _ _ _
              eq_refl eq_refl eq_refl eq_refl)
    as (l & Hrun & _ & _ & Hl).
  exists l. split; [done|]. intros id.
  rewrite (Hl ltac:(by vm_compute)
              ltac:(by apply (bool_decide_unpack _))
              ltac:(by apply (bool_decide_unpack _)) id).
  rewrite <- claimed_ids_spec. reflexivity.
Defined.

(** C2 as stated fails on two trees that [build_from_chunks] built: the
    first tree has two file nodes with one digest, the second tree is the
    tree of the empty chunk list, and the identifiers of the first of the
    two files are not returned.  It also fails on two trees with equal
    root digests and different file nodes, where nothing is returned. *)
Lemma compare_reported_files_counterexample :
  (∃ t1 t2 l, twin_store !! 0%nat = Some t1 ∧ twin_store !! 1%nat = Some t2
     ∧ is_Some (root t1) ∧ is_Some (root t2)
     ∧ compare 0 1 twin_store = (twin_store, Ok l)
     ∧ ¬ reports_files_in_one_tree_only t1 t2 l)
  ∧ (∃ t1 t2 l, same_root_store !! 0%nat = Some t1
     ∧ same_root_store !! 1%nat = Some t2
     ∧ is_Some (root t1) ∧ is_Some (root t2)
     ∧ compare 0 1 same_root_store = (same_root_store, Ok l)
     ∧ ¬ reports_files_in_one_tree_only t1 t2 l).
Proof.
  split.
  - apply (misses_claimed_id_refutes _ (id_or_empty chunk_x)).
    vm_compute. reflexivity.
  - apply (misses_claimed_id_refutes _ (lit "a")).
    vm_compute. reflexivity.
Qed.

(** The two file nodes of the first tree of [twin_store]: one digest, and
    leaves that differ. *)
Example twin_store_files :
  match twin_store !! 0%nat with
  | Some t =>
      match root t with
      | Some r =>
          match children r with
          | [file1; file2] =>
              bool_decide (hash_value file1 = hash_value file2)
              && bool_decide (leaf_ids file1 =
                              [id_or_empty chunk_x; id_or_empty chunk_y])
              && bool_decide (leaf_ids file2 =
                              [id_or_empty chunk_x ++ id_or_empty chunk_y])
          | _ => false
          end
      | None => false
      end
  | None => false
  end = true.
Proof. vm_compute. reflexivity. Qed.

(** ** Building *)

Lemma build_tree_Ok chunks r (σ : store) :
  built_root chunks = Ok r →
  build_tree chunks σ =
  (σ ++ [mkMerkleTree (Some r)
           (add_leaves (concat (map children (children r))) ∅)],
   Ok (length σ)).
Proof.
  intros Hr. unfold build_tree. rewrite M_bind_unfold.
  unfold MerkleTree_new.
  rewrite (build_from_chunks_Ok (length σ) chunks _ (mkMerkleTree None ∅) r);
    [|by apply list_lookup_middle|done].
  simpl. f_equal.
  rewrite <- (Nat.add_0_r (length σ)) at 1. by rewrite insert_app_r.
Qed.

Lemma build_tree_Raise chunks e (σ : store) :
  built_root chunks = Raise e →
  ∃ σ', build_tree chunks σ = (σ', Raise e).
Proof.
  intros Hr. unfold build_tree. rewrite M_bind_unfold.
  unfold MerkleTree_new.
  destruct (build_from_chunks_Raise (length σ) chunks (σ ++ [mkMerkleTree None ∅])
              (mkMerkleTree None ∅) e) as (σ' & -> & _);
    [by apply list_lookup_middle|done|]. by exists σ'.
Qed.

Lemma dom_built_index (chunks : list CodeChunk) (r : MerkleNode)
    (index : gmap pystr MerkleNode) :
  built_root chunks = Ok r →
  dom (add_leaves (concat (map children (children r))) index) =
  dom index ∪ list_to_set (doc_ids chunks).
Proof.
  intros Hr. rewrite dom_add_leaves, leaf_ids_concat. f_equal.
  apply list_to_set_perm_L. by apply built_root_leaf_ids_perm.
Qed.

(** C3, with the amendment.  A new tree has no root.  [build_from_chunks]
    sets a root whenever it returns: on the empty chunk list a root with
    the empty digest and no children, and on every chunk list whose paths
    and normalized texts can be encoded the root that the list determines.
    On any other chunk list it raises, and the root stays as it was. *)
Theorem build_root_present self (σ : store) t chunks :
  σ !! self = Some t →
  (∀ σ0 : store, ∃ t0,
      fst (MerkleTree_new σ0) !! length σ0 = Some t0 ∧ root t0 = None)
  ∧ build_from_chunks self [] σ =
    (<[self := mkMerkleTree (Some (mkMerkleNode [] [])) (chunk_nodes t)]> σ,
     Ok self)
  ∧ (buildable chunks = true →
     ∃ σ' t' r, build_from_chunks self chunks σ = (σ', Ok self)
                ∧ σ' !! self = Some t' ∧ root t' = Some r)
  ∧ (∀ σ' x, build_from_chunks self chunks σ = (σ', Ok x) →
     ∃ t' r, σ' !! self = Some t' ∧ root t' = Some r)
  ∧ (buildable chunks = false →
     ∃ σ' t', build_from_chunks self chunks σ = (σ', Raise UnicodeEncodeError)
              ∧ σ' !! self = Some t' ∧ root t' = root t).
Proof.
  intros Ht. split; [|split; [|split; [|split]]].
  - intros σ0. exists (mkMerkleTree None ∅). split; [|done].
    simpl. by apply list_lookup_middle.
  - by rewrite (build_from_chunks_Ok self [] σ t (mkMerkleNode [] []) Ht).
  - intros (r & Hr)%built_root_buildable.
    rewrite (build_from_chunks_Ok self chunks σ t r Ht Hr).
    eexists _, _, r. split; [done|]. split; [by eapply insert_self|done].
  - intros σ' x Hrun. destruct (built_root chunks) as [r|e] eqn:Hr.
    + rewrite (build_from_chunks_Ok self chunks σ t r Ht Hr) in Hrun.
      injection Hrun as <- <-.
      eexists _, r. split; [by eapply insert_self|done].
    + destruct (build_from_chunks_Raise self chunks σ t e Ht Hr)
        as (σ'' & Hrun' & _). congruence.
  - intros Hr%built_root_not_buildable.
    destruct (build_from_chunks_Raise self chunks σ t _ Ht Hr)
      as (σ' & Hrun & _ & _ & Hself).
    destruct (Hself t Ht) as (t' & Ht' & Hroot & _). by exists σ', t'.
Qed.

Lemma build_root_present_witness :
  ∃ σ' t' r,
    build_from_chunks 0 [chunk_a; chunk_b] [mkMerkleTree None ∅] = (σ', Ok 0%nat)
    ∧ σ' !! 0%nat = Some t' ∧ root t' = Some r.
Proof.
  apply (build_root_present 0 [mkMerkleTree None ∅] _ [chunk_a; chunk_b] eq_refl).
  vm_compute. reflexivity.
Defined.

(** C3 as stated fails on the empty chunk list: the tree has a root. *)
Lemma build_root_present_counterexample :
  ∃ σ t, build_tree [] [] = (σ, Ok 0%nat)
         ∧ σ !! 0%nat = Some t ∧ root t ≠ None.
Proof.
  exists [mkMerkleTree (Some (mkMerkleNode [] [])) ∅], 
         (mkMerkleTree (Some (mkMerkleNode [] [])) ∅).
  split; [reflexivity|]. split; [reflexivity|]. done.
Qed.

(** The diff of a chunk list with itself. *)
Lemma diff_chunks_same chunks (σ : store) :
  ∃ σ', diff_chunks chunks chunks σ =
        (σ', rbind (built_root chunks) (λ _, Ok [])).
Proof.
  unfold diff_chunks. rewrite M_bind_unfold.
  destruct (built_root chunks) as [r|e] eqn:Hr; simpl.
  - rewrite (build_tree_Ok chunks r σ Hr), M_bind_unfold.
    rewrite (build_tree_Ok chunks r _ Hr).
    set (t := mkMerkleTree _ _). eexists.
    rewrite (compare_both_roots _ _ _ t t r r); try done.
    + by rewrite compare_roots_same.
    + rewrite lookup_app_l by (rewrite length_app; simpl; lia).
      by apply list_lookup_middle.
    + by apply list_lookup_middle.
  - destruct (build_tree_Raise chunks _ σ Hr) as (σ' & ->). by exists σ'.
Qed.

(** C8.  The diff of a chunk list with itself: two fresh trees are built
    from the list and compared.  When the list can be built the result is
    the empty list; otherwise the first build raises, and nothing is
    compared. *)
Theorem diff_same_chunks chunks (σ : store) :
  ∃ σ', diff_chunks chunks chunks σ =
        (σ', if buildable chunks then Ok [] else Raise UnicodeEncodeError).
Proof.
  destruct (diff_chunks_same chunks σ) as (σ' & Hrun). exists σ'.
  rewrite Hrun. destruct (buildable chunks) eqn:Hb.
  - by destruct (built_root_buildable chunks Hb) as (r & ->).
  - by rewrite (built_root_not_buildable chunks Hb).
Qed.

(** The scenario of section 8 without a change. *)
Example diff_no_change :
  snd (diff_chunks [chunk_a; chunk_b] [chunk_a; chunk_b] []) = Ok [].
Proof. vm_compute. reflexivity. Qed.

(** C9.  [compare] writes to no object: the store after the call is the
    store before it, so every tree has the root and the leaf index that it
    had.  Two calls in a row on the same two trees return the same. *)
Theorem compare_pure self other (σ : store) :
  fst (compare self other σ) = σ
  ∧ (first ← compare self other;
     second ← compare self other;
     mret (first, second)) σ
    = (σ, rbind (snd (compare self other σ)) (λ l, Ok (l, l))).
Proof.
  pose proof (compare_store self other σ) as Hσ. split; [done|].
  rewrite M_bind_unfold.
  destruct (compare self other σ) as [σ' [l|e]] eqn:Hrun;
    simpl in Hσ; subst σ'; [|done].
  rewrite M_bind_unfold, Hrun. done.
Qed.

(** C10.  [build_from_chunks] never removes a key of the leaf index, also
    when it raises.  After two builds on one tree the index has the keys
    it had before, the identifiers of the first chunk list and those of the
    second, while the root is the root that the second chunk list alone
    determines: the root of a fresh tree built from it. *)
Theorem build_twice self (σ : store) t chunks1 chunks2 :
  σ !! self = Some t →
  (∀ chunks σ' res, build_from_chunks self chunks σ = (σ', res) →
     ∃ t', σ' !! self = Some t'
           ∧ dom (chunk_nodes t) ⊆ dom (chunk_nodes t'))
  ∧ (buildable chunks1 = true → buildable chunks2 = true →
     ∃ σ2 t2 r2,
       (_ ← build_from_chunks self chunks1;
        build_from_chunks self chunks2) σ = (σ2, Ok self)
       ∧ σ2 !! self = Some t2
       ∧ dom (chunk_nodes t2) =
         dom (chunk_nodes t) ∪ list_to_set (doc_ids chunks1)
                             ∪ list_to_set (doc_ids chunks2)
       ∧ root t2 = Some r2
       ∧ built_root chunks2 = Ok r2
       ∧ ∀ σ0 : store, ∃ t0,
           fst (build_tree chunks2 σ0) !! length σ0 = Some t0
           ∧ root t0 = Some r2).
Proof.
  intros Ht. split.
  - intros chunks σ' res Hrun. destruct (built_root chunks) as [r|e] eqn:Hr.
    + rewrite (build_from_chunks_Ok self chunks σ t r Ht Hr) in Hrun.
      injection Hrun as <- <-. eexists. split; [by eapply insert_self|].
      simpl. rewrite dom_add_leaves. set_solver.
    + destruct (build_from_chunks_Raise self chunks σ t e Ht Hr)
        as (σ'' & Hrun' & _ & _ & Hself).
      rewrite Hrun in Hrun'. injection Hrun' as <- _.
      destruct (Hself t Ht) as (t' & Ht' & _ & Hdom). by exists t'.
  - intros (r1 & Hr1)%built_root_buildable (r2 & Hr2)%built_root_buildable.
    rewrite M_bind_unfold.
    rewrite (build_from_chunks_Ok self chunks1 σ t r1 Ht Hr1).
    erewrite (build_from_chunks_Ok self chunks2 _ _ r2);
      [|by eapply insert_self|done].
    rewrite list_insert_insert_eq. eexists _, _, r2.
    split; [done|]. split; [by eapply insert_self|]. simpl.
    split; [by rewrite (dom_built_index chunks2 r2 _ Hr2),
                       (dom_built_index chunks1 r1 _ Hr1)|].
    split; [done|]. split; [done|].
    intros σ0. rewrite (build_tree_Ok chunks2 r2 σ0 Hr2). eexists.
    split; [by apply list_lookup_middle|done].
Qed.

Lemma build_twice_witness :
  ∃ σ2 t2 r2,
    (_ ← build_from_chunks 0 [chunk_a; chunk_b];
     build_from_chunks 0 [chunk_x]) [mkMerkleTree None ∅] = (σ2, Ok 0%nat)
    ∧ σ2 !! 0%nat = Some t2
    ∧ dom (chunk_nodes t2) =
      dom (∅ : gmap pystr MerkleNode)
      ∪ list_to_set (doc_ids [chunk_a; chunk_b])
      ∪ list_to_set (doc_ids [chunk_x])
    ∧ root t2 = Some r2
    ∧ built_root [chunk_x] = Ok r2
    ∧ ∀ σ0 : store, ∃ t0,
        fst (build_tree [chunk_x] σ0) !! length σ0 = Some t0
        ∧ root t0 = Some r2.
Proof.
  apply (build_twice 0 [mkMerkleTree None ∅] _ [chunk_a; chunk_b] [chunk_x]
           eq_refl).
  - vm_compute. reflexivity.
  - vm_compute. reflexivity.
Defined.

(** ** Identifiers *)

Lemma hex_value_inj c c' :
  lower_hex c → lower_hex c' → hex_value c = hex_value c' → c = c'.
Proof. unfold lower_hex, hex_value. intros. cases_N; lia. Qed.

Lemma hex_of_unique bs h h' : hex_of bs h → hex_of bs h' → h = h'.
Proof.
  intros [Hall Hval] [Hall' Hval']. rewrite <- Hval' in Hval. clear Hval'.
  revert h' Hall' Hval.
  induction Hall as [|c h Hc _ IH]; intros [|c' h'] Hall' Hval; try done.
  apply Forall_cons in Hall' as [Hc' Hall']. simpl in Hval.
  injection Hval as Hcc Hval. f_equal; [by apply hex_value_inj | by apply IH].
Qed.

Lemma lstrip_chars s c : c ∈ lstrip s → c ∈ s.
Proof.
  destruct (lstrip_split s) as (pre & Heq & _). intros Hc.
  rewrite Heq. apply elem_of_app. by right.
Qed.

Lemma strip_chars s c : c ∈ strip s → c ∈ s.
Proof.
  destruct (strip_stripped s) as (pre & post & Heq & _). intros Hc.
  rewrite Heq, !elem_of_app. auto.
Qed.

Lemma join_chars sep pieces c :
  c ∈ join [sep] pieces → c = sep ∨ ∃ piece, piece ∈ pieces ∧ c ∈ piece.
Proof.
  induction pieces as [|x l IH]; [by intros ?%elem_of_nil|].
  destruct l as [|y l].
  - simpl. intros Hc. right. exists x. split; [by left|done].
  - rewrite join_cons_cons, elem_of_app, elem_of_cons.
    intros [Hc|[->|Hc]]; [|by left|].
    + right. exists x. split; [by left|done].
    + destruct (IH Hc) as [->|(piece & Hin & Hcp)]; [by left|].
      right. exists piece. split; [by right|done].
Qed.

Lemma split_chars sep s piece c :
  piece ∈ split sep s → c ∈ piece → c ∈ s.
Proof.
  intros Hpiece Hc. rewrite <- (join_split sep s).
  induction (split sep s) as [|x l IH]; [by apply elem_of_nil in Hpiece|].
  destruct l as [|y l].
  - apply list_elem_of_singleton in Hpiece as ->. done.
  - rewrite join_cons_cons, elem_of_app, elem_of_cons.
    apply elem_of_cons in Hpiece as [->|Hpiece]; auto.
Qed.

Lemma normalize_code_chars code c :
  c ∈ normalize_code code → c = NL ∨ c ∈ code.
Proof.
  unfold normalize_code.
  intros [->|(piece & [_ Hin]%list_elem_of_filter & Hc)]%join_chars;
    [by left|].
  right. apply list_elem_of_In, in_map_iff in Hin as (line & <- & Hline).
  eapply split_chars; [by apply list_elem_of_In|]. by apply strip_chars.
Qed.

Lemma normalize_code_encodable code :
  encodable code = true → encodable (normalize_code code) = true.
Proof.
  unfold encodable. rewrite !forallb_forall. intros Hall c Hc.
  apply list_elem_of_In, normalize_code_chars in Hc as [->|Hc]; [done|].
  by apply Hall, list_elem_of_In.
Qed.

(** C4.  The identifier of a chunk is its path, then [__], then the 64
    lowercase hexadecimal digits of the SHA-256 digest of the normalized
    text in UTF-8; the normalized text is what the specification describes:
    the lines of the text, each one stripped, the empty ones dropped, the
    rest joined by single newlines.  Where the normalized text cannot be
    encoded there is no identifier: the property raises.  A text without
    surrogates can always be encoded. *)
Theorem doc_id_form chunk :
  (∃ n, (∀ n', normalized_of (code_string chunk) n' ↔ n' = n)
        ∧ match encode n with
          | Ok bs =>
              ∃ h, (∀ h', hex_of (SHA256.digest bs) h' ↔ h' = h)
                   ∧ length h = 64%nat
                   ∧ doc_id chunk = Ok (path chunk ++ lit "__" ++ h)
          | Raise e => doc_id chunk = Raise e
          end)
  ∧ (encodable (code_string chunk) = true → ∃ id, doc_id chunk = Ok id).
Proof.
  split.
  - exists (normalize_code (code_string chunk)). split.
    + intros n'. split; [apply normalized_unique|].
      intros ->. apply normalize_code_normalized.
    + rewrite doc_id_unfold.
      destruct (encode (normalize_code (code_string chunk))) as [bs|e];
        [|done].
      exists (SHA256.hexdigest bs). split; [|by split].
      intros h'. split.
      * intros Hh'. eapply hex_of_unique; [done|apply hexdigest_hex_of].
      * intros ->. apply hexdigest_hex_of.
  - intros Henc%normalize_code_encodable.
    destruct (doc_id_encodable chunk Henc) as (bs & ->). by eexists.
Qed.

Lemma doc_id_form_witness : ∃ id, doc_id chunk_a = Ok id.
Proof. apply (doc_id_form chunk_a). vm_compute. reflexivity. Defined.

(** The identifier of [chunk_a], as Python computes it. *)
Example doc_id_chunk_a :
  doc_id chunk_a =
  Ok (lit "m.py__2cbc1992fc343211319217b137e46e315a1e20ba5d15843d93f48231f1dbb3ab").
Proof. vm_compute. reflexivity. Qed.

Lemma Forall2_strip ls : Forall2 stripped_of ls (map strip ls).
Proof.
  apply Forall2_fmap_r, Forall_Forall2_diag, Forall_forall.
  intros l _. apply strip_stripped.
Qed.

(** C5.  Two chunks of one path whose texts have the same stripped
    non-empty lines, in the same order, have the same identifier (or both
    have none). *)
Theorem doc_id_normalization_insensitive c1 c2 ls1 ss1 ls2 ss2 :
  path c1 = path c2 →
  lines_of (code_string c1) ls1 → Forall2 stripped_of ls1 ss1 →
  lines_of (code_string c2) ls2 → Forall2 stripped_of ls2 ss2 →
  filter (λ s, s ≠ []) ss1 = filter (λ s, s ≠ []) ss2 →
  doc_id c1 = doc_id c2.
Proof.
  intros Hpath Hls1 Hss1 Hls2 Hss2 Heq.
  assert (normalize_code (code_string c1) = normalize_code (code_string c2))
    as Hn.
  { rewrite <- (normalized_unique (code_string c1)
                  (join [NL] (filter (λ s, s ≠ []) ss1)))
      by (by exists ls1, ss1).
    rewrite <- (normalized_unique (code_string c2)
                  (join [NL] (filter (λ s, s ≠ []) ss2)))
      by (by exists ls2, ss2).
    by rewrite Heq. }
  by rewrite !doc_id_unfold, Hn, Hpath.
Qed.

Lemma doc_id_normalization_insensitive_witness :
  doc_id chunk_a = doc_id chunk_a_reformatted.
Proof.
  apply (doc_id_normalization_insensitive chunk_a chunk_a_reformatted
           (split NL (code_string chunk_a))
           (map strip (split NL (code_string chunk_a)))
           (split NL (code_string chunk_a_reformatted))
           (map strip (split NL (code_string chunk_a_reformatted)))).
  - reflexivity.
  - apply lines_of_split.
  - apply Forall2_strip.
  - apply lines_of_split.
  - apply Forall2_strip.
  - vm_compute. reflexivity.
Defined.

Lemma doc_ids_under p chunks id :
  id ∈ doc_ids (under p chunks) →
  ∃ chunk, path chunk = p ∧ doc_id chunk = Ok id.
Proof.
  unfold doc_ids, under.
  intros (chunk & Hin & Hid)%list_elem_of_omap.
  apply list_elem_of_In, in_map_iff in Hin as (c0 & <- & _).
  exists (with_path p c0). split; [done|].
  by destruct (doc_id (with_path p c0)); simplify_eq.
Qed.

Lemma under_path p chunks : Forall (λ chunk, path chunk = p) (under p chunks).
Proof. unfold under. apply Forall_fmap, Forall_forall. by intros. Qed.

Lemma built_root_one_path p chunks r :
  chunks ≠ [] → Forall (λ chunk, path chunk = p) chunks →
  built_root chunks = Ok r →
  ∃ file, children r = [file] ∧ leaf_ids file = doc_ids chunks
          ∧ hash_children [file] = Ok (hash_value r).
Proof.
  intros Hne Hp [Hfiles Hh]%built_root_Ok.
  rewrite (group_by_path_one_path p chunks Hne Hp) in Hfiles.
  inversion Hfiles as [|? file ? files Hfile Hnil Heq1 Heq2]; subst.
  inversion Hnil; subst. exists file. rewrite <- Heq2 in Hh.
  split; [done|]. split; [|done].
  by destruct (file_node_leaf_ids _ _ Hfile).
Qed.

Lemma changed_file_nodes_two r1 r2 f1 f2 :
  children r1 = [f1] → children r2 = [f2] →
  hash_value f1 ≠ hash_value f2 →
  changed_file_nodes r1 r2 = [f1; f2].
Proof.
  intros H1 H2 Hne. unfold changed_file_nodes, only_in. rewrite H1, H2.
  cbn [last_by_hash map].
  destruct (decide (hash_value f1 ∈ [])) as [?%elem_of_nil|_]; [done|].
  destruct (decide (hash_value f2 ∈ [])) as [?%elem_of_nil|_]; [done|].
  rewrite !filter_cons, !filter_nil.
  destruct (decide (hash_value f1 ∉ [hash_value f2])) as [_|Hn].
  - destruct (decide (hash_value f2 ∉ [hash_value f1])) as [_|Hn]; [done|].
    exfalso. apply Hn. by intros Heq%list_elem_of_singleton.
  - exfalso. apply Hn. by intros Heq%list_elem_of_singleton.
Qed.

(** C6.  Two chunks of different paths never have one identifier, whatever
    their texts; so the identifiers of one file content under two paths are
    disjoint; and the diff of the content under one path with the content
    under the other is every identifier of the one and every identifier of
    the other, where the two trees have different root digests (and where
    there is no chunk at all). *)
Theorem doc_id_path_sensitive p1 p2 :
  p1 ≠ p2 →
  (∀ c1 c2 id1 id2, path c1 = p1 → path c2 = p2 →
     doc_id c1 = Ok id1 → doc_id c2 = Ok id2 → id1 ≠ id2)
  ∧ (∀ chunks id, id ∈ doc_ids (under p1 chunks) →
       id ∉ doc_ids (under p2 chunks))
  ∧ (∀ chunks (σ : store),
       chunks = [] ∨ roots_differ (under p1 chunks) (under p2 chunks) = true →
       ∃ σ' l, diff_chunks (under p1 chunks) (under p2 chunks) σ = (σ', Ok l)
               ∧ l ≡ₚ doc_ids (under p1 chunks) ++ doc_ids (under p2 chunks)).
Proof.
  intros Hne.
  assert (∀ c1 c2 id1 id2, path c1 = p1 → path c2 = p2 →
            doc_id c1 = Ok id1 → doc_id c2 = Ok id2 → id1 ≠ id2) as Hids.
  { intros c1 c2 id1 id2 <- <- H1 H2 <-. by eapply Hne, doc_id_path. }
  split; [done|]. split.
  - intros chunks id (c1 & Hc1 & Hid1)%doc_ids_under
                     (c2 & Hc2 & Hid2)%doc_ids_under.
    by eapply Hids.
  - intros chunks σ [->|Hdiff].
    { destruct (diff_chunks_same [] σ) as (σ' & Hrun). by exists σ', []. }
    unfold roots_differ in Hdiff.
    destruct (built_root (under p1 chunks)) as [r1|] eqn:Hr1; [|done].
    destruct (built_root (under p2 chunks)) as [r2|] eqn:Hr2; [|done].
    apply bool_decide_eq_true in Hdiff.
    destruct chunks as [|chunk chunks]; [simpl in *; congruence|].
    destruct (built_root_one_path p1 (under p1 (chunk :: chunks)) r1)
      as (f1 & Hch1 & Hleaves1 & Hh1); [done|apply under_path|done|].
    destruct (built_root_one_path p2 (under p2 (chunk :: chunks)) r2)
      as (f2 & Hch2 & Hleaves2 & Hh2); [done|apply under_path|done|].
    assert (hash_value f1 ≠ hash_value f2) as Hf.
    { intros Heq. apply Hdiff. unfold hash_children in Hh1, Hh2.
      simpl in Hh1, Hh2. rewrite Heq in Hh1. congruence. }
    unfold diff_chunks. rewrite M_bind_unfold.
    rewrite (build_tree_Ok _ r1 σ Hr1), M_bind_unfold.
    rewrite (build_tree_Ok _ r2 _ Hr2).
    set (t1 := mkMerkleTree (Some r1) _). set (t2 := mkMerkleTree (Some r2) _).
    rewrite (compare_both_roots _ _ _ t1 t2 r1 r2); try done; cycle 1.
    { rewrite lookup_app_l by (rewrite length_app; simpl; lia).
      by apply list_lookup_middle. }
    { by apply list_lookup_middle. }
    destruct (compare_roots_changed r1 r2 Hdiff) as (l & -> & Hl).
    eexists _, l. split; [done|].
    rewrite Hl, (changed_file_nodes_two r1 r2 f1 f2 Hch1 Hch2 Hf). simpl.
    by rewrite app_nil_r, Hleaves1, Hleaves2.
Qed.

Lemma doc_id_path_sensitive_witness :
  ∃ σ' l,
    diff_chunks (under (lit "m.py") [chunk_a; chunk_b])
                (under (lit "n.py") [chunk_a; chunk_b]) [] = (σ', Ok l)
    ∧ l ≡ₚ doc_ids (under (lit "m.py") [chunk_a; chunk_b])
           ++ doc_ids (under (lit "n.py") [chunk_a; chunk_b]).
Proof.
  apply (doc_id_path_sensitive (lit "m.py") (lit "n.py")).
  - vm_compute. discriminate.
  - right. vm_compute. reflexivity.
Defined.

(** ** The chunk extractor *)

Lemma rmap_length_Ok s n :
  rmap length (encode s) = Ok n → ∃ bs, encode s = Ok bs ∧ length bs = n.
Proof.
  unfold rmap. intros (bs & Hbs & [= <-])%rbind_Ok. by exists bs.
Qed.

Lemma encode_app_Ok s1 s2 bs :
  encode (s1 ++ s2) = Ok bs ↔
  ∃ b1 b2, encode s1 = Ok b1 ∧ encode s2 = Ok b2 ∧ bs = b1 ++ b2.
Proof.
  rewrite encode_app, rbind_Ok. split.
  - intros (b1 & H1 & (b2 & H2 & [= <-])%rbind_Ok). by exists b1, b2.
  - intros (b1 & b2 & H1 & H2 & ->). exists b1. split; [done|].
    by rewrite H2.
Qed.

(** The bytes of a span decode to its characters. *)
Lemma slice_spans code node text source :
  encode code = Ok source → spans code node text →
  decode (slice source (TS.start_byte node) (TS.end_byte node)) = Ok text.
Proof.
  intros Hsource (pre & post & -> & Hstart & Hend).
  apply rmap_length_Ok in Hstart as (bpre & Hpre & Hlen).
  apply rmap_length_Ok in Hend as (bmid & Hmid & Hlen').
  apply encode_app_Ok in Hmid as (bpre' & btext & Hpre' & Htext & ->).
  rewrite Hpre in Hpre'. injection Hpre' as <-.
  apply encode_app_Ok in Hsource as (b1 & b2 & H1 & H2 & ->).
  apply encode_app_Ok in H2 as (b3 & bpost & H3 & Hpost & ->).
  rewrite Hpre in H1. injection H1 as <-.
  rewrite Htext in H3. injection H3 as <-.
  unfold slice. rewrite <- Hlen, <- Hlen', length_app.
  rewrite drop_app_length.
  replace (length bpre + length btext - length bpre)%nat
    with (length btext) by lia.
  rewrite take_app_length. by apply decode_encode.
Qed.

Lemma extract_chunk_spans node code kind file_path text source :
  encode code = Ok source → spans code node text →
  _extract_chunk node code kind file_path =
  Ok (chunk_of node text kind file_path).
Proof.
  intros Hsource Hspans. unfold _extract_chunk.
  unfold mbind, result_bind. rewrite Hsource. simpl.
  by rewrite (slice_spans code node text source Hsource Hspans).
Qed.

(** Every chunk has the lines of its node, counted from one. *)
Lemma extract_chunk_lines node code kind file_path chunk :
  _extract_chunk node code kind file_path = Ok chunk →
  start_line chunk = fst (TS.start_point node) + 1
  ∧ end_line chunk = fst (TS.end_point node) + 1
  ∧ type chunk = kind ∧ path chunk = file_path.
Proof.
  unfold _extract_chunk, mbind, result_bind.
  intros (bs & _ & (text & _ & [= <-])%rbind_Ok)%rbind_Ok. done.
Qed.

Lemma find_block_body node body :
  body_of node body → find_block (TS.children node) = Some body.
Proof.
  intros (pre & post & -> & Hbody & Hpre).
  induction Hpre as [|child pre Hchild _ IH]; simpl.
  - by rewrite decide_True.
  - by rewrite decide_False.
Qed.

(** The loop over a class body appends the chunks of the function
    definitions, in order. *)
Lemma methods_loop code file_path nodes : ∀ chunks,
  rfor (add_method code file_path) nodes chunks =
  rbind (rmapM (λ node, _extract_chunk node code (lit "method") file_path)
               (filter is_function nodes))
        (λ methods, Ok (chunks ++ methods)).
Proof.
  induction nodes as [|node nodes IH]; intros chunks; simpl.
  - by rewrite app_nil_r.
  - rewrite filter_cons. unfold add_method at 1, is_function at 1.
    destruct (decide (TS.type node = lit "function_definition")) as [Hf|Hf];
      simpl.
    + unfold mbind, result_bind.
      destruct (_extract_chunk node code (lit "method") file_path)
        as [chunk|e]; simpl; [|done].
      rewrite IH. destruct (rmapM _ _) as [methods|e]; simpl; [|done].
      by rewrite <- app_assoc.
    + apply IH.
Qed.

(** The loop over the top-level nodes appends the chunks of the class and
    function definitions, in order. *)
Lemma top_level_loop code file_path nodes : ∀ chunks,
  rfor (add_top_level code file_path) nodes chunks =
  rbind (rmapM (top_level_chunks code file_path)
               (filter (λ node, is_class node ∨ is_function node) nodes))
        (λ groups, Ok (chunks ++ concat groups)).
Proof.
  induction nodes as [|node nodes IH]; intros chunks; simpl.
  - by rewrite app_nil_r.
  - rewrite filter_cons.
    unfold add_top_level at 1, top_level_chunks at 1, is_class, is_function.
    destruct (decide (TS.type node = lit "class_definition")) as [Hc|Hc].
    + rewrite decide_True by by left. simpl. unfold mbind, result_bind.
      rewrite decide_True by done.
      destruct (_process_class node code file_path) as [cs|e]; simpl; [|done].
      rewrite IH. destruct (rmapM _ _) as [groups|e]; simpl; [|done].
      by rewrite <- app_assoc.
    + destruct (decide (TS.type node = lit "function_definition")) as [Hf|Hf].
      * rewrite decide_True by by right. simpl. unfold mbind, result_bind.
        rewrite decide_False by done. unfold rmap.
        destruct (_extract_chunk node code (lit "function") file_path)
          as [chunk|e]; simpl; [|done].
        rewrite IH. destruct (rmapM _ _) as [groups|e]; simpl; [|done].
        by rewrite <- app_assoc.
      * rewrite decide_False by by intros [?|?]. apply IH.
Qed.

(** C7.  A file whose only definition at top level is a class, with two
    function definitions directly in its body, gives three chunks: the
    class, then the two methods in source order.  Each chunk has the text
    that its node spans, and the lines of its node, the rows of the parser
    plus one.  Every chunk that is extracted has the lines of its node in
    this way. *)
Theorem class_with_two_methods self code file_path source cls body m1 m2
    class_text text1 text2 :
  encode code = Ok source →
  filter (λ node, is_class node ∨ is_function node)
         (TS.children (parser self source)) = [cls] →
  is_class cls →
  body_of cls body →
  filter is_function (TS.children body) = [m1; m2] →
  spans code cls class_text → spans code m1 text1 → spans code m2 text2 →
  chunk_code self code file_path =
  Ok [ chunk_of cls class_text (lit "class") file_path;
       chunk_of m1 text1 (lit "method") file_path;
       chunk_of m2 text2 (lit "method") file_path ]
  ∧ ∀ node kind chunk,
      _extract_chunk node code kind file_path = Ok chunk →
      start_line chunk = fst (TS.start_point node) + 1
      ∧ end_line chunk = fst (TS.end_point node) + 1
      ∧ 1 ≤ start_line chunk ∧ 1 ≤ end_line chunk.
Proof.
  intros Hsource Htop Hcls Hbody Hmethods Hspan Hspan1 Hspan2. split.
  - unfold chunk_code, mbind, result_bind. rewrite Hsource. simpl.
    rewrite top_level_loop, Htop. simpl.
    unfold top_level_chunks. rewrite decide_True by done.
    unfold _process_class, mbind, result_bind.
    rewrite (extract_chunk_spans cls code _ file_path class_text source)
      by done.
    simpl. rewrite (find_block_body cls body Hbody).
    rewrite methods_loop, Hmethods. simpl.
    rewrite (extract_chunk_spans m1 code _ file_path text1 source) by done.
    rewrite (extract_chunk_spans m2 code _ file_path text2 source) by done.
    done.
  - intros node kind chunk (Hs & He & _)%extract_chunk_lines.
    rewrite Hs, He. repeat split; lia.
Qed.

Lemma class_with_two_methods_witness :
  chunk_code class_chunker class_source (lit "a.py") =
  Ok [ mkCodeChunk (take 76 class_source) (lit "class") 1 5 (lit "a.py");
       mkCodeChunk (lit "def f(self):" ++ [NL] ++ lit "        return 1")
                   (lit "method") 2 3 (lit "a.py");
       mkCodeChunk (lit "def g(self):" ++ [NL] ++ lit "        return 2")
                   (lit "method") 4 5 (lit "a.py") ].
Proof.
  apply (class_with_two_methods class_chunker class_source (lit "a.py")
           class_source class_A class_body method_f method_g).
  - vm_compute. reflexivity.
  - vm_compute. reflexivity.
  - reflexivity.
  - exists (take 3 (TS.children class_A)), [].
    split; [reflexivity|]. split; [reflexivity|].
    by apply (bool_decide_unpack _).
  - vm_compute. reflexivity.
  - exists [], (drop 76 class_source). by vm_compute.
  - exists (take 13 class_source), (drop 42 class_source). by vm_compute.
  - exists (take 47 class_source), (drop 76 class_source). by vm_compute.
Defined.

(** * Further properties *)

(** ** [compare] *)

Lemma diff_chunks_roots before after r1 r2 (σ : store) :
  built_root before = Ok r1 → built_root after = Ok r2 →
  ∃ σ', diff_chunks before after σ = (σ', compare_roots r1 r2).
Proof.
  intros Hr1 Hr2. unfold diff_chunks. rewrite M_bind_unfold.
  rewrite (build_tree_Ok before r1 σ Hr1), M_bind_unfold.
  rewrite (build_tree_Ok after r2 _ Hr2).
  set (t1 := mkMerkleTree (Some r1) _). set (t2 := mkMerkleTree (Some r2) _).
  eexists. apply (compare_both_roots _ _ _ t1 t2 r1 r2); try done.
  - rewrite lookup_app_l by (rewrite length_app; simpl; lia).
    by apply list_lookup_middle.
  - by apply list_lookup_middle.
Qed.

Lemma last_by_hash_subseteq nodes node :
  node ∈ last_by_hash nodes → node ∈ nodes.
Proof.
  intros (pre & post & -> & _)%last_by_hash_last.
  apply elem_of_app. right. by left.
Qed.

Lemma changed_file_nodes_children r1 r2 node :
  node ∈ changed_file_nodes r1 r2 →
  node ∈ children r1 ∨ node ∈ children r2.
Proof.
  unfold changed_file_nodes, only_in.
  intros [[_ H]%list_elem_of_filter|[_ H]%list_elem_of_filter]%elem_of_app;
    apply last_by_hash_subseteq in H; auto.
Qed.

Lemma elem_of_concat_leaf_ids nodes id :
  id ∈ concat (map leaf_ids nodes) ↔
  ∃ node, node ∈ nodes ∧ id ∈ leaf_ids node.
Proof.
  rewrite list_elem_of_In, in_concat. split.
  - intros (ids & (node & <- & Hnode%list_elem_of_In)%in_map_iff
                & Hid%list_elem_of_In). eauto.
  - intros (node & Hnode & Hid). exists (leaf_ids node).
    split; [|by apply list_elem_of_In]. by apply in_map, list_elem_of_In.
Qed.

(** X1.  The chunk-by-chunk comparison of lines 161 to 174 never takes
    place.  A digest that is a key of both dictionaries maps to two nodes
    of that digest, so the test of line 167 fails every time; and on two
    roots of different digests [compare] returns what its first loop has
    collected, without a [KeyError]. *)
Theorem compare_chunk_level_unreachable r1 r2 :
  (∀ h f1 f2, by_hash (children r1) !! h = Some f1 →
              by_hash (children r2) !! h = Some f2 →
              hash_value f1 = hash_value f2)
  ∧ (hash_value r1 ≠ hash_value r2 →
     compare_roots r1 r2 =
     Ok (fold_left
           (add_changed_file (by_hash (children r1)) (by_hash (children r2)))
           (elements (sym_diff (dom (by_hash (children r1)))
                               (dom (by_hash (children r2))))) [])).
Proof.
  split.
  - intros h f1 f2 H1%by_hash_lookup_hash H2%by_hash_lookup_hash. congruence.
  - intros Hne. unfold compare_roots. rewrite decide_False by done.
    apply common_loop, Forall_forall. intros h.
    by rewrite elem_of_elements.
Qed.

Lemma compare_chunk_level_unreachable_witness :
  snd (compare 0 1 small_store) = Ok [lit "a"; lit "b"; lit "a"; lit "d"]
  ∨ snd (compare 0 1 small_store) = Ok [lit "a"; lit "d"; lit "a"; lit "b"].
Proof.
  rewrite (compare_both_roots 0 1 small_store _ _ _ _
             eq_refl eq_refl eq_refl eq_refl).
  simpl snd.
  rewrite (proj2 (compare_chunk_level_unreachable _ _)) by (by vm_compute).
  vm_compute. auto.
Defined.

(** X2.  [compare] is symmetric: with the two trees exchanged it returns
    the same identifiers, each one as many times. *)
Theorem compare_symmetric self other (σ : store) t1 t2 :
  σ !! self = Some t1 → σ !! other = Some t2 →
  ∃ l1 l2, compare self other σ = (σ, Ok l1)
           ∧ compare other self σ = (σ, Ok l2)
           ∧ l1 ≡ₚ l2.
Proof.
  intros H1 H2.
  destruct (compare_outcome self other σ t1 t2 H1 H2) as (l1 & Hrun1 & Hl1).
  destruct (compare_outcome other self σ t2 t1 H2 H1) as (l2 & Hrun2 & Hl2).
  exists l1, l2. split; [done|]. split; [done|].
  destruct (root t1) as [r1|], (root t2) as [r2|].
  - destruct (decide (hash_value r1 = hash_value r2)) as [Heq|Hne].
    + rewrite decide_True in Hl2 by done. by subst.
    + rewrite decide_False in Hl2 by done. rewrite Hl1, Hl2.
      unfold changed_file_nodes. rewrite !map_app, !concat_app.
      apply Permutation_app_comm.
  - subst. by rewrite (comm_L (∪)).
  - subst. by rewrite (comm_L (∪)).
  - subst. by rewrite (comm_L (∪)).
Qed.

Lemma compare_symmetric_witness :
  ∃ l1 l2, compare 0 1 small_store = (small_store, Ok l1)
           ∧ compare 1 0 small_store = (small_store, Ok l2)
           ∧ l1 ≡ₚ l2.
Proof. apply (compare_symmetric 0 1 small_store _ _ eq_refl eq_refl). Defined.

(** X3.  A diff invents nothing: on two chunk lists that can be built,
    [compare] returns, and every identifier that it returns is the
    identifier of a chunk of one of the two lists. *)
Theorem diff_chunks_sound before after (σ : store) :
  buildable before = true → buildable after = true →
  ∃ σ' l, diff_chunks before after σ = (σ', Ok l)
          ∧ ∀ id, id ∈ l → id ∈ doc_ids before ∨ id ∈ doc_ids after.
Proof.
  intros (r1 & Hr1)%built_root_buildable (r2 & Hr2)%built_root_buildable.
  destruct (diff_chunks_roots before after r1 r2 σ Hr1 Hr2) as (σ' & ->).
  destruct (decide (hash_value r1 = hash_value r2)) as [Heq|Hne].
  - rewrite (compare_roots_same _ _ Heq). exists σ', [].
    split; [done|]. by intros id ?%elem_of_nil.
  - destruct (compare_roots_changed _ _ Hne) as (l & -> & Hl).
    exists σ', l. split; [done|]. intros id. rewrite Hl.
    intros (node & Hnode%changed_file_nodes_children & Hid)%elem_of_concat_leaf_ids.
    rewrite <- (built_root_leaf_ids_perm before r1 Hr1).
    rewrite <- (built_root_leaf_ids_perm after r2 Hr2).
    rewrite !elem_of_concat_leaf_ids. destruct Hnode; eauto.
Qed.

Lemma diff_chunks_sound_witness :
  ∃ σ' l,
    diff_chunks [chunk_a; chunk_b] [chunk_a; chunk_b_edited] [] = (σ', Ok l)
    ∧ ∀ id, id ∈ l → id ∈ doc_ids [chunk_a; chunk_b]
                      ∨ id ∈ doc_ids [chunk_a; chunk_b_edited].
Proof.
  apply (diff_chunks_sound [chunk_a; chunk_b] [chunk_a; chunk_b_edited] []).
  - vm_compute. reflexivity.
  - vm_compute. reflexivity.
Defined.

(** ** [build_from_chunks] *)

Lemma elem_of_first_occurrences l x : x ∈ first_occurrences l ↔ x ∈ l.
Proof.
  induction l as [|y l IH]; simpl; [done|].
  rewrite !elem_of_cons, list_elem_of_filter, IH.
  destruct (decide (x = y)); naive_solver.
Qed.

Lemma first_occurrences_NoDup l : NoDup (first_occurrences l).
Proof.
  induction l as [|y l IH]; simpl; [constructor|].
  constructor; [|by apply NoDup_filter].
  by intros [? _]%list_elem_of_filter.
Qed.

Lemma first_occurrences_snoc l x :
  first_occurrences (l ++ [x]) =
  if decide (x ∈ l) then first_occurrences l else first_occurrences l ++ [x].
Proof.
  induction l as [|y l IH].
  - simpl. destruct (decide (x ∈ [])) as [?%elem_of_nil|]; done.
  - simpl app. simpl first_occurrences. rewrite IH. clear IH.
    destruct (decide (x ∈ l)) as [Hin|Hin];
      destruct (decide (x ∈ y :: l)) as [Hin'|Hin']; try done.
    + exfalso. apply Hin'. by right.
    + apply elem_of_cons in Hin' as [->|?]; [|done].
      rewrite filter_app, filter_cons, filter_nil.
      destruct (decide (y ≠ y)); [done|]. by rewrite app_nil_r.
    + rewrite filter_app, filter_cons, filter_nil.
      destruct (decide (x = y)) as [->|Hne]; [exfalso; apply Hin'; by left|].
      destruct (decide (x ≠ y)); [done|contradiction].
Qed.

Lemma chunks_of_path_snoc p chunks chunk :
  chunks_of_path p (chunks ++ [chunk]) =
  chunks_of_path p chunks ++ (if decide (path chunk = p) then [chunk] else []).
Proof.
  unfold chunks_of_path. rewrite filter_app, filter_cons, filter_nil.
  by destruct (decide (path chunk = p)).
Qed.

Lemma chunks_of_path_nil p chunks :
  p ∉ map path chunks → chunks_of_path p chunks = [].
Proof.
  intros Hp. unfold chunks_of_path. induction chunks as [|c chunks IH]; [done|].
  rewrite filter_cons. destruct (decide (path c = p)) as [<-|Hne].
  - exfalso. apply Hp. by left.
  - apply IH. intros Hin. apply Hp. by right.
Qed.

Lemma append_to_groups chunk chunks keys :
  NoDup keys →
  append_to chunk (map (λ p, (p, chunks_of_path p chunks)) keys) =
  map (λ p, (p, chunks_of_path p (chunks ++ [chunk]))) keys
  ++ (if decide (path chunk ∈ keys) then []
      else [(path chunk, [chunk])]).
Proof.
  induction 1 as [|k keys Hk Hnd IH]; simpl.
  - destruct (decide (path chunk ∈ [])) as [?%elem_of_nil|]; done.
  - rewrite chunks_of_path_snoc.
    destruct (decide (k = path chunk)) as [->|Hne].
    + rewrite decide_True by done. rewrite decide_True by (by left).
      rewrite app_nil_r. f_equal. apply map_ext_in.
      intros p Hp%list_elem_of_In. rewrite chunks_of_path_snoc.
      rewrite decide_False; [by rewrite app_nil_r|]. by intros <-.
    + rewrite decide_False by done. rewrite app_nil_r, IH. simpl. f_equal.
      f_equal. destruct (decide (path chunk ∈ keys)) as [Hin|Hin].
      * rewrite decide_True by (by right). done.
      * rewrite decide_False; [done|]. by intros [?|?]%elem_of_cons.
Qed.

Lemma group_by_path_groups chunks :
  group_by_path chunks =
  map (λ p, (p, chunks_of_path p chunks))
      (first_occurrences (map path chunks)).
Proof.
  induction chunks as [|chunk chunks IH] using rev_ind; [done|].
  rewrite group_by_path_snoc, IH, map_app.
  rewrite append_to_groups by apply first_occurrences_NoDup.
  simpl map. rewrite first_occurrences_snoc.
  destruct (decide (path chunk ∈ map path chunks)) as [Hin|Hin].
  - rewrite decide_True by (by apply elem_of_first_occurrences).
    by rewrite app_nil_r.
  - rewrite decide_False by (by rewrite elem_of_first_occurrences).
    rewrite map_app. simpl. rewrite chunks_of_path_snoc.
    rewrite (chunks_of_path_nil _ _ Hin). by rewrite decide_True.
Qed.

(** X4.  The grouping of lines 73 to 79 keeps the order: the groups come
    in the order in which the paths first occur in the chunk list, and the
    group of a path holds the chunks of that path in the order of the
    list.  No path has two groups and no group is empty. *)
Theorem group_by_path_order chunks :
  group_by_path chunks =
    map (λ p, (p, chunks_of_path p chunks))
        (first_occurrences (map path chunks))
  ∧ NoDup (map fst (group_by_path chunks))
  ∧ Forall (λ item, snd item ≠ []) (group_by_path chunks).
Proof.
  split; [apply group_by_path_groups|]. split; [apply group_by_path_NoDup|].
  eapply Forall_impl; [apply group_by_path_ok|]. by intros item [? _].
Qed.

Lemma doc_ids_elem chunks id :
  id ∈ doc_ids chunks ↔ ∃ chunk, chunk ∈ chunks ∧ doc_id chunk = Ok id.
Proof.
  unfold doc_ids. rewrite list_elem_of_omap. split.
  - intros (chunk & Hin & Hid). exists chunk. split; [done|].
    by destruct (doc_id chunk); simplify_eq.
  - intros (chunk & Hin & Hid). exists chunk. by rewrite Hid.
Qed.

Lemma Forall2_elem_of_r {A B} (R : A → B → Prop) l k y :
  Forall2 R l k → y ∈ k → ∃ x, x ∈ l ∧ R x y.
Proof.
  induction 1 as [|x0 y0 l k HR _ IH]; [by intros ?%elem_of_nil|].
  intros [->|Hy]%elem_of_cons.
  - exists x0. split; [by left|done].
  - destruct (IH Hy) as (x & Hx & HRx). exists x. split; [by right|done].
Qed.

Lemma Forall2_elem_of_l {A B} (R : A → B → Prop) l k x :
  Forall2 R l k → x ∈ l → ∃ y, y ∈ k ∧ R x y.
Proof.
  induction 1 as [|x0 y0 l k HR _ IH]; [by intros ?%elem_of_nil|].
  intros [->|Hx]%elem_of_cons.
  - exists y0. split; [by left|done].
  - destruct (IH Hx) as (y & Hy & HRy). exists y. split; [by right|done].
Qed.

(** The file node under which an identifier of the path [p] is found is
    the file node of the chunks of [p]. *)
Lemma file_node_of_leaf chunks r node id chunk :
  built_root chunks = Ok r → node ∈ children r → id ∈ leaf_ids node →
  doc_id chunk = Ok id →
  file_node_of (chunks_of_path (path chunk) chunks) = Ok node
  ∧ chunks_of_path (path chunk) chunks ≠ [].
Proof.
  intros [Hfiles _]%built_root_Ok Hnode Hid Hchunk.
  destruct (Forall2_elem_of_r _ _ _ _ Hfiles Hnode) as (item & Hitem & Hfile).
  rewrite group_by_path_groups in Hitem.
  apply list_elem_of_fmap in Hitem as (q & -> & _). simpl in Hfile.
  destruct (file_node_leaf_ids _ _ Hfile) as [Hleaves _].
  rewrite Hleaves in Hid.
  apply doc_ids_elem in Hid as (c' & Hc' & Hid').
  pose proof Hc' as [Hq _]%list_elem_of_filter.
  rewrite (doc_id_path chunk c' id Hchunk Hid'), Hq.
  split; [done|]. intros Hnil.
  rewrite Hnil in Hc'. by apply elem_of_nil in Hc'.
Qed.

(** The file node of a path that occurs is a child of the root. *)
Lemma file_node_of_child chunks r p node :
  built_root chunks = Ok r →
  file_node_of (chunks_of_path p chunks) = Ok node →
  chunks_of_path p chunks ≠ [] →
  node ∈ children r.
Proof.
  intros [Hfiles _]%built_root_Ok Hnode Hne.
  assert (p ∈ map path chunks) as Hp.
  { destruct (decide (p ∈ map path chunks)) as [|Hn]; [done|].
    by apply chunks_of_path_nil in Hn. }
  assert ((p, chunks_of_path p chunks) ∈ group_by_path chunks) as Hitem.
  { rewrite group_by_path_groups. apply list_elem_of_fmap. exists p.
    split; [done|]. by apply elem_of_first_occurrences. }
  destruct (Forall2_elem_of_l _ _ _ _ Hfiles Hitem) as (node' & Hin & Hfile).
  simpl in Hfile. congruence.
Qed.

Lemma only_in_not_shared nodes others node :
  node ∈ only_in nodes others →
  node ∈ nodes ∧ node ∉ others.
Proof.
  unfold only_in. intros [Hnot Hin%last_by_hash_subseteq]%list_elem_of_filter.
  split; [done|]. intros Hother. apply Hnot.
  apply list_elem_of_fmap. by exists node.
Qed.

(** X5.  A file that did not change is not reported.  When the chunks of
    the path [p] are the same in the two chunk lists, no identifier of a
    chunk of the path [p] is returned, whatever changed in the other
    files. *)
Theorem untouched_file_not_reported before after p (σ : store) :
  buildable before = true → buildable after = true →
  chunks_of_path p before = chunks_of_path p after →
  ∃ σ' l, diff_chunks before after σ = (σ', Ok l)
          ∧ ∀ chunk id, path chunk = p → doc_id chunk = Ok id → id ∉ l.
Proof.
  intros (r1 & Hr1)%built_root_buildable (r2 & Hr2)%built_root_buildable Hp.
  destruct (diff_chunks_roots before after r1 r2 σ Hr1 Hr2) as (σ' & ->).
  destruct (decide (hash_value r1 = hash_value r2)) as [Heq|Hne].
  { rewrite (compare_roots_same _ _ Heq). exists σ', [].
    split; [done|]. by intros ? ? ? ? ?%elem_of_nil. }
  destruct (compare_roots_changed _ _ Hne) as (l & -> & Hl).
  exists σ', l. split; [done|]. intros chunk id <- Hid. rewrite Hl.
  intros (node & Hnode & Hleaf)%elem_of_concat_leaf_ids.
  unfold changed_file_nodes in Hnode.
  apply elem_of_app in Hnode as [[H1 H2]%only_in_not_shared
                                |[H2 H1]%only_in_not_shared].
  - destruct (file_node_of_leaf before r1 node id chunk Hr1 H1 Hleaf Hid)
      as [Hfile Hne'].
    rewrite Hp in Hfile, Hne'.
    by apply H2, (file_node_of_child after r2 (path chunk) node).
  - destruct (file_node_of_leaf after r2 node id chunk Hr2 H2 Hleaf Hid)
      as [Hfile Hne'].
    rewrite <- Hp in Hfile, Hne'.
    by apply H1, (file_node_of_child before r1 (path chunk) node).
Qed.

Lemma untouched_file_not_reported_witness :
  ∃ σ' l,
    diff_chunks [chunk_other; chunk_a; chunk_b]
                [chunk_a; chunk_b_edited; chunk_other] [] = (σ', Ok l)
    ∧ ∀ chunk id, path chunk = lit "other.py" → doc_id chunk = Ok id →
                  id ∉ l.
Proof.
  apply (untouched_file_not_reported
           [chunk_other; chunk_a; chunk_b]
           [chunk_a; chunk_b_edited; chunk_other] (lit "other.py") []).
  - vm_compute. reflexivity.
  - vm_compute. reflexivity.
  - vm_compute. reflexivity.
Defined.

Lemma hexdigest_is_digest bs : is_digest (SHA256.hexdigest bs).
Proof. split; [apply hexdigest_length|]. apply hexdigest_hex_of. Qed.

Lemma hash_children_Ok nodes h :
  hash_children nodes = Ok h →
  (nodes = [] ∧ h = []) ∨ (nodes ≠ [] ∧ is_digest h).
Proof.
  destruct nodes as [|n nodes]; simpl; [intros [= <-]; by left|].
  unfold hash_content, sha256_hex, rmap.
  intros (bs & _ & [= <-])%rbind_Ok. right.
  split; [done|apply hexdigest_is_digest].
Qed.

(** X6.  [hash_children] gives the empty string for no child and for
    nothing else: for one child or more it gives 64 lowercase hexadecimal
    digits, or raises [UnicodeEncodeError] because the digest of a child
    cannot be encoded.  The digests are joined without a separator, so two
    lists of children whose digests join to one string have one digest. *)
Theorem hash_children_digest nodes :
  (∀ h, hash_children nodes = Ok h → (h = [] ↔ nodes = []))
  ∧ (nodes ≠ [] →
     match hash_children nodes with
     | Ok h => is_digest h
     | Raise e =>
         e = UnicodeEncodeError
         ∧ ∃ node, node ∈ nodes ∧ encodable (hash_value node) = false
     end)
  ∧ (∀ nodes', nodes ≠ [] → nodes' ≠ [] →
       concat (map hash_value nodes) = concat (map hash_value nodes') →
       hash_children nodes = hash_children nodes').
Proof.
  split; [|split].
  - intros h [[-> ->]|[Hne [Hlen _]]]%hash_children_Ok; [done|].
    split; [by intros ->|done].
  - intros Hne. destruct (hash_children nodes) as [h|e] eqn:Hh.
    + by apply hash_children_Ok in Hh as [[? _]|[_ ?]].
    + split; [by eapply hash_children_Raise|].
      destruct (decide (Forall (λ node, encodable (hash_value node) = true)
                               nodes)) as [Hall|Hnot].
      * destruct (hash_children_encodable nodes Hall) as (h & Hh').
        congruence.
      * apply not_Forall_Exists in Hnot; [|intros ?; apply _].
        apply Exists_exists in Hnot as (node & Hin & Hnode).
        exists node. split; [done|]. by apply not_true_is_false.
  - intros nodes' Hne Hne' Heq.
    destruct nodes as [|n ns]; [done|]. destruct nodes' as [|n' ns']; [done|].
    unfold hash_children. by rewrite Heq.
Qed.

Lemma hash_children_digest_witness :
  hash_children [leaf "a__1"; leaf "a__2"] = hash_children [leaf "a__1a__2"].
Proof.
  apply (hash_children_digest [leaf "a__1"; leaf "a__2"]); done.
Defined.

Lemma is_leaf_true node : is_leaf node = true ↔ children node = [].
Proof. unfold is_leaf. by destruct (children node). Qed.

Lemma is_leaf_false node : is_leaf node = false ↔ children node ≠ [].
Proof. unfold is_leaf. by destruct (children node). Qed.

Lemma leaf_of_children chunks leaves :
  Forall2 (λ chunk leaf, leaf_of chunk = Ok leaf) chunks leaves →
  Forall (λ leaf, children leaf = []) leaves.
Proof.
  induction 1 as [|c l cs ls [_ Hl]%leaf_of_Ok _ IH]; constructor; done.
Qed.

Lemma file_node_of_well_formed file_chunks node :
  file_chunks ≠ [] → file_node_of file_chunks = Ok node →
  children node ≠ []
  ∧ hash_children (children node) = Ok (hash_value node)
  ∧ is_digest (hash_value node)
  ∧ Forall (λ leaf, children leaf = []) (children node).
Proof.
  intros Hne [Hleaves Hh]%file_node_of_Ok.
  assert (children node ≠ []) as Hch.
  { intros Hnil. rewrite Hnil in Hleaves. by inversion Hleaves. }
  split; [done|]. split; [done|]. split.
  - by apply hash_children_Ok in Hh as [[? _]|[_ ?]].
  - by eapply leaf_of_children.
Qed.

Lemma Forall2_and_l {A B} (P : A → B → Prop) (Q : A → Prop) l k :
  Forall2 P l k → Forall Q l → Forall2 (λ x y, P x y ∧ Q x) l k.
Proof.
  induction 1 as [|x y l k Hxy _ IH]; [constructor|].
  intros [Hx Hl]%Forall_cons. constructor; auto.
Qed.

Lemma built_root_files chunks r :
  built_root chunks = Ok r →
  Forall2 (λ p file, file_node_of (chunks_of_path p chunks) = Ok file
                     ∧ chunks_of_path p chunks ≠ [])
          (first_occurrences (map path chunks)) (children r).
Proof.
  intros [Hfiles _]%built_root_Ok.
  pose proof (group_by_path_ok chunks) as Hok.
  rewrite group_by_path_groups in Hfiles, Hok.
  apply Forall2_fmap_l in Hfiles. apply Forall2_and_l; [done|].
  apply Forall_forall. intros p Hp.
  assert ((p, chunks_of_path p chunks)
          ∈ map (λ p, (p, chunks_of_path p chunks))
                (first_occurrences (map path chunks))) as Hin.
  { apply list_elem_of_fmap. by exists p. }
  eapply Forall_forall in Hok; [|exact Hin]. by destruct Hok.
Qed.

Lemma built_root_leaves chunks r :
  built_root chunks = Ok r →
  Forall (λ leaf, children leaf = []) (concat (map children (children r))).
Proof.
  intros Hfiles%built_root_files. apply Forall_concat, Forall_fmap.
  induction Hfiles as [|p file ps files [Hfile Hne] _ IH]; constructor;
    [|done].
  by destruct (file_node_of_well_formed _ _ Hne Hfile) as (_ & _ & _ & ?).
Qed.

Lemma buildable_doc_id chunks chunk :
  buildable chunks = true → chunk ∈ chunks → ∃ id, doc_id chunk = Ok id.
Proof.
  intros Hb Hin%list_elem_of_In. eapply forallb_forall in Hb; [|done].
  apply andb_prop in Hb as [_ Ht].
  destruct (doc_id_encodable chunk Ht) as (bs & Hid). eauto.
Qed.

Lemma add_leaves_lookup (leaves : list MerkleNode)
    (index : gmap pystr MerkleNode) (key : pystr) :
  Forall (λ leaf, children leaf = []) leaves →
  add_leaves leaves index !! key =
  if decide (key ∈ map hash_value leaves) then Some (mkMerkleNode key [])
  else index !! key.
Proof.
  induction leaves as [|leaf leaves IH] using rev_ind; intros Hall.
  - unfold add_leaves. simpl fold_left. change (map hash_value []) with (@nil pystr).
    destruct (decide (key ∈ [])) as [?%elem_of_nil|]; done.
  - apply Forall_app in Hall as [Hall Hleaf].
    apply (proj1 (Forall_singleton _ _)) in Hleaf.
    rewrite add_leaves_app, map_app. simpl.
    destruct (decide (key = hash_value leaf)) as [->|Hne].
    + rewrite lookup_insert_eq, decide_True.
      * f_equal. destruct leaf; simpl in *. by subst.
      * apply elem_of_app. right. by apply list_elem_of_singleton.
    + rewrite lookup_insert_ne by done. rewrite (IH Hall).
      destruct (decide (key ∈ map hash_value leaves)) as [Hin|Hin].
      * rewrite decide_True; [done|]. apply elem_of_app. by left.
      * rewrite decide_False; [done|].
        intros [?|?%list_elem_of_singleton]%elem_of_app; done.
Qed.

Lemma build_from_chunks_buildable self chunks (σ : store) t :
  σ !! self = Some t → buildable chunks = true →
  ∃ r, built_root chunks = Ok r
       ∧ build_from_chunks self chunks σ =
         (<[self := mkMerkleTree (Some r)
                      (add_leaves (concat (map children (children r)))
                                  (chunk_nodes t))]> σ, Ok self).
Proof.
  intros Ht (r & Hr)%built_root_buildable. exists r. split; [done|].
  by apply build_from_chunks_Ok.
Qed.

(** X7.  A build of chunks that can be encoded leaves a tree of depth two
    with the digests in place: the digest of the root is that of its file
    nodes, every file node is no leaf ([is_leaf] is false), carries the
    digest of its children (64 hexadecimal digits) and has only leaves
    below it ([is_leaf] is true).  There is one
    file node for each path, in the order of first occurrence, and its
    leaves carry the identifiers of the chunks of that path in the order
    of the list.  The root digest is empty for no chunk and 64 hexadecimal
    digits otherwise. *)
Theorem build_well_formed self chunks (σ : store) t :
  σ !! self = Some t → buildable chunks = true →
  ∃ σ' t' r, build_from_chunks self chunks σ = (σ', Ok self)
    ∧ σ' !! self = Some t' ∧ root t' = Some r
    ∧ well_formed r
    ∧ map leaf_ids (children r) =
      map (λ p, doc_ids (chunks_of_path p chunks))
          (first_occurrences (map path chunks))
    ∧ (chunks = [] → r = mkMerkleNode [] [])
    ∧ (chunks ≠ [] → is_digest (hash_value r)).
Proof.
  intros Ht Hb.
  destruct (build_from_chunks_buildable _ _ _ _ Ht Hb) as (r & Hr & Hrun).
  eexists _, _, r. split; [exact Hrun|]. clear Hrun. split.
  { apply list_lookup_insert_eq. by eapply lookup_lt_Some. }
  split; [done|].
  pose proof (built_root_files _ _ Hr) as Hfiles.
  apply built_root_Ok in Hr as Hr'. destruct Hr' as [_ Hh].
  split; [|split; [|split]].
  - split; [done|]. clear Hh. revert Hfiles.
    generalize (children r), (first_occurrences (map path chunks)).
    intros files ps.
    induction 1 as [|p file ps files [Hfile Hne] _ IH]; constructor; [|done].
    destruct (file_node_of_well_formed (chunks_of_path p chunks) file
                Hne Hfile) as (Hch & Hh & Hd & Hleaves).
    split; [by apply is_leaf_false|]. split; [done|]. split; [done|].
    eapply Forall_impl; [exact Hleaves|]. intros leaf. apply is_leaf_true.
  - clear Hh. revert Hfiles.
    generalize (children r), (first_occurrences (map path chunks)).
    intros files ps.
    induction 1 as [|p file ps files [Hfile Hne] _ IH]; [done|].
    simpl. f_equal; [|done]. by apply file_node_leaf_ids.
  - intros ->. simpl in Hfiles. inversion Hfiles as [Hnil|]; subst.
    destruct r as [h cs]. simpl in *. subst. simpl in Hh. congruence.
  - intros Hne. apply hash_children_Ok in Hh as [[Hnil _]|[_ ?]]; [|done].
    rewrite Hnil in Hfiles. inversion Hfiles as [Hps|]; subst.
    destruct chunks as [|chunk chunks]; [done|]. simpl in *. done.
Qed.

Lemma build_well_formed_witness :
  ∃ σ' t' r,
    build_from_chunks 0 [chunk_a; chunk_b] [mkMerkleTree None ∅]
    = (σ', Ok 0%nat)
    ∧ σ' !! 0%nat = Some t' ∧ root t' = Some r ∧ well_formed r.
Proof.
  destruct (build_well_formed 0 [chunk_a; chunk_b] [mkMerkleTree None ∅]
              (mkMerkleTree None ∅) eq_refl)
    as (σ' & t' & r & Hrun & Ht' & Hroot & Hwf & _).
  - vm_compute. reflexivity.
  - exists σ', t', r. exact (conj Hrun (conj Ht' (conj Hroot Hwf))).
Defined.

(** X8.  After a build of chunks that can be encoded, the leaf index
    answers for every chunk of the list: the identifier of the chunk leads
    to the leaf with that identifier and no children.  Every other key is
    as it was before the build, and if every key led to the leaf of its
    own digest before, it does so afterwards. *)
Theorem build_index_lookup self chunks (σ : store) t :
  σ !! self = Some t → buildable chunks = true →
  ∃ σ' t', build_from_chunks self chunks σ = (σ', Ok self)
    ∧ σ' !! self = Some t'
    ∧ (∀ chunk, chunk ∈ chunks →
         ∃ id, doc_id chunk = Ok id
               ∧ chunk_nodes t' !! id = Some (mkMerkleNode id []))
    ∧ (∀ key, key ∉ doc_ids chunks →
         chunk_nodes t' !! key = chunk_nodes t !! key)
    ∧ (index_ok (chunk_nodes t) → index_ok (chunk_nodes t')).
Proof.
  intros Ht Hb.
  destruct (build_from_chunks_buildable _ _ _ _ Ht Hb) as (r & Hr & Hrun).
  eexists _, _. split; [exact Hrun|]. clear Hrun. split.
  { apply list_lookup_insert_eq. by eapply lookup_lt_Some. }
  simpl.
  assert (∀ key, key ∈ map hash_value (concat (map children (children r)))
                 ↔ key ∈ doc_ids chunks) as Hkeys.
  { intros key. rewrite leaf_ids_concat.
    by rewrite (built_root_leaf_ids_perm _ _ Hr). }
  pose proof (built_root_leaves _ _ Hr) as Hleaves.
  split; [|split].
  - intros chunk Hin.
    destruct (buildable_doc_id chunks chunk Hb Hin) as (id & Hid).
    exists id. split; [done|].
    rewrite (add_leaves_lookup _ _ _ Hleaves), decide_True; [done|].
    apply Hkeys, doc_ids_elem. eauto.
  - intros key Hkey. rewrite (add_leaves_lookup _ _ _ Hleaves).
    rewrite decide_False; [done|]. by rewrite Hkeys.
  - intros Hok key node. rewrite (add_leaves_lookup _ _ _ Hleaves).
    destruct (decide _); [by intros [= <-]|apply Hok].
Qed.

Lemma build_index_lookup_witness :
  ∃ σ' t',
    build_from_chunks 0 [chunk_a; chunk_b] [mkMerkleTree None ∅]
    = (σ', Ok 0%nat)
    ∧ σ' !! 0%nat = Some t'
    ∧ (∃ id, doc_id chunk_b = Ok id
             ∧ chunk_nodes t' !! id = Some (mkMerkleNode id []))
    ∧ index_ok (chunk_nodes t').
Proof.
  destruct (build_index_lookup 0 [chunk_a; chunk_b] [mkMerkleTree None ∅]
              (mkMerkleTree None ∅) eq_refl)
    as (σ' & t' & Hrun & Ht' & Hget & _ & Hok).
  - vm_compute. reflexivity.
  - exists σ', t'. split; [exact Hrun|]. split; [exact Ht'|]. split.
    + apply Hget. apply elem_of_cons. right. apply elem_of_cons. by left.
    + apply Hok. intros key node Hk.
      change ((∅ : gmap pystr MerkleNode) !! key = Some node) in Hk.
      by rewrite lookup_empty in Hk.
Defined.

(** X9.  A build works on its own object only: the store keeps its length
    (no object is made), every other object is as it was, and this holds
    also when the build raises.  A build that returns gives back the
    object itself; a build that raises raises [UnicodeEncodeError] and
    leaves the root as it was. *)
Theorem build_frame self chunks (σ : store) t :
  σ !! self = Some t →
  length (fst (build_from_chunks self chunks σ)) = length σ
  ∧ (∀ other, other ≠ self →
       fst (build_from_chunks self chunks σ) !! other = σ !! other)
  ∧ match snd (build_from_chunks self chunks σ) with
    | Ok x => x = self
    | Raise e =>
        e = UnicodeEncodeError
        ∧ ∃ t', fst (build_from_chunks self chunks σ) !! self = Some t'
                ∧ root t' = root t
    end.
Proof.
  intros Ht. destruct (built_root chunks) as [r|e] eqn:Hr.
  - rewrite (build_from_chunks_Ok self chunks σ t r Ht Hr). simpl.
    split; [apply length_insert|].
    split; [|done]. intros other Hne. by apply list_lookup_insert_ne.
  - destruct (build_from_chunks_Raise self chunks σ t e Ht Hr)
      as (σ'' & Hrun' & Hlen & Hother & Hself).
    rewrite Hrun'. simpl.
    split; [done|]. split; [done|]. split.
    + by eapply built_root_Raise.
    + destruct (Hself t Ht) as (t' & Ht' & Hroot & _). eauto.
Qed.

Lemma build_frame_witness :
  fst (build_from_chunks 0 [chunk_a; chunk_b]
         [mkMerkleTree None ∅; mkMerkleTree None ∅]) !! 1%nat
  = Some (mkMerkleTree None ∅).
Proof.
  destruct (build_frame 0 [chunk_a; chunk_b]
              [mkMerkleTree None ∅; mkMerkleTree None ∅]
              (mkMerkleTree None ∅) eq_refl) as (_ & Hother & _).
  apply (Hother 1%nat). by intros [=].
Defined.

(** ** What a diff does not see, and what it reports in full *)

Lemma same_content_doc_id c1 c2 : same_content c1 c2 → doc_id c1 = doc_id c2.
Proof. intros [Hp Hn]. by rewrite !doc_id_unfold, Hp, Hn. Qed.

Lemma file_node_of_same cs1 cs2 :
  Forall2 same_content cs1 cs2 → file_node_of cs1 = file_node_of cs2.
Proof.
  intros Hsame. unfold file_node_of. f_equal.
  induction Hsame as [|c1 c2 cs1 cs2 Hc _ IH]; [done|].
  simpl. unfold leaf_of at 1 3. by rewrite (same_content_doc_id _ _ Hc), IH.
Qed.

Lemma chunks_of_path_same p before after :
  Forall2 same_content before after →
  Forall2 same_content (chunks_of_path p before) (chunks_of_path p after).
Proof.
  unfold chunks_of_path.
  induction 1 as [|c1 c2 cs1 cs2 Hc _ IH]; [constructor|].
  rewrite !filter_cons. destruct Hc as [Hp Hn].
  destruct (decide (path c1 = p)) as [H1|H1].
  - rewrite decide_True by congruence. by constructor.
  - rewrite decide_False by congruence. done.
Qed.

Lemma map_path_same before after :
  Forall2 same_content before after → map path before = map path after.
Proof.
  induction 1 as [|c1 c2 cs1 cs2 [Hp _] _ IH]; [done|].
  simpl. by rewrite Hp, IH.
Qed.

Lemma built_root_same before after :
  Forall2 same_content before after → built_root before = built_root after.
Proof.
  intros Hsame. unfold built_root. rewrite !group_by_path_groups.
  rewrite (map_path_same _ _ Hsame). f_equal.
  induction (first_occurrences (map path after)) as [|p ps IH]; [done|].
  simpl. rewrite IH.
  by rewrite (file_node_of_same _ _ (chunks_of_path_same p _ _ Hsame)).
Qed.

Lemma diff_chunks_equal_roots before after (σ : store) :
  built_root before = built_root after →
  ∃ σ', diff_chunks before after σ =
        (σ', rbind (built_root before) (λ _, Ok [])).
Proof.
  intros Heq. destruct (built_root before) as [r|e] eqn:Hr; simpl.
  - destruct (diff_chunks_roots before after r r σ Hr) as (σ' & ->); [done|].
    exists σ'. by rewrite compare_roots_same.
  - unfold diff_chunks. rewrite M_bind_unfold.
    destruct (build_tree_Raise before _ σ Hr) as (σ' & ->). by exists σ'.
Qed.

Lemma diff_chunks_outcome before after (σ σ' : store) :
  diff_chunks before after σ = (σ', rbind (built_root before) (λ _, Ok [])) →
  diff_chunks before after σ =
  (σ', if buildable before then Ok [] else Raise UnicodeEncodeError).
Proof.
  intros ->. destruct (buildable before) eqn:Hb.
  - by destruct (built_root_buildable before Hb) as (r & ->).
  - by rewrite (built_root_not_buildable before Hb).
Qed.

(** X10.  A diff does not see layout.  When the new chunk list has, chunk
    for chunk, the path and the normalized text of the old one (the
    indentation, the blank lines, the line numbers and the kinds may
    differ), nothing is reported; if a text cannot be encoded the first
    build raises. *)
Theorem diff_ignores_layout before after (σ : store) :
  Forall2 same_content before after →
  ∃ σ', diff_chunks before after σ =
        (σ', if buildable before then Ok [] else Raise UnicodeEncodeError).
Proof.
  intros Hsame%built_root_same.
  destruct (diff_chunks_equal_roots before after σ Hsame) as (σ' & Hrun).
  exists σ'. by apply diff_chunks_outcome.
Qed.

Lemma diff_ignores_layout_witness :
  ∃ σ', diff_chunks [chunk_a; chunk_b] [chunk_a_reformatted; chunk_b] [] =
        (σ', Ok []).
Proof.
  destruct (diff_ignores_layout [chunk_a; chunk_b]
              [chunk_a_reformatted; chunk_b] []) as (σ' & Hrun).
  - constructor; [|constructor; [|constructor]]; split; vm_compute;
      reflexivity.
  - exists σ'. rewrite Hrun.
    assert (buildable [chunk_a; chunk_b] = true) as ->
      by (vm_compute; reflexivity).
    reflexivity.
Defined.

Lemma chunks_of_path_elem p chunks chunk :
  chunk ∈ chunks_of_path p chunks ↔ path chunk = p ∧ chunk ∈ chunks.
Proof. unfold chunks_of_path. by rewrite list_elem_of_filter. Qed.

Lemma same_files_elem before after chunk :
  (∀ p, chunks_of_path p before = chunks_of_path p after) →
  chunk ∈ before ↔ chunk ∈ after.
Proof.
  intros Hp. split; intros Hin.
  - eapply (chunks_of_path_elem (path chunk)). rewrite <- Hp.
    by apply chunks_of_path_elem.
  - eapply (chunks_of_path_elem (path chunk)). rewrite Hp.
    by apply chunks_of_path_elem.
Qed.

Lemma same_files_buildable before after :
  (∀ p, chunks_of_path p before = chunks_of_path p after) →
  buildable before = buildable after.
Proof.
  intros Hp. apply eq_true_iff_eq. unfold buildable.
  rewrite !forallb_forall. split; intros Hall chunk Hin%list_elem_of_In;
    apply Hall, list_elem_of_In; by apply (same_files_elem before after).
Qed.

(** X11.  A diff does not see the order of the files.  When every path
    has the same chunks, in the same order, in the two chunk lists, the
    chunks of different paths may be interleaved in any way: nothing is
    reported, although the two root digests may differ. *)
Theorem diff_ignores_file_order before after (σ : store) :
  (∀ p, chunks_of_path p before = chunks_of_path p after) →
  ∃ σ', diff_chunks before after σ =
        (σ', if buildable before then Ok [] else Raise UnicodeEncodeError).
Proof.
  intros Hp. destruct (buildable before) eqn:Hb.
  - pose proof Hb as Ha. rewrite (same_files_buildable _ _ Hp) in Ha.
    destruct (built_root_buildable before Hb) as (r1 & Hr1).
    destruct (built_root_buildable after Ha) as (r2 & Hr2).
    destruct (diff_chunks_roots before after r1 r2 σ Hr1 Hr2) as (σ' & ->).
    exists σ'. f_equal.
    destruct (decide (hash_value r1 = hash_value r2)) as [Heq|Hne];
      [by apply compare_roots_same|].
    destruct (compare_roots_changed _ _ Hne) as (l & -> & Hl). f_equal.
    apply elem_of_nil_inv. intros id. rewrite Hl.
    intros (node & Hnode & Hleaf)%elem_of_concat_leaf_ids.
    unfold changed_file_nodes in Hnode.
    apply elem_of_app in Hnode as [[H1 H2]%only_in_not_shared
                                  |[H2 H1]%only_in_not_shared].
    + assert (id ∈ doc_ids before) as (chunk & _ & Hid)%doc_ids_elem.
      { rewrite <- (built_root_leaf_ids_perm before r1 Hr1).
        apply elem_of_concat_leaf_ids. eauto. }
      destruct (file_node_of_leaf before r1 node id chunk Hr1 H1 Hleaf Hid)
        as [Hfile Hne'].
      rewrite Hp in Hfile, Hne'.
      by apply H2, (file_node_of_child after r2 (path chunk) node).
    + assert (id ∈ doc_ids after) as (chunk & _ & Hid)%doc_ids_elem.
      { rewrite <- (built_root_leaf_ids_perm after r2 Hr2).
        apply elem_of_concat_leaf_ids. eauto. }
      destruct (file_node_of_leaf after r2 node id chunk Hr2 H2 Hleaf Hid)
        as [Hfile Hne'].
      rewrite <- Hp in Hfile, Hne'.
      by apply H1, (file_node_of_child before r1 (path chunk) node).
  - unfold diff_chunks. rewrite M_bind_unfold.
    destruct (build_tree_Raise before _ σ (built_root_not_buildable _ Hb))
      as (σ' & ->).
    by exists σ'.
Qed.

Lemma diff_ignores_file_order_witness :
  roots_differ [chunk_other; chunk_a; chunk_b]
               [chunk_a; chunk_other; chunk_b] = true
  ∧ ∃ σ', diff_chunks [chunk_other; chunk_a; chunk_b]
                      [chunk_a; chunk_other; chunk_b] [] = (σ', Ok []).
Proof.
  split; [vm_compute; reflexivity|].
  destruct (diff_ignores_file_order [chunk_other; chunk_a; chunk_b]
              [chunk_a; chunk_other; chunk_b] []) as (σ' & Hrun).
  - intros p. unfold chunks_of_path. rewrite !filter_cons, !filter_nil.
    destruct (decide (path chunk_other = p)) as [Ho|Ho];
      destruct (decide (path chunk_a = p)) as [Ha|Ha];
      destruct (decide (path chunk_b = p)) as [Hb|Hb];
      try reflexivity; rewrite <- Ho in Ha; vm_compute in Ha; discriminate.
  - exists σ'. rewrite Hrun.
    assert (buildable [chunk_other; chunk_a; chunk_b] = true) as ->
      by (vm_compute; reflexivity).
    reflexivity.
Defined.

Lemma only_in_nil others : only_in [] others = [].
Proof. done. Qed.

Lemma only_in_one file others :
  hash_value file ∉ map hash_value others → only_in [file] others = [file].
Proof.
  intros Hnot. unfold only_in. cbn [last_by_hash map].
  destruct (decide (hash_value file ∈ [])) as [?%elem_of_nil|_]; [done|].
  rewrite filter_cons, filter_nil. by rewrite decide_True.
Qed.

Lemma file_digest_differs r1 r2 f1 f2 :
  hash_children [f1] = Ok (hash_value r1) →
  hash_children [f2] = Ok (hash_value r2) →
  hash_value r1 ≠ hash_value r2 → hash_value f1 ≠ hash_value f2.
Proof.
  unfold hash_children. simpl. intros H1 H2 Hne Heq.
  rewrite Heq in H1. congruence.
Qed.

Lemma built_root_nil r : built_root [] = Ok r → r = mkMerkleNode [] [].
Proof. by intros [= <-]. Qed.

Lemma one_path_changed_ids p before after r1 r2 :
  Forall (λ chunk, path chunk = p) before →
  Forall (λ chunk, path chunk = p) after →
  built_root before = Ok r1 → built_root after = Ok r2 →
  hash_value r1 ≠ hash_value r2 →
  concat (map leaf_ids (changed_file_nodes r1 r2))
  = doc_ids before ++ doc_ids after.
Proof.
  intros Hp1 Hp2 Hr1 Hr2 Hne. unfold changed_file_nodes.
  destruct (decide (before = [])) as [->|Hb], (decide (after = [])) as [->|Ha].
  - apply built_root_nil in Hr1, Hr2. by subst.
  - apply built_root_nil in Hr1. subst r1.
    destruct (built_root_one_path p after r2 Ha Hp2 Hr2)
      as (f2 & Hc2 & Hl2 & _).
    rewrite Hc2. simpl children. rewrite only_in_nil, only_in_one.
    + simpl. by rewrite Hl2, app_nil_r.
    + apply not_elem_of_nil.
  - apply built_root_nil in Hr2. subst r2.
    destruct (built_root_one_path p before r1 Hb Hp1 Hr1)
      as (f1 & Hc1 & Hl1 & _).
    rewrite Hc1. simpl children. rewrite only_in_nil, only_in_one.
    + simpl. by rewrite Hl1, !app_nil_r.
    + apply not_elem_of_nil.
  - destruct (built_root_one_path p before r1 Hb Hp1 Hr1)
      as (f1 & Hc1 & Hl1 & Hh1).
    destruct (built_root_one_path p after r2 Ha Hp2 Hr2)
      as (f2 & Hc2 & Hl2 & Hh2).
    pose proof (file_digest_differs _ _ _ _ Hh1 Hh2 Hne) as Hf.
    rewrite Hc1, Hc2, !only_in_one.
    + simpl. by rewrite Hl1, Hl2, app_nil_r.
    + simpl. by intros ?%list_elem_of_singleton.
    + simpl. by intros ?%list_elem_of_singleton.
Qed.

Lemma details_loop changed chunks : ∀ details,
  Forall (λ chunk, ∃ id, doc_id chunk = Ok id ∧ id ∈ changed) chunks →
  rfor (add_detail changed) chunks details = Ok (details ++ chunks).
Proof.
  induction chunks as [|chunk chunks IH]; intros details Hall; simpl.
  - by rewrite app_nil_r.
  - apply Forall_cons in Hall as [(id & Hid & Hin) Hall].
    unfold add_detail at 1. rewrite Hid. simpl.
    rewrite decide_True by done. simpl.
    rewrite (IH _ Hall). by rewrite <- app_assoc.
Qed.

(** X12.  Within one file the diff is all or nothing.  When both chunk
    lists are of one path and the two root digests differ, every
    identifier of the old list and every identifier of the new list is
    returned, the identifier of an unchanged chunk twice; and the listing
    of [demo] then shows every chunk of the new list, changed or not. *)
Theorem one_file_all_reported p before after (σ : store) :
  Forall (λ chunk, path chunk = p) before →
  Forall (λ chunk, path chunk = p) after →
  roots_differ before after = true →
  ∃ σ' l, diff_chunks before after σ = (σ', Ok l)
          ∧ l ≡ₚ doc_ids before ++ doc_ids after
          ∧ changed_details after l = Ok after.
Proof.
  intros Hp1 Hp2 Hdiff. unfold roots_differ in Hdiff.
  destruct (built_root before) as [r1|] eqn:Hr1; [|done].
  destruct (built_root after) as [r2|] eqn:Hr2; [|done].
  apply bool_decide_eq_true in Hdiff.
  destruct (diff_chunks_roots before after r1 r2 σ Hr1 Hr2) as (σ' & ->).
  destruct (compare_roots_changed _ _ Hdiff) as (l & -> & Hl).
  rewrite (one_path_changed_ids p before after r1 r2) in Hl by done.
  exists σ', l. split; [done|]. split; [done|].
  unfold changed_details. rewrite details_loop; [done|].
  apply Forall_forall. intros chunk Hin.
  destruct (buildable_doc_id after chunk) as (id & Hid);
    [by eapply built_root_Ok_buildable|done|].
  exists id. split; [done|]. rewrite Hl. apply elem_of_app. right.
  apply doc_ids_elem. eauto.
Qed.

Lemma one_file_all_reported_witness :
  ∃ σ' l,
    diff_chunks [chunk_a; chunk_b] [chunk_a; chunk_b_edited] [] = (σ', Ok l)
    ∧ l ≡ₚ doc_ids [chunk_a; chunk_b] ++ doc_ids [chunk_a; chunk_b_edited]
    ∧ changed_details [chunk_a; chunk_b_edited] l
      = Ok [chunk_a; chunk_b_edited].
Proof.
  apply (one_file_all_reported (lit "m.py")).
  - repeat constructor.
  - repeat constructor.
  - vm_compute. reflexivity.
Defined.

(** X13.  Against a tree that was never built, [compare] consults no
    tree at all: it returns the keys of the two leaf indexes, each key
    once, also the keys that an earlier build left in an index and that
    are under no root any more. *)
Theorem compare_unbuilt self other (σ : store) t1 t2 :
  σ !! self = Some t1 → σ !! other = Some t2 →
  root t1 = None ∨ root t2 = None →
  ∃ l, compare self other σ = (σ, Ok l)
       ∧ NoDup l
       ∧ ∀ id, id ∈ l ↔ is_Some (chunk_nodes t1 !! id)
                        ∨ is_Some (chunk_nodes t2 !! id).
Proof.
  intros H1 H2 Hroot. eexists. split; [by apply compare_no_root|].
  split; [apply NoDup_elements|]. intros id.
  by rewrite elem_of_elements, elem_of_union, !elem_of_dom.
Qed.

Lemma compare_unbuilt_witness :
  ∃ l, compare 0 1 unbuilt_store = (unbuilt_store, Ok l)
       ∧ NoDup l
       ∧ ∀ id, id ∈ l ↔
           is_Some (({[lit "a" := leaf "a"]} : gmap pystr MerkleNode) !! id)
           ∨ is_Some (({[lit "b" := leaf "b"]} : gmap pystr MerkleNode) !! id).
Proof.
  apply (compare_unbuilt 0 1 unbuilt_store
           (mkMerkleTree None {[lit "a" := leaf "a"]})
           (mkMerkleTree (Some (leaf "r")) {[lit "b" := leaf "b"]})
           eq_refl eq_refl).
  by left.
Defined.

Lemma collision_free_spec nodes n1 n2 :
  collision_free nodes = true → n1 ∈ nodes → n2 ∈ nodes →
  hash_value n1 = hash_value n2 → leaf_ids n1 = leaf_ids n2.
Proof.
  unfold collision_free. rewrite forallb_forall.
  intros Hall H1%list_elem_of_In H2%list_elem_of_In Heq.
  specialize (Hall n1 H1). rewrite forallb_forall in Hall.
  specialize (Hall n2 H2). apply orb_prop in Hall as [Hne|Hl].
  - apply negb_true_iff, bool_decide_eq_false in Hne. done.
  - by apply bool_decide_eq_true in Hl.
Qed.

(** An identifier that only one of two collision-free trees has is under a
    file node that the diff reports. *)
Lemma one_sided_id_reported r1 r2 id :
  collision_free ((r1 :: children r1) ++ (r2 :: children r2)) = true →
  id ∈ concat (map leaf_ids (children r2)) →
  id ∉ concat (map leaf_ids (children r1)) →
  hash_value r1 ≠ hash_value r2
  ∧ ∃ node, node ∈ only_in (children r2) (children r1) ∧ id ∈ leaf_ids node.
Proof.
  intros Hcf (f2 & Hf2 & Hid)%elem_of_concat_leaf_ids Hnot.
  assert (∀ n, n ∈ r1 :: children r1 → n ∈ (r1 :: children r1)
                                          ++ (r2 :: children r2)) as Hin1.
  { intros n Hn. apply elem_of_app. by left. }
  assert (∀ n, n ∈ r2 :: children r2 → n ∈ (r1 :: children r1)
                                          ++ (r2 :: children r2)) as Hin2.
  { intros n Hn. apply elem_of_app. by right. }
  assert (hash_value f2 ∉ map hash_value (children r1)) as Hnew.
  { intros (f1 & Hh & Hf1)%list_elem_of_fmap. apply Hnot.
    apply elem_of_concat_leaf_ids. exists f1. split; [done|].
    rewrite (collision_free_spec _ f1 f2 Hcf); [done| | |done].
    - apply Hin1. by right.
    - apply Hin2. by right. }
  split.
  - intros Heq. apply Hnew.
    pose proof (collision_free_spec _ r1 r2 Hcf) as Hroots.
    unfold leaf_ids in Hroots. rewrite Hroots; [| | |done].
    + apply list_elem_of_fmap. by exists f2.
    + apply Hin1. by left.
    + apply Hin2. by left.
  - assert (hash_value f2 ∈ map hash_value (last_by_hash (children r2)))
      as (g & Hg & Hlast)%list_elem_of_fmap.
    { apply last_by_hash_hashes, list_elem_of_fmap. by exists f2. }
    exists g. split.
    + unfold only_in. apply list_elem_of_filter. split; [|done].
      by rewrite <- Hg.
    + rewrite (collision_free_spec _ g f2 Hcf); [done| | |done].
      * apply Hin2. right. by apply last_by_hash_subseteq.
      * apply Hin2. by right.
Qed.

Lemma collision_free_comm l1 l2 :
  collision_free (l1 ++ l2) = true → collision_free (l2 ++ l1) = true.
Proof.
  unfold collision_free. rewrite !forallb_forall. intros Hall n1 Hn1.
  rewrite forallb_forall. intros n2 Hn2.
  assert (∀ n, In n (l2 ++ l1) → In n (l1 ++ l2)) as Hswap.
  { intros n. rewrite !in_app_iff. tauto. }
  specialize (Hall n1 (Hswap _ Hn1)). rewrite forallb_forall in Hall.
  exact (Hall n2 (Hswap _ Hn2)).
Qed.

(** X19.  A diff misses no change, as far as the digests tell nodes
    apart.  When the root and the file nodes of the two trees are free of
    collisions, every identifier that only one of the two chunk lists has
    (the chunk was added, removed or edited) is returned. *)
Theorem diff_complete before after (σ : store) :
  buildable before = true → buildable after = true →
  collision_free (tree_nodes before ++ tree_nodes after) = true →
  ∃ σ' l, diff_chunks before after σ = (σ', Ok l)
    ∧ ∀ id, (id ∈ doc_ids before ∧ id ∉ doc_ids after)
            ∨ (id ∈ doc_ids after ∧ id ∉ doc_ids before) → id ∈ l.
Proof.
  intros (r1 & Hr1)%built_root_buildable (r2 & Hr2)%built_root_buildable.
  unfold tree_nodes. rewrite Hr1, Hr2. intros Hcf.
  destruct (diff_chunks_roots before after r1 r2 σ Hr1 Hr2) as (σ' & ->).
  pose proof (built_root_leaf_ids_perm before r1 Hr1) as Hids1.
  pose proof (built_root_leaf_ids_perm after r2 Hr2) as Hids2.
  destruct (decide (hash_value r1 = hash_value r2)) as [Heq|Hne].
  - rewrite (compare_roots_same _ _ Heq). exists σ', [].
    split; [done|]. intros id. rewrite <- Hids1, <- Hids2.
    intros [[Hin Hnot]|[Hin Hnot]].
    + by destruct (one_sided_id_reported r2 r1 id
                     (collision_free_comm _ _ Hcf) Hin Hnot) as [? _].
    + by destruct (one_sided_id_reported r1 r2 id Hcf Hin Hnot) as [? _].
  - destruct (compare_roots_changed _ _ Hne) as (l & -> & Hl).
    exists σ', l. split; [done|]. intros id. rewrite <- Hids1, <- Hids2.
    intros Hid. rewrite Hl. apply elem_of_concat_leaf_ids.
    unfold changed_file_nodes. setoid_rewrite elem_of_app.
    destruct Hid as [[Hin Hnot]|[Hin Hnot]].
    + destruct (one_sided_id_reported r2 r1 id
                  (collision_free_comm _ _ Hcf) Hin Hnot)
        as (_ & node & Hnode & Hleaf). eauto.
    + destruct (one_sided_id_reported r1 r2 id Hcf Hin Hnot)
        as (_ & node & Hnode & Hleaf). eauto.
Qed.

Lemma diff_complete_witness :
  ∃ σ' l,
    diff_chunks [chunk_other; chunk_a; chunk_b]
                [chunk_a; chunk_b_edited; chunk_other] [] = (σ', Ok l)
    ∧ ∀ id, (id ∈ doc_ids [chunk_other; chunk_a; chunk_b]
             ∧ id ∉ doc_ids [chunk_a; chunk_b_edited; chunk_other])
            ∨ (id ∈ doc_ids [chunk_a; chunk_b_edited; chunk_other]
               ∧ id ∉ doc_ids [chunk_other; chunk_a; chunk_b]) → id ∈ l.
Proof.
  apply (diff_complete [chunk_other; chunk_a; chunk_b]
           [chunk_a; chunk_b_edited; chunk_other] []).
  - vm_compute. reflexivity.
  - vm_compute. reflexivity.
  - vm_compute. reflexivity.
Defined.

(** ** Text: the codec and the normalization *)

Lemma is_cont_bounds b : is_cont b = true → 128 ≤ b < 192.
Proof. unfold is_cont. intros [?%N.leb_le ?%N.ltb_lt]%andb_prop. lia. Qed.

Lemma encode_char_2 b0 b1 :
  192 ≤ b0 < 224 → is_cont b1 = true →
  128 ≤ (b0 - 192) * 64 + (b1 - 128) →
  encode_char ((b0 - 192) * 64 + (b1 - 128)) = Ok [b0; b1].
Proof.
  intros H0 H1%is_cont_bounds Hc. unfold encode_char. settle_tests.
  f_equal. f_equal; [euclid|]. f_equal. euclid.
Qed.

Lemma encode_char_3 b0 b1 b2 :
  224 ≤ b0 < 240 → is_cont b1 = true → is_cont b2 = true →
  2048 ≤ ((b0 - 224) * 64 + (b1 - 128)) * 64 + (b2 - 128) →
  is_surrogate (((b0 - 224) * 64 + (b1 - 128)) * 64 + (b2 - 128)) = false →
  encode_char (((b0 - 224) * 64 + (b1 - 128)) * 64 + (b2 - 128))
  = Ok [b0; b1; b2].
Proof.
  intros H0 H1%is_cont_bounds H2%is_cont_bounds Hc Hs.
  unfold encode_char. fold (is_surrogate
    (((b0 - 224) * 64 + (b1 - 128)) * 64 + (b2 - 128))). rewrite Hs.
  set (c := ((b0 - 224) * 64 + (b1 - 128)) * 64 + (b2 - 128)) in *.
  assert (c < 65536) by (unfold c; lia).
  rewrite (proj2 (N.ltb_ge c 128)) by lia.
  rewrite (proj2 (N.ltb_ge c 2048)) by lia.
  rewrite (proj2 (N.ltb_lt c 65536)) by lia.
  pose proof (N.Div0.div_div c 64 64) as Hdd.
  change (64 * 64) with 4096 in Hdd. rewrite <- Hdd.
  f_equal. unfold c. f_equal; [euclid|]. f_equal; [euclid|]. f_equal. euclid.
Qed.

Lemma encode_char_4 b0 b1 b2 b3 :
  240 ≤ b0 < 248 → is_cont b1 = true → is_cont b2 = true →
  is_cont b3 = true →
  65536 ≤ (((b0 - 240) * 64 + (b1 - 128)) * 64 + (b2 - 128)) * 64
          + (b3 - 128) < 1114112 →
  encode_char ((((b0 - 240) * 64 + (b1 - 128)) * 64 + (b2 - 128)) * 64
               + (b3 - 128))
  = Ok [b0; b1; b2; b3].
Proof.
  intros H0 H1%is_cont_bounds H2%is_cont_bounds H3%is_cont_bounds Hc.
  unfold encode_char.
  set (c := (((b0 - 240) * 64 + (b1 - 128)) * 64 + (b2 - 128)) * 64
            + (b3 - 128)) in *.
  rewrite (proj2 (N.ltb_ge c 128)) by lia.
  rewrite (proj2 (N.ltb_ge c 2048)) by lia.
  rewrite (proj2 (N.ltb_ge c 65536)) by lia.
  rewrite (proj2 (N.ltb_lt c 1114112)) by lia.
  pose proof (N.Div0.div_div c 64 64) as Hdd.
  change (64 * 64) with 4096 in Hdd.
  pose proof (N.Div0.div_div c 4096 64) as Hdd'.
  change (4096 * 64) with 262144 in Hdd'.
  rewrite <- Hdd', <- Hdd.
  f_equal. unfold c.
  f_equal; [euclid|]. f_equal; [euclid|]. f_equal; [euclid|]. f_equal. euclid.
Qed.

(** What the decoder reads first is the encoding of a character. *)
Lemma decode_step bs s :
  decode bs = Ok s →
  (bs = [] ∧ s = [])
  ∨ ∃ c b rest s', bs = b ++ rest ∧ s = c :: s' ∧ b ≠ []
                   ∧ encode_char c = Ok b ∧ decode rest = Ok s'.
Proof.
  destruct bs as [|b0 bs1]; [intros [= <-]; by left|].
  rewrite decode_cons. intros Hdec. right.
  destruct (N.ltb_spec b0 128) as [H0|H0].
  { apply rbind_Ok in Hdec as (s' & Hs' & [= <-]).
    exists b0, [b0], bs1, s'. repeat split; try done.
    unfold encode_char. by rewrite (proj2 (N.ltb_lt b0 128)). }
  destruct (N.ltb_spec b0 192) as [H1|H1]; [done|].
  destruct (N.ltb_spec b0 224) as [H2|H2].
  { destruct bs1 as [|b1 bs2]; [done|]. cbv zeta in Hdec.
    destruct (is_cont b1 && _) eqn:Hok; [|done].
    apply andb_prop in Hok as [Hb1 Hc%N.leb_le].
    apply rbind_Ok in Hdec as (s' & Hs' & [= <-]).
    eexists _, [b0; b1], bs2, s'. repeat split; try done.
    by apply encode_char_2. }
  destruct (N.ltb_spec b0 240) as [H3|H3].
  { destruct bs1 as [|b1 [|b2 bs3]]; [done..|]. cbv zeta in Hdec.
    destruct (is_cont b1 && _ && _ && _) eqn:Hok; [|done].
    apply andb_prop in Hok as [[[Hb1 Hb2]%andb_prop Hc%N.leb_le]%andb_prop
                               Hs%negb_true_iff].
    apply rbind_Ok in Hdec as (s' & Hs' & [= <-]).
    eexists _, [b0; b1; b2], bs3, s'. repeat split; try done.
    by apply encode_char_3. }
  destruct (N.ltb_spec b0 248) as [H4|H4]; [|done].
  destruct bs1 as [|b1 [|b2 [|b3 bs4]]]; [done..|]. cbv zeta in Hdec.
  destruct (is_cont b1 && _ && _ && _ && _) eqn:Hok; [|done].
  apply andb_prop in Hok
    as [[[[Hb1 Hb2]%andb_prop Hb3]%andb_prop Hc%N.leb_le]%andb_prop
        Hc'%N.ltb_lt].
  apply rbind_Ok in Hdec as (s' & Hs' & [= <-]).
  eexists _, [b0; b1; b2; b3], bs4, s'. repeat split; try done.
  by apply encode_char_4.
Qed.

Lemma decode_Ok_encode bs : ∀ s, decode bs = Ok s → encode s = Ok bs.
Proof.
  induction bs as [bs IH] using (induction_ltof1 _ (@length N)).
  unfold ltof in IH. intros s Hdec.
  destruct (decode_step bs s Hdec)
    as [[-> ->]|(c & b & rest & s' & -> & -> & Hne & Hc & Hrest)]; [done|].
  simpl. rewrite Hc. simpl. rewrite (IH rest); [done| |done].
  rewrite length_app. destruct b; [done|]. simpl. lia.
Qed.

Lemma decode_Raise bs e : decode bs = Raise e → e = UnicodeDecodeError.
Proof.
  induction bs as [bs IH] using (induction_ltof1 _ (@length N)).
  unfold ltof in IH. destruct bs as [|b0 bs1]; [done|].
  assert (∀ c rest, (length rest < length (b0 :: bs1))%nat →
            rmap (cons c) (decode rest) = Raise e → e = UnicodeDecodeError)
    as Hrec.
  { intros c rest Hlen Hr. apply (IH rest Hlen).
    unfold rmap in Hr. by destruct (decode rest). }
  rewrite decode_cons.
  destruct (b0 <? 128); [apply Hrec; simpl; lia|].
  destruct (b0 <? 192); [by intros [= <-]|].
  destruct (b0 <? 224).
  { destruct bs1 as [|b1 bs2]; [by intros [= <-]|]. cbv zeta.
    destruct (_ && _); [apply Hrec; simpl; lia|by intros [= <-]]. }
  destruct (b0 <? 240).
  { destruct bs1 as [|b1 [|b2 bs3]]; try by intros [= <-]. cbv zeta.
    destruct (_ && _); [apply Hrec; simpl; lia|by intros [= <-]]. }
  destruct (b0 <? 248); [|by intros [= <-]].
  destruct bs1 as [|b1 [|b2 [|b3 bs4]]]; try by intros [= <-]. cbv zeta.
  destruct (_ && _); [apply Hrec; simpl; lia|by intros [= <-]].
Qed.

(** The encoding of a character: a leading byte that says how many
    continuation bytes follow. *)
Lemma encode_char_shape c b :
  encode_char c = Ok b →
  ∃ b0 tail, b = b0 :: tail
    ∧ Forall (λ x, is_cont x = true) tail
    ∧ ((b0 < 128 ∧ length tail = 0%nat)
       ∨ (192 ≤ b0 < 224 ∧ length tail = 1%nat)
       ∨ (224 ≤ b0 < 240 ∧ length tail = 2%nat)
       ∨ (240 ≤ b0 < 248 ∧ length tail = 3%nat)).
Proof.
  unfold encode_char.
  destruct (N.ltb_spec c 0x80); [|destruct (N.ltb_spec c 0x800);
    [|destruct (N.ltb_spec c 0x10000);
      [destruct ((0xD800 <=? c) && (c <=? 0xDFFF))
      |destruct (N.ltb_spec c 0x110000)]]];
    try done; intros [= <-]; eexists _, _; (split; [reflexivity|]);
    (split; [repeat (apply Forall_cons_2;
                       [unfold is_cont; apply andb_true_intro;
                        split; [apply N.leb_le|apply N.ltb_lt]; euclid|]);
             apply Forall_nil_2|]).
  - left. split; [lia|done].
  - right. left. split; [euclid|done].
  - right. right. left. split; [euclid|done].
  - right. right. right. split; [euclid|done].
Qed.

Lemma decode_cont b0 bs :
  is_cont b0 = true → decode (b0 :: bs) = Raise UnicodeDecodeError.
Proof.
  intros Hb%is_cont_bounds. rewrite decode_cons.
  rewrite (proj2 (N.ltb_ge b0 128)) by lia.
  by rewrite (proj2 (N.ltb_lt b0 192)) by lia.
Qed.

(** A character cut short is refused. *)
Lemma decode_truncated c b n :
  encode_char c = Ok b → (0 < n < length b)%nat →
  decode (take n b) = Raise UnicodeDecodeError.
Proof.
  intros (b0 & tail & -> & _ & Hshape)%encode_char_shape Hn.
  destruct n as [|m]; [lia|]. simpl in Hn. simpl take. rewrite decode_cons.
  destruct Hshape as [[H0 Hlen]|[[H0 Hlen]|[[H0 Hlen]|[H0 Hlen]]]].
  - lia.
  - rewrite (proj2 (N.ltb_ge b0 128)), (proj2 (N.ltb_ge b0 192)),
      (proj2 (N.ltb_lt b0 224)) by lia.
    destruct tail as [|t1 [|]]; try done. by replace m with 0%nat by lia.
  - rewrite (proj2 (N.ltb_ge b0 128)), (proj2 (N.ltb_ge b0 192)),
      (proj2 (N.ltb_ge b0 224)), (proj2 (N.ltb_lt b0 240)) by lia.
    destruct tail as [|t1 [|t2 [|]]]; try done.
    destruct m as [|[|m]]; [done|done|simpl in Hn; lia].
  - rewrite (proj2 (N.ltb_ge b0 128)), (proj2 (N.ltb_ge b0 192)),
      (proj2 (N.ltb_ge b0 224)), (proj2 (N.ltb_ge b0 240)),
      (proj2 (N.ltb_lt b0 248)) by lia.
    destruct tail as [|t1 [|t2 [|t3 [|]]]]; try done.
    destruct m as [|[|[|m]]]; [done|done|done|simpl in Hn; lia].
Qed.

(** What decodes from the first bytes of an encoded text is the beginning
    of the text. *)
Lemma decode_prefix code : ∀ source n text,
  encode code = Ok source → decode (take n source) = Ok text →
  ∃ post, code = text ++ post.
Proof.
  induction code as [|c code IH]; intros source n text.
  - intros [= <-]. rewrite take_nil. intros [= <-]. by exists [].
  - simpl. intros (b & Hb & (bs & Hbs & [= <-])%rbind_Ok)%rbind_Ok Hdec.
    destruct (decide (n = 0)%nat) as [->|Hn0].
    { injection Hdec as <-. by eexists. }
    destruct (decide (n < length b)%nat) as [Hlt|Hge].
    + rewrite take_app_le in Hdec by lia.
      rewrite (decode_truncated c b n Hb) in Hdec by lia. done.
    + rewrite take_app_ge in Hdec by lia.
      rewrite (decode_encode_char c b _ Hb) in Hdec.
      apply rbind_Ok in Hdec as (text' & Htext' & [= <-]).
      destruct (IH bs _ text' Hbs Htext') as (post & ->). by exists post.
Qed.

(** What decodes from a slice of an encoded text is a piece of the text,
    and the slice starts where the piece starts. *)
Lemma decode_infix code : ∀ source a n text,
  encode code = Ok source → decode (take n (drop a source)) = Ok text →
  text ≠ [] →
  ∃ pre post, code = pre ++ text ++ post ∧ rmap length (encode pre) = Ok a.
Proof.
  induction code as [|c code IH]; intros source a n text.
  - intros [= <-]. rewrite drop_nil, take_nil. by intros [= <-].
  - intros Hsource Hdec Hne.
    destruct (decide (a = 0)%nat) as [->|Ha0].
    { rewrite drop_0 in Hdec.
      destruct (decode_prefix _ _ _ _ Hsource Hdec) as (post & Hcode).
      by exists [], post. }
    simpl in Hsource.
    apply rbind_Ok in Hsource as (b & Hb & (bs & Hbs & [= <-])%rbind_Ok).
    destruct (decide (a < length b)%nat) as [Hlt|Hge].
    + exfalso. rewrite drop_app_le in Hdec by lia.
      destruct (encode_char_shape c b Hb) as (b0 & tail & -> & Hcont & _).
      destruct a as [|a']; [done|]. simpl in Hlt. simpl drop in Hdec.
      destruct (drop a' tail) as [|x rest] eqn:Hdrop.
      { apply (f_equal length) in Hdrop. rewrite length_drop in Hdrop.
        simpl in Hdrop. lia. }
      assert (is_cont x = true) as Hx.
      { apply (Forall_drop _ a') in Hcont. rewrite Hdrop in Hcont.
        by apply Forall_cons in Hcont as [? _]. }
      destruct n as [|n']; [by injection Hdec as <-|].
      change (take (S n') ((x :: rest) ++ bs))
        with (x :: take n' (rest ++ bs)) in Hdec.
      by rewrite (decode_cont x _ Hx) in Hdec.
    + rewrite drop_app_ge in Hdec by lia.
      destruct (IH bs _ n text Hbs Hdec Hne) as (pre & post & -> & Hlen).
      exists (c :: pre), post. split; [done|]. simpl. rewrite Hb. simpl.
      unfold rmap in Hlen. destruct (encode pre) as [bpre|]; [|done].
      simpl in *. injection Hlen as Hlen. rewrite length_app. f_equal. lia.
Qed.

Lemma strip_idemp s : strip (strip s) = strip s.
Proof.
  symmetry. apply stripped_unique.
  destruct (strip_stripped s) as (pre & post & _ & _ & _ & Hhd & Hlast).
  exists [], []. rewrite app_nil_r. repeat split; try done; constructor.
Qed.

Lemma strip_nil_whitespace s : strip s = [] ↔ whitespace s.
Proof.
  split.
  - intros Hs. destruct (strip_stripped s)
      as (pre & post & Heq & Hpre & Hpost & _). rewrite Hs in Heq.
    rewrite Heq. by apply Forall_app.
  - intros Hs. symmetry. apply stripped_unique.
    exists s, []. rewrite app_nil_r. repeat split; try done. constructor.
Qed.

Lemma normalize_code_lines code :
  Forall clean_line
    (filter (λ line, truthy line = true) (map strip (split NL code))).
Proof.
  apply Forall_forall. intros line [Hne Hin]%list_elem_of_filter.
  apply list_elem_of_fmap in Hin as (piece & -> & Hpiece).
  split; [by destruct (strip piece)|]. split.
  - intros Hnl%strip_chars.
    pose proof (split_no_sep NL code) as Hall.
    eapply Forall_forall in Hall; [|exact Hpiece]. done.
  - apply strip_idemp.
Qed.

Lemma normalize_clean_lines ls :
  Forall clean_line ls → normalize_code (join [NL] ls) = join [NL] ls.
Proof.
  intros Hall. unfold normalize_code.
  destruct ls as [|l ls]; [done|].
  rewrite split_join; [|done|].
  2:{ eapply Forall_impl; [exact Hall|]. by intros line (_ & ? & _). }
  replace (map strip (l :: ls)) with (l :: ls).
  2:{ induction Hall as [|x xs (_ & _ & Hx) _ IH]; [done|].
      simpl. by rewrite Hx, <- IH. }
  f_equal. clear -Hall.
  induction Hall as [|x xs (Hx & _ & _) _ IH]; [done|].
  rewrite filter_cons, IH. by destruct x.
Qed.

Lemma join_nil_inv ls :
  Forall (λ l : pystr, l ≠ []) ls → join [NL] ls = [] → ls = [].
Proof.
  destruct ls as [|l [|l' ls]]; [done|..]; intros [Hl _]%Forall_cons.
  - simpl. done.
  - rewrite join_cons_cons. by destruct l.
Qed.

(** X18.  [normalize_code] gives a normal form.  Its result is made of
    lines that are not empty, hold no newline and have no whitespace at
    either end, joined by single newlines; normalizing it again changes
    nothing; and it is empty exactly for a text of whitespace only.  So a
    chunk and the chunk of its normalized text have one identifier. *)
Theorem normalize_code_normal_form code :
  (∃ ls, normalize_code code = join [NL] ls ∧ Forall clean_line ls)
  ∧ normalize_code (normalize_code code) = normalize_code code
  ∧ (normalize_code code = [] ↔ whitespace code)
  ∧ (∀ c1 c2, path c1 = path c2 → code_string c1 = code →
       code_string c2 = normalize_code code → doc_id c1 = doc_id c2).
Proof.
  pose proof (normalize_code_lines code) as Hlines.
  assert (normalize_code (normalize_code code) = normalize_code code) as Hn.
  { unfold normalize_code at 2 3. by apply normalize_clean_lines. }
  split; [eexists; split; [reflexivity|exact Hlines]|].
  split; [done|]. split.
  - split.
    + intros Hnil. unfold normalize_code in Hnil.
      apply join_nil_inv in Hnil.
      2:{ eapply Forall_impl; [exact Hlines|]. by intros l (? & _). }
      rewrite <- (join_split NL code).
      assert (Forall whitespace (split NL code)) as Hws.
      { apply Forall_forall. intros piece Hpiece.
        apply strip_nil_whitespace.
        destruct (strip piece) as [|c s] eqn:Hs; [done|]. exfalso.
        assert (c :: s ∈ filter (λ line, truthy line = true)
                                (map strip (split NL code))) as Hin.
        { apply list_elem_of_filter. split; [done|].
          apply list_elem_of_fmap. by exists piece. }
        rewrite Hnil in Hin. by apply elem_of_nil in Hin. }
      apply Forall_forall. intros c [->|(piece & Hpiece & Hc)]%join_chars;
        [done|].
      eapply Forall_forall in Hws; [|exact Hpiece].
      by eapply Forall_forall in Hws.
    + intros Hws. unfold normalize_code.
      replace (filter _ _) with (@nil pystr); [done|].
      symmetry. apply elem_of_nil_inv.
      intros line [Hne Hin]%list_elem_of_filter.
      apply list_elem_of_fmap in Hin as (piece & -> & Hpiece).
      assert (strip piece = []) as Hnil; [|by rewrite Hnil in Hne].
      apply strip_nil_whitespace, Forall_forall. intros c Hc.
      eapply Forall_forall in Hws; [exact Hws|].
      by eapply split_chars.
  - intros c1 c2 Hp H1 H2. by rewrite !doc_id_unfold, Hp, H1, H2, Hn.
Qed.

Lemma normalize_code_normal_form_witness :
  doc_id chunk_a_reformatted
  = doc_id (mkCodeChunk (normalize_code (code_string chunk_a_reformatted))
                        (lit "function") 1 2 (lit "m.py")).
Proof.
  by apply (proj2 (proj2 (proj2 (normalize_code_normal_form
                                   (code_string chunk_a_reformatted))))).
Defined.

(** ** The chunk extractor *)

Lemma extract_chunk_Ok node code kind file_path chunk :
  _extract_chunk node code kind file_path = Ok chunk →
  ∃ source, encode code = Ok source
    ∧ decode (slice source (TS.start_byte node) (TS.end_byte node))
      = Ok (code_string chunk)
    ∧ chunk = chunk_of node (code_string chunk) kind file_path.
Proof.
  unfold _extract_chunk, mbind, result_bind.
  intros (bs & Hbs & (text & Htext & [= <-])%rbind_Ok)%rbind_Ok.
  by exists bs.
Qed.

Lemma extract_chunk_text node code kind file_path chunk :
  _extract_chunk node code kind file_path = Ok chunk →
  substring (code_string chunk) code
  ∧ (code_string chunk ≠ [] →
     ∃ pre post, code = pre ++ code_string chunk ++ post
       ∧ rmap length (encode pre) = Ok (N.to_nat (TS.start_byte node))).
Proof.
  intros (source & Hsource & Hdec & _)%extract_chunk_Ok.
  destruct (decide (code_string chunk = [])) as [Hnil|Hne].
  - split; [|done]. exists [], code. by rewrite Hnil.
  - destruct (decode_infix code source _ _ _ Hsource Hdec Hne)
      as (pre & post & Hcode & Hlen).
    split; [by exists pre, post|]. intros _. by exists pre, post.
Qed.

(** X14.  What [_extract_chunk] returns is cut out of the file.  The text
    of the chunk encodes to the bytes of the source between the two byte
    offsets of the node; it is a piece of the code; and when it is not
    empty it starts at the character at which the node starts, and the
    node spans it if the node ends inside the source. *)
Theorem extract_chunk_exact node code kind file_path chunk :
  _extract_chunk node code kind file_path = Ok chunk →
  ∃ source, encode code = Ok source
    ∧ encode (code_string chunk)
      = Ok (slice source (TS.start_byte node) (TS.end_byte node))
    ∧ substring (code_string chunk) code
    ∧ (code_string chunk ≠ [] →
       (N.to_nat (TS.end_byte node) ≤ length source)%nat →
       spans code node (code_string chunk)).
Proof.
  intros Hrun. pose proof Hrun as (source & Hsource & Hdec & _)%extract_chunk_Ok.
  exists source. split; [done|].
  pose proof (decode_Ok_encode _ _ Hdec) as Henc.
  split; [done|].
  destruct (extract_chunk_text _ _ _ _ _ Hrun) as [Hsub Hpos].
  split; [done|]. intros Hne Hend.
  destruct (Hpos Hne) as (pre & post & Hcode & Hpre).
  exists pre, post. split; [done|]. split; [done|].
  rewrite encode_app. unfold rmap in *.
  destruct (encode pre) as [bpre|]; [|done]. simpl in Hpre. simpl.
  rewrite Henc. simpl. f_equal. rewrite length_app.
  injection Hpre as Hpre. unfold slice. rewrite length_take, length_drop.
  assert (N.to_nat (TS.start_byte node) ≤ N.to_nat (TS.end_byte node))%nat.
  { destruct (decide (N.to_nat (TS.start_byte node)
                      ≤ N.to_nat (TS.end_byte node))%nat); [done|].
    exfalso. apply Hne. unfold slice in Hdec.
    replace (N.to_nat (TS.end_byte node) - N.to_nat (TS.start_byte node))%nat
      with 0%nat in Hdec by lia.
    by injection Hdec as <-. }
  lia.
Qed.

Lemma extract_chunk_exact_witness :
  ∃ source, encode class_source = Ok source
    ∧ encode (lit "def f(self):" ++ [NL] ++ lit "        return 1")
      = Ok (slice source 13 42)
    ∧ substring (lit "def f(self):" ++ [NL] ++ lit "        return 1")
                class_source.
Proof.
  destruct (extract_chunk_exact method_f class_source (lit "method")
              (lit "a.py")
              (mkCodeChunk
                 (lit "def f(self):" ++ [NL] ++ lit "        return 1")
                 (lit "method") 2 3 (lit "a.py")))
    as (source & Hsource & Henc & Hsub & _).
  - vm_compute. reflexivity.
  - exists source. split; [exact Hsource|]. split; [exact Henc|exact Hsub].
Defined.

(** X15.  The failures and the edges of [_extract_chunk].  It raises
    [UnicodeEncodeError] when the code cannot be encoded, whatever the
    node, and [UnicodeDecodeError] when the offsets of the node cut a
    character, and nothing else.  A node that ends before it starts, or
    that starts after the end of the source, gives a chunk with the empty
    text and no error. *)
Theorem extract_chunk_edges node code kind file_path :
  (encodable code = false →
   _extract_chunk node code kind file_path = Raise UnicodeEncodeError)
  ∧ (∀ e, _extract_chunk node code kind file_path = Raise e →
       (e = UnicodeEncodeError ∧ encodable code = false)
       ∨ (e = UnicodeDecodeError ∧ encodable code = true))
  ∧ (∀ source, encode code = Ok source →
       (TS.end_byte node ≤ TS.start_byte node
        ∨ (length source ≤ N.to_nat (TS.start_byte node))%nat) →
       _extract_chunk node code kind file_path =
       Ok (chunk_of node [] kind file_path)).
Proof.
  unfold _extract_chunk, mbind, result_bind. split; [|split].
  - intros Hcode. by rewrite (encode_not_encodable _ Hcode).
  - intros e. destruct (encodable code) eqn:Hcode.
    + destruct (encode_encodable _ Hcode) as (source & ->). simpl.
      destruct (decode _) as [text|e'] eqn:Hdec; simpl; [done|].
      intros [= <-]. right. split; [|done]. by eapply decode_Raise.
    + rewrite (encode_not_encodable _ Hcode). simpl. intros [= <-]. by left.
  - intros source -> Hedge. simpl.
    replace (slice source (TS.start_byte node) (TS.end_byte node))
      with (@nil N); [done|].
    unfold slice. destruct Hedge as [Hrev|Hpast].
    + by replace (N.to_nat (TS.end_byte node)
                  - N.to_nat (TS.start_byte node))%nat with 0%nat by lia.
    + by rewrite drop_ge, take_nil by done.
Qed.

Lemma extract_chunk_edges_witness :
  _extract_chunk (token "past" 100 120 (9, 0) (9, 20)) class_source
    (lit "function") (lit "a.py")
  = Ok (mkCodeChunk [] (lit "function") 10 10 (lit "a.py")).
Proof.
  assert (∃ source, encode class_source = Ok source
                    ∧ (length source ≤ 100)%nat) as (source & Hsource & Hlen).
  { eexists. split; [vm_compute; reflexivity|]. vm_compute. lia. }
  apply (proj2 (proj2 (extract_chunk_edges
                         (token "past" 100 120 (9, 0) (9, 20)) class_source
                         (lit "function") (lit "a.py"))) source Hsource).
  right. exact Hlen.
Defined.

Lemma extract_chunk_props node code kind file_path chunk :
  _extract_chunk node code kind file_path = Ok chunk →
  type chunk = kind ∧ path chunk = file_path
  ∧ substring (code_string chunk) code
  ∧ 1 ≤ start_line chunk ∧ 1 ≤ end_line chunk.
Proof.
  intros Hrun. destruct (extract_chunk_lines _ _ _ _ _ Hrun)
    as (Hs & He & Ht & Hp).
  destruct (extract_chunk_text _ _ _ _ _ Hrun) as [Hsub _].
  repeat split; try done; lia.
Qed.

Lemma rmapM_extract code kind file_path nodes chunks :
  rmapM (λ node, _extract_chunk node code kind file_path) nodes = Ok chunks →
  map type chunks = map (λ _, kind) nodes
  ∧ Forall (λ chunk, path chunk = file_path
                     ∧ substring (code_string chunk) code
                     ∧ 1 ≤ start_line chunk ∧ 1 ≤ end_line chunk) chunks.
Proof.
  intros Hall%rmapM_Forall2.
  induction Hall as [|node chunk nodes chunks Hchunk _ [IH1 IH2]]; [done|].
  destruct (extract_chunk_props _ _ _ _ _ Hchunk) as (Ht & Hrest).
  split; [simpl; by f_equal|]. by constructor.
Qed.

Lemma process_class_chunks node code file_path chunks :
  is_class node → _process_class node code file_path = Ok chunks →
  map type chunks = chunk_kinds node
  ∧ Forall (λ chunk, path chunk = file_path
                     ∧ substring (code_string chunk) code
                     ∧ 1 ≤ start_line chunk ∧ 1 ≤ end_line chunk) chunks.
Proof.
  intros Hclass. unfold _process_class, chunk_kinds, mbind, result_bind.
  rewrite decide_True by done.
  intros (chunk & Hchunk & Hrest)%rbind_Ok.
  destruct (extract_chunk_props _ _ _ _ _ Hchunk) as (Ht & Hprops).
  destruct (find_block (TS.children node)) as [body|].
  - rewrite methods_loop in Hrest.
    apply rbind_Ok in Hrest as (methods & Hmethods & [= <-]).
    destruct (rmapM_extract _ _ _ _ _ Hmethods) as [Hkinds Hall].
    split; [simpl; by f_equal|]. by constructor.
  - injection Hrest as <-. split; [simpl; by f_equal|]. by constructor.
Qed.

Lemma top_level_chunks_chunks node code file_path chunks :
  is_class node ∨ is_function node →
  top_level_chunks code file_path node = Ok chunks →
  map type chunks = chunk_kinds node
  ∧ Forall (λ chunk, path chunk = file_path
                     ∧ substring (code_string chunk) code
                     ∧ 1 ≤ start_line chunk ∧ 1 ≤ end_line chunk) chunks.
Proof.
  intros Hkind. unfold top_level_chunks.
  destruct (decide (is_class node)) as [Hc|Hc];
    [by apply process_class_chunks|].
  destruct Hkind as [?|Hf]; [done|].
  unfold rmap. intros (chunk & Hchunk & [= <-])%rbind_Ok.
  destruct (extract_chunk_props _ _ _ _ _ Hchunk) as (Ht & Hprops).
  unfold chunk_kinds. rewrite decide_False, decide_True by done.
  split; [simpl; by f_equal|]. by constructor.
Qed.

Lemma chunk_kinds_other nodes :
  concat (map chunk_kinds
            (filter (λ node, is_class node ∨ is_function node) nodes))
  = concat (map chunk_kinds nodes).
Proof.
  induction nodes as [|node nodes IH]; [done|].
  rewrite filter_cons. destruct (decide _) as [Hk|Hk]; simpl; [by f_equal|].
  rewrite IH. unfold chunk_kinds at 2.
  rewrite !decide_False; [done|by intros ?; apply Hk; right
                         |by intros ?; apply Hk; left].
Qed.

Lemma chunk_code_all self code file_path chunks :
  chunk_code self code file_path = Ok chunks →
  Forall (λ chunk, path chunk = file_path
                   ∧ substring (code_string chunk) code
                   ∧ 1 ≤ start_line chunk ∧ 1 ≤ end_line chunk) chunks.
Proof.
  unfold chunk_code, mbind, result_bind.
  intros (source & _ & Hloop)%rbind_Ok. rewrite top_level_loop in Hloop.
  apply rbind_Ok in Hloop as (groups & Hgroups%rmapM_Forall2 & [= <-]).
  simpl. apply Forall_concat.
  assert (Forall (λ node, is_class node ∨ is_function node)
            (filter (λ node, is_class node ∨ is_function node)
                    (TS.children (parser self source)))) as Hkinds.
  { apply Forall_forall. by intros node [? _]%list_elem_of_filter. }
  revert Hgroups Hkinds.
  generalize (filter (λ node, is_class node ∨ is_function node)
                     (TS.children (parser self source))).
  intros nodes Hgroups.
  induction Hgroups as [|node group nodes groups Hgroup _ IH];
    [constructor|].
  intros [Hnode Hnodes]%Forall_cons. constructor; [|by apply IH].
  by destruct (top_level_chunks_chunks _ _ _ _ Hnode Hgroup).
Qed.

(** X16.  The chunks of a file, when [chunk_code] returns.  Their kinds
    are given by the top-level nodes in order: a class gives a [class]
    chunk and then one [method] chunk for each function definition
    directly in its first block, a function gives a [function] chunk, and
    a node of any other kind gives nothing (so neither does what is nested
    in it).  Every chunk has the path that was passed, a text that is a
    piece of the code, and lines counted from one. *)
Theorem chunk_code_chunks self code file_path chunks :
  chunk_code self code file_path = Ok chunks →
  ∃ source, encode code = Ok source
    ∧ map type chunks
      = concat (map chunk_kinds (TS.children (parser self source)))
    ∧ Forall (λ chunk, path chunk = file_path
                       ∧ substring (code_string chunk) code
                       ∧ 1 ≤ start_line chunk ∧ 1 ≤ end_line chunk) chunks.
Proof.
  unfold chunk_code, mbind, result_bind.
  intros (source & Hsource & Hloop)%rbind_Ok. exists source.
  split; [done|]. rewrite top_level_loop in Hloop.
  apply rbind_Ok in Hloop as (groups & Hgroups%rmapM_Forall2 & [= <-]).
  rewrite <- chunk_kinds_other. simpl.
  assert (Forall (λ node, is_class node ∨ is_function node)
            (filter (λ node, is_class node ∨ is_function node)
                    (TS.children (parser self source)))) as Hkinds.
  { apply Forall_forall. by intros node [? _]%list_elem_of_filter. }
  revert Hgroups Hkinds.
  generalize (filter (λ node, is_class node ∨ is_function node)
                     (TS.children (parser self source))).
  intros nodes Hgroups.
  induction Hgroups as [|node group nodes groups Hgroup _ IH]; [done|].
  intros [Hnode Hnodes]%Forall_cons. destruct (IH Hnodes) as [IH1 IH2].
  destruct (top_level_chunks_chunks _ _ _ _ Hnode Hgroup) as [Hk Hall].
  simpl. rewrite map_app, Hk, IH1. split; [done|]. by apply Forall_app.
Qed.

Lemma chunk_code_chunks_witness :
  ∃ chunks, chunk_code class_chunker class_source (lit "a.py") = Ok chunks
    ∧ map type chunks = [lit "class"; lit "method"; lit "method"]
    ∧ Forall (λ chunk, path chunk = lit "a.py"
                       ∧ substring (code_string chunk) class_source
                       ∧ 1 ≤ start_line chunk ∧ 1 ≤ end_line chunk) chunks.
Proof.
  eexists. split; [vm_compute; reflexivity|].
  match goal with
  | |- map type ?chunks = _ ∧ _ =>
      destruct (chunk_code_chunks class_chunker class_source (lit "a.py")
                  chunks) as (source & _ & Hkinds & Hall)
  end.
  - vm_compute. reflexivity.
  - split; [exact Hkinds|exact Hall].
Defined.

Lemma chunk_code_Raise self code file_path e :
  chunk_code self code file_path = Raise e →
  (e = UnicodeEncodeError ∧ encodable code = false)
  ∨ (e = UnicodeDecodeError ∧ encodable code = true).
Proof.
  unfold chunk_code, mbind, result_bind.
  destruct (encodable code) eqn:Hcode.
  2:{ rewrite (encode_not_encodable _ Hcode). simpl. intros [= <-].
      by left. }
  destruct (encode_encodable _ Hcode) as (source & Hsource).
  rewrite Hsource. simpl. rewrite top_level_loop.
  destruct (rmapM _ _) as [groups|e'] eqn:Hgroups; simpl; [done|].
  intros [= ->]. right. split; [|done].
  apply rmapM_Raise in Hgroups as (node & _ & Hnode).
  assert (∀ n k, _extract_chunk n code k file_path = Raise e →
                 e = UnicodeDecodeError) as Hextract.
  { intros n k Hn. unfold _extract_chunk, mbind, result_bind in Hn.
    rewrite Hsource in Hn. simpl in Hn.
    destruct (decode _) as [text|e'] eqn:Hdec; simpl in Hn; [done|].
    injection Hn as <-. by eapply decode_Raise. }
  unfold top_level_chunks in Hnode. destruct (decide (is_class node)).
  + unfold _process_class, mbind, result_bind in Hnode.
    destruct (_extract_chunk node code (lit "class") file_path)
      as [chunk|e'] eqn:Hchunk; simpl in Hnode;
      [|injection Hnode as ->; by eapply Hextract].
    destruct (find_block (TS.children node)) as [body|]; [|done].
    rewrite methods_loop in Hnode.
    destruct (rmapM _ _) as [methods|e'] eqn:Hmethods; simpl in Hnode;
      [done|].
    injection Hnode as ->.
    apply rmapM_Raise in Hmethods as (m & _ & Hm). by eapply Hextract.
  + unfold rmap in Hnode.
    destruct (_extract_chunk node code (lit "function") file_path)
      as [chunk|e'] eqn:Hchunk; simpl in Hnode; [done|].
    injection Hnode as ->. by eapply Hextract.
Qed.

(** X17.  [chunk_code] fails on the text only: it raises
    [UnicodeEncodeError] if the code cannot be encoded, before the parser
    is asked, and otherwise only [UnicodeDecodeError], from a node whose
    offsets cut a character.  A file without a class or a function at top
    level gives the empty list. *)
Theorem chunk_code_edges self code file_path :
  (encodable code = false →
   chunk_code self code file_path = Raise UnicodeEncodeError)
  ∧ (∀ e, chunk_code self code file_path = Raise e →
       (e = UnicodeEncodeError ∧ encodable code = false)
       ∨ (e = UnicodeDecodeError ∧ encodable code = true))
  ∧ (∀ source, encode code = Ok source →
       Forall (λ node, ¬ is_class node ∧ ¬ is_function node)
              (TS.children (parser self source)) →
       chunk_code self code file_path = Ok []).
Proof.
  split; [|split].
  - intros Hcode. unfold chunk_code, mbind, result_bind.
    by rewrite (encode_not_encodable _ Hcode).
  - apply chunk_code_Raise.
  - intros source Hsource Hnone. unfold chunk_code, mbind, result_bind.
    rewrite Hsource. simpl. rewrite top_level_loop.
    replace (filter (λ node, is_class node ∨ is_function node)
                    (TS.children (parser self source)))
      with (@nil TS.Node); [done|].
    symmetry. apply elem_of_nil_inv. intros node [Hk Hin]%list_elem_of_filter.
    eapply Forall_forall in Hnone; [|exact Hin]. tauto.
Qed.

Lemma chunk_code_edges_witness :
  chunk_code (mkASTChunker (λ _, TS.mkNode (lit "module")
                [token "expression_statement" 0 5 (0, 0) (0, 5)]
                0 6 (0, 0) (1, 0)))
             (lit "x = 1" ++ [NL]) (lit "a.py") = Ok [].
Proof.
  eapply (proj2 (proj2 (chunk_code_edges _ _ _))).
  - vm_compute. reflexivity.
  - repeat constructor; by intros [=].
Defined.

(** ** Files and directories *)

Lemma decode_encodable bs text : decode bs = Ok text → encodable text = true.
Proof. intros Henc%decode_Ok_encode. by eapply encode_Ok_encodable. Qed.

Lemma encodable_cons c s : encodable (c :: s) = scalar c && encodable s.
Proof. reflexivity. Qed.

Lemma translate_newlines_cons c rest :
  translate_newlines (c :: rest) =
  if c =? CR then
    match rest with
    | c' :: rest' =>
        if c' =? NL then NL :: translate_newlines rest'
        else NL :: translate_newlines rest
    | [] => [NL]
    end
  else c :: translate_newlines rest.
Proof. reflexivity. Qed.

Lemma translate_newlines_props text :
  (encodable text = true → encodable (translate_newlines text) = true)
  ∧ CR ∉ translate_newlines text.
Proof.
  induction text as [text IH] using (induction_ltof1 _ (@length N)).
  unfold ltof in IH. destruct text as [|c rest].
  { split; [done|apply not_elem_of_nil]. }
  rewrite translate_newlines_cons.
  destruct (N.eqb_spec c CR) as [->|Hc].
  - destruct rest as [|c' rest'].
    { split; [done|]. by intros [[=]|?%elem_of_nil]%elem_of_cons. }
    destruct (c' =? NL).
    + destruct (IH rest') as [IH1 IH2]; [simpl; lia|]. split.
      * rewrite !encodable_cons.
        intros [_ [_ Hrest]%andb_prop]%andb_prop.
        apply andb_true_intro. split; [done|]. by apply IH1.
      * by intros [[=]|?]%elem_of_cons.
    + destruct (IH (c' :: rest')) as [IH1 IH2]; [simpl; lia|]. split.
      * rewrite (encodable_cons CR), (encodable_cons NL).
        intros [_ Hrest]%andb_prop.
        apply andb_true_intro. split; [done|]. by apply IH1.
      * by intros [[=]|?]%elem_of_cons.
  - destruct (IH rest) as [IH1 IH2]; [simpl; lia|]. split.
    + rewrite !encodable_cons.
      intros [Hc' Hrest]%andb_prop. apply andb_true_intro. split; [done|].
      by apply IH1.
    + by intros [?|?]%elem_of_cons.
Qed.

Lemma read_text_props env file_path code :
  read_text env file_path = Returned code →
  encodable code = true ∧ CR ∉ code.
Proof.
  unfold read_text. destruct (file_bytes env file_path) as [bs|]; [|done].
  destruct (decode bs) as [text|e] eqn:Hdec; [|done]. intros [= <-].
  destruct (translate_newlines_props text) as [Henc Hcr].
  split; [|done]. by apply Henc, (decode_encodable bs).
Qed.

Lemma substring_encodable text code :
  substring text code → encodable code = true → encodable text = true.
Proof.
  intros (pre & post & ->). rewrite !encodable_app.
  by intros [_ [? _]%andb_prop]%andb_prop.
Qed.

Lemma chunk_file_Returned env file_path chunks :
  chunk_file env file_path = Returned chunks →
  Forall (λ chunk, path chunk = abspath env file_path
                   ∧ encodable (normalize_code (code_string chunk)) = true
                   ∧ CR ∉ code_string chunk) chunks.
Proof.
  unfold chunk_file. destruct (new_chunker env) as [chunker|]; [|done].
  destruct (read_text env file_path) as [code|] eqn:Hread; [|done].
  destruct (read_text_props _ _ _ Hread) as [Henc Hcr].
  destruct (chunk_code chunker code (abspath env file_path))
    as [chunks'|] eqn:Hchunks; [|done].
  intros [= <-]. eapply Forall_impl; [by eapply chunk_code_all|].
  intros chunk (Hp & Hsub & _). split; [done|]. split.
  - by apply normalize_code_encodable, (substring_encodable _ code).
  - destruct Hsub as (pre & post & ->). intros Hin. apply Hcr.
    apply elem_of_app. right. apply elem_of_app. by left.
Qed.



Lemma directory_loop env files : ∀ chunks,
  fold_left (add_file_chunks env) files chunks =
  chunks ++ concat (map (λ file_path,
                           match chunk_file env file_path with
                           | Returned file_chunks => file_chunks
                           | Threw _ => []
                           end) files).
Proof.
  induction files as [|file files IH]; intros chunks; simpl.
  - by rewrite app_nil_r.
  - rewrite IH. unfold add_file_chunks.
    destruct (chunk_file env file); [by rewrite app_assoc|done].
Qed.

Lemma directory_chunks_buildable env directory file_pattern :
  forallb (λ file_path, encodable (abspath env file_path))
          (glob env directory file_pattern) = true →
  buildable (directory_chunks env directory file_pattern) = true.
Proof.
  unfold directory_chunks, buildable. rewrite !forallb_forall.
  intros Hpaths chunk (group & (file & <- & Hfile)%in_map_iff
                             & Hchunk%list_elem_of_In)%in_concat.
  destruct (chunk_file env file) as [chunks|] eqn:Hrun;
    [|by apply elem_of_nil in Hchunk].
  apply chunk_file_Returned in Hrun.
  eapply Forall_forall in Hrun as (Hp & Henc & _); [|exact Hchunk].
  apply andb_true_intro. split; [|done]. rewrite Hp. by apply Hpaths.
Qed.



(** ** The index of a pull request *)

Lemma replace_no_slash s : Rag.SLASH ∉ Rag.replace Rag.SLASH Rag.UNDERSCORE s.
Proof.
  unfold Rag.replace. intros (c & Hc & _)%list_elem_of_fmap.
  destruct (N.eqb_spec c Rag.SLASH) as [Heq|Hne]; [done|]. by apply Hne.
Qed.

Lemma replace_app old new s1 s2 :
  Rag.replace old new (s1 ++ s2)
  = Rag.replace old new s1 ++ Rag.replace old new s2.
Proof. apply map_app. Qed.

Lemma replace_eq b1 b2 :
  Rag.replace Rag.SLASH Rag.UNDERSCORE b1
  = Rag.replace Rag.SLASH Rag.UNDERSCORE b2
  ↔ Forall2 (λ c1 c2, c1 = c2
                      ∨ (c1 ∈ [Rag.SLASH; Rag.UNDERSCORE]
                         ∧ c2 ∈ [Rag.SLASH; Rag.UNDERSCORE])) b1 b2.
Proof.
  unfold Rag.replace. revert b2.
  induction b1 as [|c1 b1 IH]; intros [|c2 b2]; simpl.
  - split; [constructor|done].
  - split; [done|by inversion 1].
  - split; [done|by inversion 1].
  - split.
    + intros [= Hc Hb]. constructor; [|by apply IH].
      destruct (N.eqb_spec c1 Rag.SLASH) as [->|H1],
               (N.eqb_spec c2 Rag.SLASH) as [->|H2]; subst.
      * by left.
      * right. split; [by left|right; by left].
      * right. split; [right; by left|by left].
      * by left.
    + intros [Hc Hb]%Forall2_cons. f_equal; [|by apply IH].
      destruct Hc as [->|[H1 H2]]; [done|].
      assert (∀ c, c ∈ [Rag.SLASH; Rag.UNDERSCORE] →
                (if c =? Rag.SLASH then Rag.UNDERSCORE else c)
                = Rag.UNDERSCORE) as Hu.
      { intros c [->|[->|?%elem_of_nil]%elem_of_cons]%elem_of_cons; done. }
      by rewrite (Hu c1 H1), (Hu c2 H2).
Qed.

(** X22.  The name of an index does not tell a slash from an underscore.
    It holds no slash.  Two branches of one repository share an index
    exactly when they are equal up to slashes and underscores (so
    [feat/x] and [feat_x] do); the index of the pull request is the index
    of the default branch exactly when the two branch names are equal in
    this way; and a repository [r/x] with the branch [b] has the index of
    the repository [r] with the branch [x/b]. *)
Theorem index_name_collisions :
  (∀ p name, Rag._get_index_name (Some p) = Rag.Fine name →
     Rag.SLASH ∉ name)
  ∧ (∀ p q, Rag.repo p = Rag.repo q →
       (Rag._get_index_name (Some p) = Rag._get_index_name (Some q)
        ↔ Forall2 (λ c1 c2, c1 = c2
                            ∨ (c1 ∈ [Rag.SLASH; Rag.UNDERSCORE]
                               ∧ c2 ∈ [Rag.SLASH; Rag.UNDERSCORE]))
                  (Rag.get_pr_branch p) (Rag.get_pr_branch q)))
  ∧ (∀ p, Rag._get_index_name (Some p)
          = Rag._get_default_branch_index_name (Some p)
          ↔ Rag.replace Rag.SLASH Rag.UNDERSCORE (Rag.get_pr_branch p)
            = Rag.replace Rag.SLASH Rag.UNDERSCORE (Rag.default_branch p))
  ∧ (∀ r x b d,
       Rag._get_index_name
         (Some (Rag.mkGitProvider (r ++ [Rag.SLASH] ++ x) b d))
       = Rag._get_index_name
           (Some (Rag.mkGitProvider r (x ++ [Rag.SLASH] ++ b) d))).
Proof.
  split; [|split; [|split]].
  - intros p name [= <-].
    intros [Hr|Hb]%elem_of_app; [by apply replace_no_slash in Hr|].
    simpl in Hb. apply elem_of_cons in Hb as [Hu|Hb]; [done|].
    by apply replace_no_slash in Hb.
  - intros p q Hrepo. rewrite <- replace_eq. unfold Rag._get_index_name.
    rewrite Hrepo. split.
    + intros [= Heq]. apply app_inv_head in Heq. by injection Heq.
    + by intros ->.
  - intros p. unfold Rag._get_index_name, Rag._get_default_branch_index_name.
    split.
    + intros [= Heq]. apply app_inv_head in Heq. by injection Heq.
    + by intros ->.
  - intros r x b d. unfold Rag._get_index_name. simpl.
    rewrite !replace_app. simpl. by rewrite <- !app_assoc.
Qed.

Lemma index_loop_blob w file_info rest batch calls text :
  Rag.type file_info = lit "blob" →
  Rag.blob_text w (Rag.sha file_info) = Some text →
  Rag.index_loop w (file_info :: rest) batch calls =
  let batch' := batch ++ [Rag.mkDocument text (Rag.path file_info) None None] in
  if (10 <=? length batch')%nat
  then Rag.index_loop w rest [] (calls ++ [batch'])
  else Rag.index_loop w rest batch' calls.
Proof.
  intros Hblob Htext. cbn [Rag.index_loop].
  rewrite decide_True by done. by rewrite Htext.
Qed.

Lemma index_loop_other w file_info rest batch calls :
  Rag.type file_info ≠ lit "blob" →
  Rag.index_loop w (file_info :: rest) batch calls =
  if (10 <=? length batch)%nat
  then Rag.index_loop w rest [] (calls ++ [batch])
  else Rag.index_loop w rest batch calls.
Proof. intros Hblob. cbn [Rag.index_loop]. by rewrite decide_False. Qed.

Lemma blob_documents_blob w file_info rest text :
  Rag.type file_info = lit "blob" →
  Rag.blob_text w (Rag.sha file_info) = Some text →
  Rag.blob_documents w (file_info :: rest) =
  Rag.mkDocument text (Rag.path file_info) None None :: Rag.blob_documents w rest.
Proof.
  intros Hblob Htext. unfold Rag.blob_documents. cbn [omap list_omap].
  rewrite decide_True by done. by rewrite Htext.
Qed.

Lemma blob_documents_other w file_info rest :
  Rag.type file_info ≠ lit "blob" →
  Rag.blob_documents w (file_info :: rest) = Rag.blob_documents w rest.
Proof.
  intros Hblob. unfold Rag.blob_documents. cbn [omap list_omap].
  by rewrite decide_False.
Qed.

(** The loop keeps the batch below ten documents, sends batches of ten,
    and loses no document and no order. *)
Lemma index_loop_spec w entries : ∀ batch calls,
  Rag.readable w entries = true → (length batch < 10)%nat →
  Forall (λ b : list Rag.Document, length b = 10%nat) calls →
  ∃ calls' batch',
    Rag.index_loop w entries batch calls = (calls', Rag.Fine batch')
    ∧ (length batch' < 10)%nat
    ∧ Forall (λ b : list Rag.Document, length b = 10%nat) calls'
    ∧ concat calls' ++ batch'
      = concat calls ++ batch ++ Rag.blob_documents w entries.
Proof.
  induction entries as [|file_info rest IH]; intros batch calls Hread Hlen Hcalls.
  - exists calls, batch. split; [done|]. split; [done|]. split; [done|].
    unfold Rag.blob_documents. simpl. by rewrite app_nil_r.
  - unfold Rag.readable in Hread. cbn [forallb] in Hread.
    apply andb_prop in Hread as [Hfile Hrest].
    destruct (decide (Rag.type file_info = lit "blob")) as [Hblob|Hblob].
    + destruct (Rag.blob_text w (Rag.sha file_info)) as [text|] eqn:Htext;
        [|done].
      rewrite (index_loop_blob _ _ _ _ _ text Hblob Htext).
      rewrite (blob_documents_blob _ _ _ text Hblob Htext). cbv zeta.
      set (doc := Rag.mkDocument text (Rag.path file_info) None None).
      destruct (Nat.leb_spec 10 (length (batch ++ [doc]))) as [Hfull|Hless].
      * assert (length (batch ++ [doc]) = 10%nat) as Hten.
        { rewrite length_app in *. simpl in *. lia. }
        destruct (IH [] (calls ++ [batch ++ [doc]]) Hrest) as
          (calls' & batch' & -> & Hlen' & Hcalls' & Hcat).
        { simpl. lia. }
        { apply Forall_app. split; [done|]. by constructor. }
        exists calls', batch'. split; [done|]. split; [done|].
        split; [done|]. rewrite Hcat, concat_app. simpl.
        by rewrite app_nil_r, <- !app_assoc.
      * destruct (IH (batch ++ [doc]) calls Hrest Hless Hcalls) as
          (calls' & batch' & -> & Hlen' & Hcalls' & Hcat).
        exists calls', batch'. split; [done|]. split; [done|].
        split; [done|]. rewrite Hcat. by rewrite <- !app_assoc.
    + rewrite (index_loop_other _ _ _ _ _ Hblob).
      rewrite (blob_documents_other _ _ _ Hblob).
      destruct (Nat.leb_spec 10 (length batch)) as [Hfull|_]; [lia|].
      by apply IH.
Qed.

(** X23.  [create_base_branch_index] sends every document once, in the
    order of the tree and in batches of ten.  When the index does not
    exist yet and every blob can be read, the batches that it passes to
    [index_documents] are, joined, the documents of the blobs; every
    batch has ten documents except a last one of fewer; and the method
    raises only if the call for this last, smaller batch raises: a call
    for a batch of ten that raises is logged and the method returns as if
    these ten documents had been indexed. *)
Theorem create_base_branch_index_batches w name :
  Rag._get_default_branch_index_name (Rag.git_provider w) = Rag.Fine name →
  Rag._does_index_exist w name = Rag.Fine false →
  Rag.default_branch_found w = true →
  Rag.readable w (Rag.tree w) = true →
  ∃ full rest,
    fst (Rag.create_base_branch_index w) = full ++ rest
    ∧ concat (full ++ rest) = Rag.blob_documents w (Rag.tree w)
    ∧ Forall (λ b, length b = 10%nat) full
    ∧ ((rest = [] ∧ snd (Rag.create_base_branch_index w) = Rag.Fine tt)
       ∨ (∃ b, rest = [b] ∧ (0 < length b < 10)%nat
               ∧ snd (Rag.create_base_branch_index w)
                 = if Rag.index_documents_raises w (length full)
                   then Rag.Fails Rag.CallError else Rag.Fine tt)).
Proof.
  intros Hname Hexist Hfound Hread. unfold Rag.create_base_branch_index.
  destruct (Rag.git_provider w) as [p|] eqn:Hp; [|done].
  rewrite Hname, Hexist, Hfound.
  destruct (index_loop_spec w (Rag.tree w) [] [] Hread)
    as (calls & batch & -> & Hlen & Hcalls & Hcat);
    [simpl; lia|constructor|].
  simpl in Hcat. destruct batch as [|doc batch].
  - exists calls, []. simpl. rewrite !app_nil_r in *.
    split; [done|]. split; [done|]. split; [done|]. by left.
  - exists calls, [doc :: batch]. simpl. split; [done|].
    split; [by rewrite concat_app; simpl; rewrite app_nil_r|].
    split; [done|]. right. exists (doc :: batch). split; [done|].
    split; [simpl in *; lia|done].
Qed.

Lemma create_base_branch_index_batches_witness :
  ∃ full rest,
    fst (Rag.create_base_branch_index eleven_blobs) = full ++ rest
    ∧ concat (full ++ rest)
      = Rag.blob_documents eleven_blobs (Rag.tree eleven_blobs)
    ∧ Forall (λ b, length b = 10%nat) full
    ∧ ((rest = []
        ∧ snd (Rag.create_base_branch_index eleven_blobs) = Rag.Fine tt)
       ∨ (∃ b, rest = [b] ∧ (0 < length b < 10)%nat
               ∧ snd (Rag.create_base_branch_index eleven_blobs)
                 = if Rag.index_documents_raises eleven_blobs (length full)
                   then Rag.Fails Rag.CallError else Rag.Fine tt)).
Proof.
  apply (create_base_branch_index_batches eleven_blobs (lit "org_repo_main")).
  - reflexivity.
  - vm_compute. reflexivity.
  - reflexivity.
  - vm_compute. reflexivity.
Defined.

Lemma with_language_fields file_info doc :
  Rag.text (Rag.with_language file_info doc) = Rag.text doc
  ∧ Rag.file_name (Rag.with_language file_info doc) = Rag.file_name doc.
Proof.
  unfold Rag.with_language.
  destruct (Rag.FilePatchInfo.language file_info) as [l|]; [|done].
  by destruct (truthy l && _).
Qed.

(** A file that was edited gets the document that it would get if it had
    been added. *)
Lemma changed_document w branch file_info :
  Rag.mkDocument
    (Rag.get_pr_file_content w (Rag.FilePatchInfo.filename file_info) branch)
    (Rag.FilePatchInfo.filename file_info)
    (Rag.language
       (Rag.with_language file_info
          (Rag.mkDocument (Rag.FilePatchInfo.head_file file_info)
                          (Rag.FilePatchInfo.filename file_info) None None)))
    (Rag.split_type
       (Rag.with_language file_info
          (Rag.mkDocument (Rag.FilePatchInfo.head_file file_info)
                          (Rag.FilePatchInfo.filename file_info) None None)))
  = Rag.document_of w branch file_info.
Proof.
  unfold Rag.document_of, Rag.with_language.
  destruct (Rag.FilePatchInfo.language file_info) as [l|]; [|done].
  by destruct (truthy l && _).
Qed.

Lemma classify_step w branch existing deleted update create file_info :
  Rag.classify w branch existing (deleted, update, create) file_info =
  (deleted
   ++ (if Rag.removed (Rag.FilePatchInfo.edit_type file_info)
       then [Rag.first_doc existing file_info] else []),
   update
   ++ (if Rag.changed (Rag.FilePatchInfo.edit_type file_info)
       then [Rag.document_of w branch file_info] else []),
   create
   ++ (if Rag.added (Rag.FilePatchInfo.edit_type file_info)
       then [Rag.document_of w branch file_info] else [])).
Proof.
  unfold Rag.classify.
  destruct (Rag.FilePatchInfo.edit_type file_info); simpl;
    rewrite ?app_nil_r, ?changed_document; done.
Qed.

Lemma classify_loop w branch existing files : ∀ deleted update create,
  fold_left (Rag.classify w branch existing) files (deleted, update, create)
  = (deleted
     ++ map (Rag.first_doc existing)
            (filter (λ file_info,
                       Rag.removed (Rag.FilePatchInfo.edit_type file_info)
                       = true)
                    files),
     update ++ Rag.documents_of w branch Rag.changed files,
     create ++ Rag.documents_of w branch Rag.added files).
Proof.
  unfold Rag.documents_of.
  induction files as [|file_info files IH]; intros deleted update create.
  - simpl. by rewrite !app_nil_r.
  - cbn [fold_left]. rewrite classify_step, IH, !filter_cons.
    destruct (Rag.FilePatchInfo.edit_type file_info);
      cbn [Rag.changed Rag.added Rag.removed];
      rewrite ?(decide_True (P := true = true)) by done;
      rewrite ?(decide_False (P := false = true)) by done;
      cbn [map]; rewrite <- ?app_assoc, ?app_nil_r; done.
Qed.

Lemma doc_ids_of_found existing files :
  Rag.doc_ids_of
    (map (Rag.first_doc existing)
         (filter (λ file_info,
                    Rag.removed (Rag.FilePatchInfo.edit_type file_info)
                    = true)
                 files))
  = if existsb (Rag.deleted_unlisted existing) files
    then Rag.Fails Rag.TypeError
    else Rag.Fine (Rag.deleted_ids existing files).
Proof.
  unfold Rag.deleted_ids.
  induction files as [|file_info files IH]; [done|].
  rewrite filter_cons. cbn [existsb omap list_omap].
  unfold Rag.deleted_unlisted at 1.
  destruct (Rag.FilePatchInfo.edit_type file_info) eqn:Hkind;
    cbn [Rag.removed];
    try (rewrite (decide_False (P := false = true)) by done; exact IH).
  rewrite (decide_True (P := true = true)) by done.
  cbn [map Rag.doc_ids_of].
  destruct (Rag.first_doc existing file_info) as [doc|]; [|done].
  simpl. rewrite IH. by destruct (existsb _ files).
Qed.

Lemma found_nil existing files :
  map (Rag.first_doc existing)
      (filter (λ file_info,
                 Rag.removed (Rag.FilePatchInfo.edit_type file_info) = true)
              files)
  = [] →
  existsb (Rag.deleted_unlisted existing) files = false
  ∧ Rag.deleted_ids existing files = [].
Proof.
  intros Hnil. pose proof (doc_ids_of_found existing files) as Hids.
  rewrite Hnil in Hids. simpl in Hids.
  destruct (existsb _ files); [done|]. by injection Hids as <-.
Qed.

(** X24.  The calls of [update_index].  The documents of the files are
    listed in the index of the pull request; the files are sorted by
    their kind of edit; and at most three calls follow, on one index (that
    of the default branch if that was asked for): the deletion of one
    document for each deleted file, the first that is listed for it, then
    the update with the documents of the modified and renamed files, then
    the creation with those of the added files, each call left out if it
    has nothing to send.  If a deleted file has no listed document the
    method raises [TypeError] and has changed nothing, whatever there was
    to update or to create. *)
Theorem update_index_calls w for_base_branch p index_name base_index_name :
  Rag.provider w = Some p →
  Rag._get_index_name (Some p) = Rag.Fine index_name →
  Rag._get_default_branch_index_name (Some p) = Rag.Fine base_index_name →
  Rag.update_index w for_base_branch =
  let existing := Rag.listed w index_name in
  let target := if for_base_branch then base_index_name else index_name in
  if existsb (Rag.deleted_unlisted existing) (Rag.get_diff_files w)
  then ([], Rag.Fails Rag.TypeError)
  else (Rag.call_if (Rag.delete_documents target)
          (Rag.deleted_ids existing (Rag.get_diff_files w))
        ++ Rag.call_if (Rag.update_documents target)
             (Rag.documents_of w (Rag.get_pr_branch p) Rag.changed
                               (Rag.get_diff_files w))
        ++ Rag.call_if (Rag.index_documents target)
             (Rag.documents_of w (Rag.get_pr_branch p) Rag.added
                               (Rag.get_diff_files w)),
        Rag.Fine tt).
Proof.
  intros Hp Hname Hbase. unfold Rag.update_index.
  rewrite Hp, Hname, Hbase. fold (Rag.listed w index_name). cbv zeta.
  rewrite classify_loop. simpl app.
  set (existing := Rag.listed w index_name).
  set (found := map (Rag.first_doc existing) _).
  set (update := Rag.documents_of w _ Rag.changed _).
  set (create := Rag.documents_of w _ Rag.added _).
  pose proof (doc_ids_of_found existing (Rag.get_diff_files w)) as Hids.
  fold found in Hids.
  assert (∀ target,
    Rag.send target found update create =
    if existsb (Rag.deleted_unlisted existing) (Rag.get_diff_files w)
    then ([], Rag.Fails Rag.TypeError)
    else (Rag.call_if (Rag.delete_documents target)
            (Rag.deleted_ids existing (Rag.get_diff_files w))
          ++ Rag.call_if (Rag.update_documents target) update
          ++ Rag.call_if (Rag.index_documents target) create,
          Rag.Fine tt)) as Hsend.
  { intros target. unfold Rag.send.
    destruct found as [|d found'] eqn:Hfound.
    - destruct (found_nil existing (Rag.get_diff_files w)) as [-> ->];
        [done|].
      done.
    - rewrite Hids. destruct (existsb _ _); [done|].
      assert (Rag.deleted_ids existing (Rag.get_diff_files w) ≠ []) as Hne.
      { intros Hnil. rewrite Hnil in Hids.
        destruct d as [doc|]; simpl in Hids; [|done].
        by destruct (Rag.doc_ids_of found'). }
      by destruct (Rag.deleted_ids existing (Rag.get_diff_files w)). }
  destruct found as [|d found'] eqn:Hfound.
  - destruct update as [|u update'] eqn:Hupdate.
    + destruct create as [|c create'] eqn:Hcreate.
      * destruct (found_nil existing (Rag.get_diff_files w)) as [-> ->];
          [done|].
        done.
      * rewrite <- Hcreate, <- Hupdate in *.
        destruct for_base_branch; apply Hsend.
    + rewrite <- Hupdate in *. destruct for_base_branch; apply Hsend.
  - rewrite <- Hfound in *. destruct for_base_branch; apply Hsend.
Qed.

Lemma update_index_calls_witness :
  Rag.update_index four_files false = ([], Rag.Fails Rag.TypeError)
  ∧ Rag.update_index three_files true =
    ([ Rag.delete_documents (lit "org_repo_main") [lit "doc-c"];
       Rag.update_documents (lit "org_repo_main")
         [Rag.mkDocument (lit "new a.py") (lit "a.py") (Some (lit "python"))
                         (Some (lit "code"))];
       Rag.index_documents (lit "org_repo_main")
         [Rag.mkDocument (lit "new b.txt") (lit "b.txt") None None] ],
     Rag.Fine tt).
Proof.
  split.
  - rewrite (update_index_calls four_files false _ (lit "org_repo_feat_x")
               (lit "org_repo_main") eq_refl eq_refl eq_refl).
    vm_compute. reflexivity.
  - rewrite (update_index_calls three_files true _ (lit "org_repo_feat_x")
               (lit "org_repo_main") eq_refl eq_refl eq_refl).
    vm_compute. reflexivity.
Defined.
